(** * Anonimizador: span collection, reconciliation and masking

    A shallow embedding of [anonimizador/main.py] and the properties of
    its function [mask_entities_and_contacts]. *)

From Stdlib Require Import String Ascii.
From Stdlib Require Import List Arith ZArith Bool Lia Permutation Sorted.
Import ListNotations.

Set Implicit Arguments.

(** Python [str] values are sequences of code points; the texts handled
    here are sequences of 8-bit code points. *)
Definition str := list ascii.

Definition txt (x : string) : str := list_ascii_of_string x.

(** ** Python built-ins used by the program *)
Module Py.

Section Lists.
Variable A : Type.

(** [l[i:j]] for non-negative [i] and [j]: clipped to the list, empty
    when [j <= i]. *)
Definition slice (l : list A) (i j : nat) : list A :=
  firstn (j - i) (skipn i l).

(** [l[i:]] *)
Definition slice_from (l : list A) (i : nat) : list A := skipn i l.

Variable key : A -> nat.

(** [sorted(l, key=key)] is stable: an element goes before the first
    element already placed whose key is not smaller. *)
Fixpoint insert_asc (x : A) (l : list A) : list A :=
  match l with
  | [] => [x]
  | y :: l' => if key x <=? key y then x :: l else y :: insert_asc x l'
  end.

Definition sorted (l : list A) : list A := fold_right insert_asc [] l.

(** [sorted(l, key=key, reverse=True)] is stable as well. *)
Fixpoint insert_desc (x : A) (l : list A) : list A :=
  match l with
  | [] => [x]
  | y :: l' => if key y <=? key x then x :: l else y :: insert_desc x l'
  end.

Definition sorted_reverse (l : list A) : list A := fold_right insert_desc [] l.

(** The orders the two sorts establish. *)
Definition key_le (a b : A) : Prop := key a <= key b.
Definition key_ge (a b : A) : Prop := key b <= key a.

End Lists.

Section Keyed.
Variables A K : Type.
Variable key : A -> K.
Variable le : K -> K -> bool.

(** [sorted(l, key=key, reverse=True)] for keys of any type, compared by
    [le]: stable as well, an element goes before the first element
    already placed whose key is not greater. *)
Fixpoint insert_desc_by (x : A) (l : list A) : list A :=
  match l with
  | [] => [x]
  | y :: l' => if le (key y) (key x) then x :: l else y :: insert_desc_by x l'
  end.

Definition sorted_reverse_by (l : list A) : list A :=
  fold_right insert_desc_by [] l.

End Keyed.

(** [k1 <= k2] on tuples of two integers: the first components decide,
    the second ones when the first are equal. *)
Definition tuple_leb (k1 k2 : Z * Z) : bool :=
  ((fst k1 <? fst k2) || ((fst k1 =? fst k2) && (snd k1 <=? snd k2)))%Z.

End Py.

(** ** The masking half of [mask_entities_and_contacts] (lines 88-112) *)
Module Mask.

Definition interval := (nat * nat)%type.

Definition MASK : str := txt "********".

(** One iteration of the loop over the sorted spans. *)
Definition merge_step (merged_spans : list interval) (span : interval)
  : list interval :=
  match merged_spans with
  | [] => [span]
  | _ :: _ =>
      let last_span := last merged_spans (0, 0) in
      if fst span <=? snd last_span
      then removelast merged_spans
             ++ [(fst last_span, Nat.max (snd last_span) (snd span))]
      else merged_spans ++ [span]
  end.

Definition merge_spans (spans : list interval) : list interval :=
  fold_left merge_step spans [].

(** One iteration of the rebuilding loop: the state is
    [(masked_text, last_idx)]. *)
Definition build_step (text : str) (st : str * nat) (span : interval)
  : str * nat :=
  let '(masked_text, last_idx) := st in
  let '(start, end_) := span in
  (masked_text ++ Py.slice text last_idx start ++ MASK, end_).

Definition build_masked (text : str) (merged_spans : list interval) : str :=
  let '(masked_text, last_idx) :=
    fold_left (build_step text) merged_spans ([], 0) in
  masked_text ++ Py.slice_from text last_idx.

(** Lines 88-112 as a whole. *)
Definition mask_text (text : str) (spans : list interval) : str :=
  let spans := Py.sorted fst spans in
  let merged_spans := merge_spans spans in
  build_masked text merged_spans.

(** *** Reference semantics of masking, position by position *)

Definition inside (sp : interval) (i : nat) : bool :=
  (fst sp <=? i) && (i <? snd sp).

Definition covered (spans : list interval) (i : nat) : bool :=
  existsb (fun sp => inside sp i) spans.

(** Walk the text from position [i]; [open] says that position [i - 1]
    was masked.  A maximal run of covered positions becomes one mask
    token, every other character is copied. *)
Fixpoint mask_positions (cov : nat -> bool) (i : nat) (open : bool)
    (t : str) : str :=
  match t with
  | [] => []
  | c :: t' =>
      if cov i
      then (if open then [] else MASK) ++ mask_positions cov (S i) true t'
      else c :: mask_positions cov (S i) false t'
  end.

Definition valid_span (text : str) (sp : interval) : Prop :=
  fst sp < snd sp /\ snd sp <= length text.

Definition starts_le : interval -> interval -> Prop := Py.key_le (@fst nat nat).

(** *** Equational forms of the two loops, used in the proofs *)

(** The merge loop with the open interval [cur] kept apart. *)
Fixpoint merge_from (cur : interval) (rest : list interval) : list interval :=
  match rest with
  | [] => [cur]
  | span :: rest' =>
      if fst span <=? snd cur
      then merge_from (fst cur, Nat.max (snd cur) (snd span)) rest'
      else cur :: merge_from span rest'
  end.

(** The rebuilding loop started at cursor [last_idx]. *)
Fixpoint rebuild (text : str) (last_idx : nat) (merged : list interval) : str :=
  match merged with
  | [] => Py.slice_from text last_idx
  | span :: merged' =>
      Py.slice text last_idx (fst span) ++ MASK ++ rebuild text (snd span) merged'
  end.

(** Intervals in ascending order, each non-empty, the first starting at
    [lo] or later and each next one strictly after the end of the one
    before: at least one unmasked position lies between two of them. *)
Fixpoint chain (lo : nat) (m : list interval) : Prop :=
  match m with
  | [] => True
  | sp :: m' => lo <= fst sp /\ fst sp < snd sp /\ chain (S (snd sp)) m'
  end.

End Mask.

(** ** Python's [re] for the constructs the four rules use

    [re.finditer(pattern, text, flags)] on [str] patterns: a backtracking
    matcher that tries the alternatives of a pattern in priority order
    (greedy quantifiers try the longest repetition first) and keeps the
    first success.  The text stays whole and positions are offsets into
    it, as [\b] looks at the character before the position. *)
Module Re.

Inductive flag := NOFLAG | IGNORECASE.

(** Unicode properties of the code points below 256. *)
Definition between (lo hi n : nat) : bool := (lo <=? n) && (n <=? hi).

Definition code (c : ascii) : nat := nat_of_ascii c.

(** [\d]: decimal digits. *)
Definition is_digit (c : ascii) : bool := between 48 57 (code c).

(** [\s]: [str.isspace]. *)
Definition is_space (c : ascii) : bool :=
  let n := code c in
  between 9 13 n || between 28 32 n || (n =? 133) || (n =? 160).

(** [str.isalnum]: letters, digits and numeric characters. *)
Definition is_alnum (c : ascii) : bool :=
  let n := code c in
  between 48 57 n || between 65 90 n || between 97 122 n
  || (n =? 170) || (n =? 178) || (n =? 179) || (n =? 181) || (n =? 185)
  || (n =? 186) || between 188 190 n
  || between 192 214 n || between 216 246 n || between 248 255 n.

(** [\w]: alphanumeric or underscore. *)
Definition is_word (c : ascii) : bool := is_alnum c || (code c =? 95).

(** Simple lower-casing of a code point. *)
Definition lower (c : ascii) : ascii :=
  let n := code c in
  if between 65 90 n || between 192 214 n || between 216 222 n
  then ascii_of_nat (n + 32) else c.

Inductive category := Digit | Space | Word.

Definition in_category (k : category) (c : ascii) : bool :=
  match k with
  | Digit => is_digit c
  | Space => is_space c
  | Word => is_word c
  end.

(** A member of a set [[...]]: a category escape or a character. *)
Inductive item :=
| Cat (k : category)
| Chr (c : ascii).

Inductive regex :=
| Eps                                    (* the empty pattern *)
| Lit (c : ascii)                        (* a character, also escaped: [\.] [\(] *)
| In_ (cs : list item)                   (* [\d] [\s] [\w] or a set [[...]] *)
| Boundary                               (* [\b] *)
| Seq (r1 r2 : regex)                    (* r1 r2 *)
| Maybe (r : regex)                      (* r? and (?:r)? and (r)?, greedy *)
| Repeat (cs : list item) (lo : nat) (hi : option nat).
                                         (* x{lo,hi}, x*, x+ on one-character x, greedy *)

(** A literal under [flags]: with IGNORECASE both sides are lower-cased. *)
Definition lit_eq (fl : flag) (c x : ascii) : bool :=
  match fl with
  | NOFLAG => Ascii.eqb x c
  | IGNORECASE => Ascii.eqb (lower x) (lower c)
  end.

Definition item_mem (fl : flag) (x : ascii) (it : item) : bool :=
  match it with
  | Cat k => in_category k x
  | Chr c => lit_eq fl c x
  end.

Definition mem (fl : flag) (cs : list item) (x : ascii) : bool :=
  existsb (item_mem fl x) cs.

Definition word_at (t : str) (i : nat) : bool :=
  match nth_error t i with
  | Some c => is_word c
  | None => false
  end.

(** [\b] at offset [i]: exactly one of the characters before and at [i]
    is a word character (none outside the text). *)
Definition at_boundary (t : str) (i : nat) : bool :=
  xorb (match i with 0 => false | S j => word_at t j end) (word_at t i).

(** Number of leading characters of [l] in the set. *)
Fixpoint run (fl : flag) (cs : list item) (l : str) : nat :=
  match l with
  | [] => 0
  | x :: l' => if mem fl cs x then S (run fl cs l') else 0
  end.

(** [hi; hi-1; ...; lo], empty when [hi < lo]. *)
Definition countdown (hi lo : nat) : list nat := rev (seq lo (S hi - lo)).

(** The offsets at which a match of [r] started at offset [i] can end, in
    the order the backtracking matcher tries them. *)
Fixpoint ends (fl : flag) (r : regex) (t : str) (i : nat) : list nat :=
  match r with
  | Eps => [i]
  | Lit c =>
      match nth_error t i with
      | Some x => if lit_eq fl c x then [S i] else []
      | None => []
      end
  | In_ cs =>
      match nth_error t i with
      | Some x => if mem fl cs x then [S i] else []
      | None => []
      end
  | Boundary => if at_boundary t i then [i] else []
  | Seq r1 r2 => flat_map (ends fl r2 t) (ends fl r1 t i)
  | Maybe r' => ends fl r' t i ++ [i]
  | Repeat cs lo hi =>
      let n := run fl cs (skipn i t) in
      let top := match hi with Some h => Nat.min h n | None => n end in
      map (fun k => i + k) (countdown top lo)
  end.

(** [pattern.match(text, pos)]: the first success. *)
Definition match_at (fl : flag) (r : regex) (t : str) (pos : nat) : option nat :=
  hd_error (ends fl r t pos).

(** The scan of [finditer]: the next match is searched from the end of
    the one before (one position further after an empty match). *)
Fixpoint scan (fl : flag) (r : regex) (t : str) (fuel pos : nat)
  : list (nat * nat) :=
  match fuel with
  | 0 => []
  | S fuel' =>
      if length t <? pos then []
      else match match_at fl r t pos with
           | Some e => (pos, e) :: scan fl r t fuel' (Nat.max e (S pos))
           | None => scan fl r t fuel' (S pos)
           end
  end.

(** [[(m.start(), m.end()) for m in re.finditer(pattern, text, flags)]] *)
Definition finditer (r : regex) (t : str) (fl : flag) : list (nat * nat) :=
  scan fl r t (S (length t)) 0.

(** *** Reading a pattern *)

Definition seq_of (rs : list regex) : regex := fold_right Seq Eps rs.

Definition lits (x : string) : list regex := map Lit (list_ascii_of_string x).

(** [\d], [\s], [\w] *)
Definition d : list item := [Cat Digit].
Definition sp : list item := [Cat Space].
Definition w : list item := [Cat Word].

(** [x*], [x+], [x{n}], [x{m,n}] *)
Definition star (cs : list item) : regex := Repeat cs 0 None.
Definition plus (cs : list item) : regex := Repeat cs 1 None.
Definition times (cs : list item) (n : nat) : regex := Repeat cs n (Some n).
Definition from_to (cs : list item) (m n : nat) : regex := Repeat cs m (Some n).

(** *** What it means for a pattern to match, without an order of trial *)

Definition in_set (fl : flag) (cs : list item) (t : str) (m : nat) : Prop :=
  exists x, nth_error t m = Some x /\ mem fl cs x = true.

Fixpoint matches (fl : flag) (t : str) (r : regex) (i j : nat) : Prop :=
  match r with
  | Eps => j = i
  | Lit c => exists x, nth_error t i = Some x /\ lit_eq fl c x = true /\ j = S i
  | In_ cs => in_set fl cs t i /\ j = S i
  | Boundary => at_boundary t i = true /\ j = i
  | Seq r1 r2 => exists k, matches fl t r1 i k /\ matches fl t r2 k j
  | Maybe r' => matches fl t r' i j \/ j = i
  | Repeat cs lo hi =>
      i <= j /\ lo <= j - i /\
      match hi with Some h => j - i <= h | None => True end /\
      forall m, i <= m < j -> in_set fl cs t m
  end.

(** *** What can be read off a pattern *)

(** Shortest length of a match. *)
Fixpoint min_len (r : regex) : nat :=
  match r with
  | Eps | Boundary | Maybe _ => 0
  | Lit _ | In_ _ => 1
  | Seq r1 r2 => min_len r1 + min_len r2
  | Repeat _ lo _ => lo
  end.

(** The length of every match, when there is only one. *)
Fixpoint fixed_len (r : regex) : option nat :=
  match r with
  | Eps | Boundary => Some 0
  | Lit _ | In_ _ => Some 1
  | Seq r1 r2 =>
      match fixed_len r1, fixed_len r2 with
      | Some n1, Some n2 => Some (n1 + n2)
      | _, _ => None
      end
  | Maybe _ => None
  | Repeat _ lo hi =>
      match hi with
      | Some h => if lo =? h then Some lo else None
      | None => None
      end
  end.

(** No match of the pattern runs over the character [c]. *)
Fixpoint no_char (fl : flag) (c : ascii) (r : regex) : bool :=
  match r with
  | Eps | Boundary => true
  | Lit x => negb (lit_eq fl x c)
  | In_ cs => negb (mem fl cs c)
  | Seq r1 r2 => no_char fl c r1 && no_char fl c r2
  | Maybe r' => no_char fl c r'
  | Repeat cs _ _ => negb (mem fl cs c)
  end.

Definition all_ascii : list ascii := map ascii_of_nat (seq 0 256).

(** The literal [c] stands for the character [c] only. *)
Definition uncased (fl : flag) (c : ascii) : bool :=
  forallb (fun y => implb (lit_eq fl c y) (Ascii.eqb y c)) all_ascii.

(** Every match is made of characters other than [c], then [c], then
    exactly [n] more characters: [anchor fl c r = Some n]. *)
Fixpoint anchor (fl : flag) (c : ascii) (r : regex) : option nat :=
  match r with
  | Lit x => if Ascii.eqb x c && uncased fl c then Some 0 else None
  | Seq r1 r2 =>
      if no_char fl c r1 then anchor fl c r2
      else match anchor fl c r1, fixed_len r2 with
           | Some n, Some k => Some (n + k)
           | _, _ => None
           end
  | _ => None
  end.

(** The first occurrence of [c] in [t] at or after [i] is at [m]. *)
Definition first_at (t : str) (c : ascii) (i m : nat) : Prop :=
  i <= m /\ nth_error t m = Some c /\
  forall m', i <= m' < m -> nth_error t m' <> Some c.

(** The first element of a list of offsets is its largest. *)
Definition first_is_max (l : list nat) : Prop :=
  match l with
  | [] => True
  | e :: rest => Forall (fun j => j <= e) rest
  end.

(** The result of a leftmost-longest scan from offset [pos]: each match
    is the first one at or after the end of the one before, no match of
    the pattern from its start is longer, and none is left after the last. *)
Fixpoint leftmost_longest (fl : flag) (r : regex) (t : str) (pos : nat)
    (ms : list (nat * nat)) : Prop :=
  match ms with
  | [] => forall i j, pos <= i -> ~ matches fl t r i j
  | (a, b) :: ms' =>
      pos <= a /\ a < b /\ matches fl t r a b /\
      (forall i j, pos <= i < a -> ~ matches fl t r i j) /\
      (forall j, matches fl t r a j -> j <= b) /\
      leftmost_longest fl r t b ms'
  end.

End Re.

(** ** The spaCy objects the program uses

    spaCy is a library: [nlp], [Doc.char_span] and [filter_spans] are not
    part of the repository.  The loaded model [nlp] is an argument of the
    embedding; the two library functions are modelled below,
    [Doc.char_span] from the spec and [filter_spans] on the library's
    function in spacy/util.py. *)
Module SpaCy.

(** A span: character offsets into the text of its document and a label
    ([span.start_char], [span.end_char], [span.label_]). *)
Record Span := mkSpan {
  start_char : nat;
  end_char : nat;
  label_ : string
}.

(** A processed document: the character boundaries [(start, end)] of its
    tokens and its entities [doc.ents]. *)
Record Doc := mkDoc {
  tokens : list (nat * nat);
  ents : list Span
}.

(** [span.text]: the characters of the text the span covers. *)
Definition span_text (text : str) (sp : Span) : str :=
  Py.slice text (start_char sp) (end_char sp).

(** Modelled from the spec: [Doc.char_span] (spaCy, not under src/).  A
    regex match is discarded only if its offsets cannot be mapped onto a
    valid span boundary consistent with the token boundaries; a span that
    is produced has the offsets of the match and the label given. *)
Definition char_span (doc : Doc) (start_idx end_idx : nat) (label : string)
  : option Span :=
  if (start_idx <? end_idx)
     && existsb (fun tk => fst tk =? start_idx) (tokens doc)
     && existsb (fun tk => snd tk =? end_idx) (tokens doc)
  then Some (mkSpan start_idx end_idx label)
  else None.

Definition span_len (sp : Span) : nat := end_char sp - start_char sp.

(** Two spans share a character. *)
Definition overlaps (a b : Span) : bool :=
  (start_char a <? end_char b) && (start_char b <? end_char a).

Definition disjoint (a b : Span) : Prop := overlaps a b = false.

(** One candidate of the greedy pass: accepted if it overlaps no
    candidate accepted before it, discarded otherwise. *)
Definition accept (accepted : list Span) (cand : Span) : list Span :=
  if existsb (overlaps cand) accepted then accepted else accepted ++ [cand].

(** [span.start] and [span.end], the indices of the first token of a
    span and of the token after its last one: the numbers of tokens of
    the document that start before the span and before its end. *)
Definition token_start (tks : list (nat * nat)) (sp : Span) : nat :=
  length (filter (fun tk => fst tk <? start_char sp) tks).

Definition token_end (tks : list (nat * nat)) (sp : Span) : nat :=
  length (filter (fun tk => fst tk <? end_char sp) tks).

(** [span.end - span.start], the length of a span in tokens. *)
Definition token_len (tks : list (nat * nat)) (sp : Span) : Z :=
  Z.of_nat (token_end tks sp) - Z.of_nat (token_start tks sp).

(** [get_sort_key]: the tuple [(span.end - span.start, -span.start)]. *)
Definition get_sort_key (tks : list (nat * nat)) (sp : Span) : Z * Z :=
  (token_len tks sp, - Z.of_nat (token_start tks sp))%Z.

(** [spacy.util.filter_spans] (spaCy, spacy/util.py; a library function,
    not part of the repository), for spans of a document with the tokens
    [tks].  The spans are sorted by [get_sort_key] with [reverse=True]:
    more tokens first, among spans of as many tokens the one that starts
    earlier first, spans with the same key in their order in [spans].
    They are then taken one by one, a span being kept when neither its
    first nor its last token belongs to a span kept before it.  The spans
    kept before it have at least as many tokens, and the spans of a
    document begin with a token, so this is [accept]: the span shares no
    character with a span kept before it ([filter_spans_loop] below is
    the loop on token indices, and gives the same spans).  The spans
    kept are returned sorted by [span.start]. *)
Definition filter_spans (tks : list (nat * nat)) (spans : list Span)
  : list Span :=
  let sorted_spans :=
    Py.sorted_reverse_by (get_sort_key tks) Py.tuple_leb spans in
  let result := fold_left accept sorted_spans [] in
  Py.sorted (token_start tks) result.

(** The loop of [filter_spans] as the library writes it, with the set
    [seen_tokens] of the token indices of the spans kept so far: a span
    is kept when neither [span.start] nor [span.end - 1] is in the set,
    and [range(span.start, span.end)] is then added to it. *)
Definition in_seen (seen_tokens : list nat) (i : nat) : bool :=
  existsb (Nat.eqb i) seen_tokens.

Definition keep (tks : list (nat * nat)) (st : list Span * list nat)
    (span : Span) : list Span * list nat :=
  let (result, seen_tokens) := st in
  let first := token_start tks span in
  let last_seen :=
    match token_end tks span with
    | 0 => false
    | S last => in_seen seen_tokens last
    end in
  if negb (in_seen seen_tokens first) && negb last_seen
  then (result ++ [span],
        seen_tokens ++ seq first (token_end tks span - first))
  else st.

Definition filter_spans_loop (tks : list (nat * nat)) (spans : list Span)
  : list Span :=
  let sorted_spans :=
    Py.sorted_reverse_by (get_sort_key tks) Py.tuple_leb spans in
  let result := fst (fold_left (keep tks) sorted_spans ([], [])) in
  Py.sorted (token_start tks) result.

(** The tokens of a document follow each other in the text, and none is
    empty. *)
Definition in_text_order (tks : list (nat * nat)) : Prop :=
  StronglySorted (fun t u => snd t <= fst u) tks /\
  Forall (fun t => fst t < snd t) tks.

(** [seen_tokens] holds the tokens of the spans kept so far. *)
Definition covers (tks : list (nat * nat)) (acc : list Span)
    (seen_tokens : list nat) : Prop :=
  forall i, In i seen_tokens <->
            exists a, In a acc /\ token_start tks a <= i < token_end tks a.

(** A span of a document is not empty and begins where a token begins. *)
Definition on_tokens (tks : list (nat * nat)) (sp : Span) : Prop :=
  start_char sp < end_char sp /\ In (start_char sp) (map fst tks).

(** The order in which [filter_spans] takes the spans of a document with
    the tokens [tks]: [a] is not after [b] when it has more tokens, or as
    many and starts no later. *)
Definition goes_first (tks : list (nat * nat)) (a b : Span) : Prop :=
  (token_len tks b < token_len tks a)%Z \/
  (token_len tks b = token_len tks a /\
   token_start tks a <= token_start tks b).

(** Spans with the sort key [k]. *)
Definition has_key (tks : list (nat * nat)) (k : Z * Z) (sp : Span) : bool :=
  ((fst (get_sort_key tks sp) =? fst k)
   && (snd (get_sort_key tks sp) =? snd k))%Z.

(** Two spans share a character, in terms of their offsets. *)
Definition share_char (a b : Span) : Prop :=
  start_char a < end_char b /\ start_char b < end_char a.

(** [doc.ents = l] *)
Definition set_ents (doc : Doc) (l : list Span) : Doc :=
  mkDoc (tokens doc) l.

End SpaCy.

(** ** [anonimizador/main.py] *)
Module Anonimizador.
Import SpaCy.
Local Open Scope string_scope.

(** An entry [{'text': ..., 'label': ...}] of [entities_found]. *)
Record Entity := mkEntity {
  text : str;
  label : string
}.

(** An entry [{'label': ..., 'pattern': ...}] of [patterns]. *)
Record Rule := mkRule {
  rule_label : string;
  pattern : Re.regex
}.

(** Line 46, written with spaces between its pieces:
    [\b (?: C P F \s* )? \d{3} \. \d{3} \. \d{3} - \d{2} \b] *)
Definition CPF_pattern : Re.regex :=
  Re.seq_of
    [Re.Boundary;
     Re.Maybe (Re.seq_of (Re.lits "CPF" ++ [Re.star Re.sp]));
     Re.times Re.d 3; Re.Lit "."; Re.times Re.d 3; Re.Lit ".";
     Re.times Re.d 3; Re.Lit "-"; Re.times Re.d 2;
     Re.Boundary].

(** Line 51, written with spaces between its pieces:
    [\b (?: C N P J \s* )? \d{2} \. \d{3} \. \d{3} / \d{4} - \d{2} \b] *)
Definition CNPJ_pattern : Re.regex :=
  Re.seq_of
    [Re.Boundary;
     Re.Maybe (Re.seq_of (Re.lits "CNPJ" ++ [Re.star Re.sp]));
     Re.times Re.d 2; Re.Lit "."; Re.times Re.d 3; Re.Lit ".";
     Re.times Re.d 3; Re.Lit "/"; Re.times Re.d 4; Re.Lit "-";
     Re.times Re.d 2;
     Re.Boundary].

(** Line 56, written with spaces between its pieces:
    [\b (?: t e l e f o n e \s* )? ( \(? \d{2} \)? \s* )? 9? \d{4} - \d{4} \b];
    the capturing group does not change the offsets of a match. *)
Definition TELEFONE_pattern : Re.regex :=
  Re.seq_of
    [Re.Boundary;
     Re.Maybe (Re.seq_of (Re.lits "telefone" ++ [Re.star Re.sp]));
     Re.Maybe (Re.seq_of [Re.Maybe (Re.Lit "("); Re.times Re.d 2;
                          Re.Maybe (Re.Lit ")"); Re.star Re.sp]);
     Re.Maybe (Re.Lit "9");
     Re.times Re.d 4; Re.Lit "-"; Re.times Re.d 4;
     Re.Boundary].

(** Line 59, written with spaces between its pieces:
    [\b [\w\.-]+ @ [\w\.-]+ \. \w{2,4} \b] *)
Definition EMAIL_pattern : Re.regex :=
  let name := [Re.Cat Re.Word; Re.Chr "."; Re.Chr "-"] in
  Re.seq_of
    [Re.Boundary;
     Re.plus name; Re.Lit "@"; Re.plus name; Re.Lit ".";
     Re.from_to Re.w 2 4;
     Re.Boundary].

(** The pieces of the last rule: the set [[\w\.-]], what follows the
    domain name and what follows the at sign. *)
Definition EMAIL_name : list Re.item := [Re.Cat Re.Word; Re.Chr "."; Re.Chr "-"].
Definition EMAIL_tld : Re.regex :=
  Re.seq_of [Re.Lit "."; Re.from_to Re.w 2 4; Re.Boundary].
Definition EMAIL_domain : Re.regex := Re.Seq (Re.plus EMAIL_name) EMAIL_tld.
Definition EMAIL_local : Re.regex :=
  Re.Seq Re.Boundary (Re.Seq (Re.plus EMAIL_name) (Re.Lit "@")).

Definition patterns : list Rule :=
  [ mkRule "CPF" CPF_pattern;
    mkRule "CNPJ" CNPJ_pattern;
    mkRule "TELEFONE" TELEFONE_pattern;
    mkRule "EMAIL" EMAIL_pattern ].

(** The three lists the function fills. *)
Record Lists := mkLists {
  spans : list (nat * nat);
  entities_found : list Entity;
  new_ents : list Span
}.

Definition linguistic_labels : list string := ["PER"; "ORG"; "LOC"; "GPE"].

(** [x in l] for strings. *)
Definition str_in (x : string) (l : list string) : bool :=
  existsb (String.eqb x) l.

(** Lines 32-39: the body of the loop over [doc.ents]. *)
Definition ent_step (txt0 : str) (st : Lists) (ent : Span) : Lists :=
  if str_in (label_ ent) linguistic_labels
  then mkLists (spans st ++ [(start_char ent, end_char ent)])
               (entities_found st
                  ++ [mkEntity (span_text txt0 ent) (label_ ent)])
               (new_ents st)
  else st.

(** Lines 68-80: the body of the loop over the matches of one rule. *)
Definition match_step (doc : Doc) (txt0 : str) (item : Rule) (st : Lists)
    (m : nat * nat) : Lists :=
  match char_span doc (fst m) (snd m) (rule_label item) with
  | Some span =>
      mkLists (spans st ++ [(start_char span, end_char span)])
              (entities_found st
                 ++ [mkEntity (span_text txt0 span) (label_ span)])
              (new_ents st ++ [span])
  | None => st
  end.

(** Lines 66-80: the body of the loop over [patterns]. *)
Definition rule_step (doc : Doc) (txt0 : str) (st : Lists) (item : Rule)
  : Lists :=
  fold_left (match_step doc txt0 item)
            (Re.finditer (pattern item) txt0 Re.IGNORECASE) st.

(** Lines 23-80: the lists when both loops are done. *)
Definition collect (doc : Doc) (txt0 : str) : Lists :=
  let st := fold_left (ent_step txt0) (ents doc) (mkLists [] [] []) in
  let st := mkLists (spans st) (entities_found st) (ents doc) in
  fold_left (rule_step doc txt0) patterns st.

(** [mask_entities_and_contacts(text)], with the loaded model [nlp] as
    an argument: the masked text, [entities_found] and the document. *)
Definition mask_entities_and_contacts (nlp : str -> Doc) (txt0 : str)
  : str * list Entity * Doc :=
  let doc := nlp txt0 in
  let st := collect doc txt0 in
  let filtered_ents := filter_spans (tokens doc) (new_ents st) in
  let doc := set_ents doc filtered_ents in
  let masked_text := Mask.mask_text txt0 (spans st) in
  (masked_text, entities_found st, doc).

(** *** What the two collecting loops compute *)

(** The extractor entities that are reported and masked. *)
Definition reported (doc : Doc) : list Span :=
  filter (fun ent => str_in (label_ ent) linguistic_labels) (ents doc).

(** What one regex match adds: its span, or nothing. *)
Definition contribution (doc : Doc) (item : Rule) (m : nat * nat) : list Span :=
  match char_span doc (fst m) (snd m) (rule_label item) with
  | Some span => [span]
  | None => []
  end.

(** The spans kept for one rule. *)
Definition kept (doc : Doc) (txt0 : str) (item : Rule) : list Span :=
  flat_map (contribution doc item)
           (Re.finditer (pattern item) txt0 Re.IGNORECASE).

(** The collected raw spans, in the order they are appended. *)
Definition raw (doc : Doc) (txt0 : str) : list Span :=
  reported doc ++ flat_map (kept doc txt0) patterns.

(** The candidates handed to [filter_spans]. *)
Definition candidates (doc : Doc) (txt0 : str) : list Span :=
  ents doc ++ flat_map (kept doc txt0) patterns.

Definition interval_of (sp : Span) : nat * nat := (start_char sp, end_char sp).

Definition entity_of (txt0 : str) (sp : Span) : Entity :=
  mkEntity (span_text txt0 sp) (label_ sp).

Definition pattern_labels : list string := ["CPF"; "CNPJ"; "TELEFONE"; "EMAIL"].

(** The three components of the result. *)
Definition masked_of (r : str * list Entity * Doc) : str := fst (fst r).
Definition report_of (r : str * list Entity * Doc) : list Entity := snd (fst r).
Definition doc_of (r : str * list Entity * Doc) : Doc := snd r.

Definition all_labels : list string := linguistic_labels ++ pattern_labels.

(** Spans in ascending order of their start. *)
Definition starts_before (a b : Span) : Prop := start_char a < start_char b.

(** The span invariant of the extractor: [0 <= start < end <= len(text)]. *)
Definition within (txt0 : str) (sp : Span) : Prop :=
  start_char sp < end_char sp /\ end_char sp <= length txt0.

(** The report read as the reconciled entity set: one pair per accepted
    entity, and no two reported spans overlapping. *)
Definition one_pair_per_accepted (nlp : str -> Doc) (txt0 : str) : Prop :=
  let r := mask_entities_and_contacts nlp txt0 in
  Permutation (report_of r) (map (entity_of txt0) (ents (doc_of r))).

Definition reported_spans_disjoint (nlp : str -> Doc) (txt0 : str) : Prop :=
  ForallOrdPairs disjoint (raw (nlp txt0) txt0).

(** The reconciliation read as section 4.3 of the spec words it: the
    candidates processed sorted by span length in characters descending,
    ties broken by original insertion order, a candidate accepted when
    it does not character-overlap any already-accepted candidate. *)
Definition reconcile_as_stated (spans : list Span) : list Span :=
  fold_left accept (Py.sorted_reverse span_len spans) [].

(** The accepted entity set of the program is the one of that reading. *)
Definition reconciled_as_stated (nlp : str -> Doc) (txt0 : str) : Prop :=
  let r := mask_entities_and_contacts nlp txt0 in
  forall sp, In sp (ents (doc_of r))
             <-> In sp (reconcile_as_stated (candidates (nlp txt0) txt0)).

End Anonimizador.

(** ** Sample documents

    Outputs an extractor can give on some short texts. *)
Module Sample.
Import SpaCy.
Local Open Scope string_scope.

(** A tax number with its prefix; the extractor tags the acronym as an
    organisation. *)
Definition cpf_text : str := txt "CPF 123.456.789-00".
Definition cpf_doc : Doc := mkDoc [(0, 3); (4, 18)] [mkSpan 0 3 "ORG"].
Definition cpf_nlp (_ : str) : Doc := cpf_doc.

(** A text without identifiers and without entities. *)
Definition plain_text : str := txt "Hello world".
Definition plain_doc : Doc := mkDoc [(0, 5); (6, 11)] [].
Definition plain_nlp (t : str) : Doc :=
  match t with
  | [] => mkDoc [] []
  | _ => plain_doc
  end.

(** An address inside one token: its offsets are no token boundary. *)
Definition glued_text : str := txt "contato:joao@example.com".
Definition glued_doc : Doc := mkDoc [(0, 24)] [].
Definition glued_nlp (_ : str) : Doc := glued_doc.

(** An entity with a label outside the four linguistic ones. *)
Definition misc_text : str := txt "Copa do Mundo".
Definition misc_doc : Doc :=
  mkDoc [(0, 4); (5, 7); (8, 13)] [mkSpan 0 13 "MISC"].
Definition misc_nlp (_ : str) : Doc := misc_doc.

(** Two names run together with the word before a phone number: the
    person entity has four tokens and seventeen characters, the phone
    number fewer tokens and eighteen characters. *)
Definition ana_text : str := txt "Ana e Jo telefone 1234-5678".
Definition ana_doc : Doc :=
  mkDoc [(0, 3); (4, 5); (6, 8); (9, 17); (18, 27)] [mkSpan 0 17 "PER"].
Definition ana_nlp (_ : str) : Doc := ana_doc.

(** A phone number followed by a bank: the organisation entity takes the
    digits in; it and the phone number have two tokens and eighteen
    characters each. *)
Definition banco_text : str := txt "telefone 1234-5678 Bradesco".
Definition banco_doc : Doc :=
  mkDoc [(0, 8); (9, 18); (19, 27)] [mkSpan 9 27 "ORG"].
Definition banco_nlp (_ : str) : Doc := banco_doc.

End Sample.

(** ** Measures of the masked text *)
Module Measure.

(** Number of positions of an interval. *)
Definition width (sp : Mask.interval) : nat := snd sp - fst sp.

(** Number of positions of the text that lie inside some span. *)
Definition covered_count (text : str) (spans : list Mask.interval) : nat :=
  length (filter (Mask.covered spans) (seq 0 (length text))).

(** The intervals the masking half replaces by a token. *)
Definition merged_of (spans : list Mask.interval) : list Mask.interval :=
  Mask.merge_spans (Py.sorted fst spans).

End Measure.

(** ** The shapes the rules look for *)
Module Shape.

(** The characters a pattern of fixed length accepts, position by
    position, when it has such a list. *)
Fixpoint shape_of (fl : Re.flag) (r : Re.regex) : option (list (ascii -> bool)) :=
  match r with
  | Re.Eps | Re.Boundary => Some []
  | Re.Lit c => Some [Re.lit_eq fl c]
  | Re.In_ cs => Some [Re.mem fl cs]
  | Re.Seq r1 r2 =>
      match shape_of fl r1, shape_of fl r2 with
      | Some p1, Some p2 => Some (p1 ++ p2)
      | _, _ => None
      end
  | Re.Maybe _ => None
  | Re.Repeat cs lo hi =>
      match hi with
      | Some h => if lo =? h then Some (repeat (Re.mem fl cs) lo) else None
      | None => None
      end
  end.

(** The string [l] has one character per predicate, each accepted. *)
Definition fits (ps : list (ascii -> bool)) (l : str) : bool :=
  (length l =? length ps) && forallb (fun pc => fst pc (snd pc)) (combine ps l).

Definition D : ascii -> bool := Re.is_digit.

Definition is_char (c x : ascii) : bool := Ascii.eqb x c.

(** [DDD.DDD.DDD-DD] *)
Definition cpf_number : list (ascii -> bool) :=
  [D; D; D; is_char "."; D; D; D; is_char "."; D; D; D; is_char "-"; D; D].

(** [DD.DDD.DDD/DDDD-DD] *)
Definition cnpj_number : list (ascii -> bool) :=
  [D; D; is_char "."; D; D; D; is_char "."; D; D; D; is_char "/";
   D; D; D; D; is_char "-"; D; D].

(** [DDDD-DDDD] *)
Definition phone_number : list (ascii -> bool) :=
  [D; D; D; D; is_char "-"; D; D; D; D].

(** A character of the set [[\w\.-]]. *)
Definition name_char (c : ascii) : bool :=
  Re.is_word c || is_char "." c || is_char "-" c.

(** The character at offset [i] of [t] satisfies [p]. *)
Definition char_at (t : str) (p : ascii -> bool) (i : nat) : Prop :=
  exists c, nth_error t i = Some c /\ p c = true.

(** The word boundaries a pattern of fixed length asks for, when it is
    matched from offset [i]. *)
Fixpoint boundaries_hold (t : str) (r : Re.regex) (i : nat) : Prop :=
  match r with
  | Re.Boundary => Re.at_boundary t i = true
  | Re.Seq r1 r2 =>
      boundaries_hold t r1 i /\ boundaries_hold t r2 (i + Re.min_len r1)
  | _ => True
  end.

(** What follows the optional prefixes in the first three rules. *)
Definition CPF_core : Re.regex :=
  Re.seq_of [Re.times Re.d 3; Re.Lit "."; Re.times Re.d 3; Re.Lit ".";
             Re.times Re.d 3; Re.Lit "-"; Re.times Re.d 2; Re.Boundary].

Definition CNPJ_core : Re.regex :=
  Re.seq_of [Re.times Re.d 2; Re.Lit "."; Re.times Re.d 3; Re.Lit ".";
             Re.times Re.d 3; Re.Lit "/"; Re.times Re.d 4; Re.Lit "-";
             Re.times Re.d 2; Re.Boundary].

Definition TELEFONE_core : Re.regex :=
  Re.seq_of [Re.times Re.d 4; Re.Lit "-"; Re.times Re.d 4; Re.Boundary].

End Shape.

(** ** The Streamlit page, [main] (lines 117-180)

    Streamlit and displaCy are libraries: a run of [main] is modelled by
    the calls it makes on [st], in order, given what [st.text_area] and
    [st.button] return in that run; [displacy.render] is an argument. *)
Module App.
Import SpaCy Anonimizador.
Local Open Scope string_scope.

(** String literals of the source are UTF-8: two bytes with a lead byte
    194 or 195 stand for one code point below 256. *)
Fixpoint utf8 (l : list ascii) : str :=
  match l with
  | a :: ((b :: l') as rest) =>
      if (Nat.eqb (nat_of_ascii a) 194 || Nat.eqb (nat_of_ascii a) 195)%bool
      then ascii_of_nat ((nat_of_ascii a - 192) * 64 + (nat_of_ascii b - 128))%nat
             :: utf8 l'
      else a :: utf8 rest
  | _ => l
  end.

Definition lit (x : string) : str := utf8 (list_ascii_of_string x).

(** The calls on [st]; [write_html] is [st.write] with
    [unsafe_allow_html=True]. *)
Inductive call :=
| title (body : str)
| write (body : str)
| write_html (body : str)
| text_area (label : str) (height : nat)
| button (label : str)
| subheader (body : str)
| warning (body : str).

(** What the two widgets return in a run. *)
Record Page := mkPage {
  text_input : str;
  pressed : bool
}.

(** The [options] dictionary handed to displaCy. *)
Record Options := mkOptions {
  opt_ents : list string;
  opt_colors : list (string * string)
}.

Definition colors : list (string * string) :=
  [("PER", "yellow"); ("ORG", "blue"); ("LOC", "green"); ("CPF", "red");
   ("CNPJ", "orange"); ("TELEFONE", "purple"); ("EMAIL", "pink")].

Definition options : Options :=
  mkOptions ["PER"; "ORG"; "LOC"; "CPF"; "CNPJ"; "TELEFONE"; "EMAIL"] colors.

Definition newline : ascii := "010"%char.
Definition quote : ascii := "034"%char.

(** [html.replace("\n", " ")] *)
Definition replace_newlines (html : str) : str :=
  map (fun c => if Ascii.eqb c newline then " "%char else c) html.

(** The f-string of line 143. *)
Definition entity_line (e : Entity) : str :=
  (txt "**" ++ list_ascii_of_string (label e) ++ txt "**: " ++ text e)%list.

(** The f-string of line 175. *)
Definition div (html : str) : str :=
  (txt "<div style=" ++ [quote] ++ txt "overflow-x: auto; padding: 1em;"
     ++ [quote] ++ txt ">" ++ html ++ txt "</div>")%list.

(** Lines 121-127, made in every run. *)
Definition heading : list call :=
  [ title (lit "Anonimizador de Informações Sensíveis");
    write (lit "Este aplicativo anonimiza informações pessoais em texto e mostra quais informações foram identificadas.");
    text_area (lit "Insira o texto aqui") 200;
    button (lit "Anonimizar") ].

(** Lines 140-145. *)
Definition entity_calls (entities_found : list Entity) : list call :=
  match entities_found with
  | [] => [write (lit "Nenhuma informação sensível identificada.")]
  | _ :: _ =>
      subheader (lit "Informações Sensíveis Identificadas")
        :: map (fun entity => write (entity_line entity)) entities_found
  end.

(** [main()]: [render txt0 doc options] stands for
    [displacy.render(doc, style="ent", options=options)] on the document
    of the text [txt0]. *)
Definition main (nlp : str -> Doc) (render : str -> Doc -> Options -> str)
    (page : Page) : list call :=
  (heading ++
   if pressed page then
     match text_input page with
     | _ :: _ =>
         let '(masked_text, entities_found, doc) :=
           mask_entities_and_contacts nlp (text_input page) in
         [subheader (lit "Texto Anonimizado"); write masked_text]
         ++ entity_calls entities_found
         ++ [subheader (lit "Visualização das Entidades Identificadas");
             write_html
               (div (replace_newlines (render (text_input page) doc options)))]
     | [] => [warning (lit "Por favor, insira o texto para anonimização.")]
     end
   else [])%list.

End App.

(** * Proofs *)

Unset Implicit Arguments.

(** ** Python's stable sort *)
Section SortedFacts.
Variable A : Type.
Variable key : A -> nat.

Lemma insert_asc_perm (x : A) (l : list A) :
  Permutation (Py.insert_asc key x l) (x :: l).
Proof.
  induction l as [|y l IH]; simpl; [reflexivity|].
  destruct (key x <=? key y); [reflexivity|].
  rewrite IH. apply perm_swap.
Qed.

Lemma sorted_perm (l : list A) : Permutation (Py.sorted key l) l.
Proof.
  induction l as [|x l IH]; simpl; [constructor|].
  rewrite insert_asc_perm. now constructor.
Qed.

Lemma insert_asc_sorted (x : A) (l : list A) :
  StronglySorted (Py.key_le key) l -> StronglySorted (Py.key_le key) (Py.insert_asc key x l).
Proof.
  induction 1 as [|y l Hl IH Hy]; simpl.
  - repeat constructor.
  - destruct (key x <=? key y) eqn:E.
    + apply Nat.leb_le in E. constructor; [now constructor|].
      constructor; [exact E|].
      eapply Forall_impl; [|exact Hy]. unfold Py.key_le. intros; lia.
    + apply Nat.leb_gt in E. constructor; [exact IH|].
      eapply Permutation_Forall; [symmetry; apply insert_asc_perm|].
      constructor; [unfold Py.key_le; lia | exact Hy].
Qed.

Lemma sorted_sorted (l : list A) : StronglySorted (Py.key_le key) (Py.sorted key l).
Proof.
  induction l; simpl; [constructor | now apply insert_asc_sorted].
Qed.

End SortedFacts.

(** ** The merge pass *)
Section MergeFacts.
Import Mask.

Lemma inside_spec (sp : interval) (i : nat) :
  inside sp i = true <-> fst sp <= i < snd sp.
Proof.
  unfold inside. rewrite andb_true_iff, Nat.leb_le, Nat.ltb_lt. tauto.
Qed.

Lemma covered_spec (l : list interval) (i : nat) :
  covered l i = true <-> exists sp, In sp l /\ fst sp <= i < snd sp.
Proof.
  unfold covered. rewrite existsb_exists.
  split; intros (sp & H1 & H2); exists sp; split; auto; now apply inside_spec.
Qed.

Lemma covered_false (l : list interval) (i : nat) :
  covered l i = false <-> forall sp, In sp l -> ~ (fst sp <= i < snd sp).
Proof.
  rewrite <- not_true_iff_false, covered_spec. split.
  - intros H sp Hin Hi. apply H. now exists sp.
  - intros H (sp & Hin & Hi). now apply (H sp).
Qed.

Lemma covered_perm (l l' : list interval) (i : nat) :
  Permutation l l' -> covered l i = covered l' i.
Proof.
  intros P. apply eq_true_iff_eq. rewrite !covered_spec.
  split; intros (sp & Hin & Hi); exists sp; split; auto.
  - now apply (Permutation_in _ P).
  - now apply (Permutation_in _ (Permutation_sym P)).
Qed.

Lemma merge_step_snoc (acc : list interval) (cur span : interval) :
  merge_step (acc ++ [cur]) span =
  if fst span <=? snd cur
  then acc ++ [(fst cur, Nat.max (snd cur) (snd span))]
  else acc ++ [cur; span].
Proof.
  unfold merge_step.
  destruct (acc ++ [cur]) eqn:E; [now destruct acc|].
  rewrite <- E, last_last, removelast_last.
  destruct (fst span <=? snd cur); [reflexivity|].
  now rewrite <- app_assoc.
Qed.

Lemma fold_merge_from (rest acc : list interval) (cur : interval) :
  fold_left merge_step rest (acc ++ [cur]) = acc ++ merge_from cur rest.
Proof.
  revert acc cur. induction rest as [|sp rest IH]; intros acc cur; simpl.
  - reflexivity.
  - rewrite merge_step_snoc. destruct (fst sp <=? snd cur).
    + apply IH.
    + change (acc ++ [cur; sp]) with (acc ++ [cur] ++ [sp]).
      rewrite app_assoc, IH, <- app_assoc. reflexivity.
Qed.

Lemma merge_spans_cons (sp : interval) (rest : list interval) :
  merge_spans (sp :: rest) = merge_from sp rest.
Proof.
  unfold merge_spans. simpl. apply (fold_merge_from rest [] sp).
Qed.

Lemma chain_weaken (lo lo' : nat) (m : list interval) :
  lo' <= lo -> chain lo m -> chain lo' m.
Proof.
  destruct m as [|sp m]; simpl; [tauto|]. intros ? (?&?&?). repeat split; auto. lia.
Qed.

Lemma chain_gap (lo : nat) (pre post : list interval) (a b : interval) :
  chain lo (pre ++ a :: b :: post) -> snd a < fst b.
Proof.
  revert lo. induction pre as [|x pre IH]; intros lo; simpl.
  - intros (_ & _ & H & _). lia.
  - intros (_ & _ & H). now apply IH in H.
Qed.

Lemma chain_after (lo : nat) (m : list interval) :
  chain lo m -> Forall (fun sp => lo <= fst sp /\ fst sp < snd sp) m.
Proof.
  revert lo. induction m as [|sp m IH]; intros lo; simpl; [constructor|].
  intros (H1 & H2 & H3). constructor; [tauto|].
  eapply Forall_impl; [|apply (IH _ H3)]. simpl. intros; lia.
Qed.

Lemma merge_from_chain (rest : list interval) (cur : interval) :
  StronglySorted starts_le (cur :: rest) ->
  Forall (fun sp => fst sp < snd sp) (cur :: rest) ->
  chain (fst cur) (merge_from cur rest).
Proof.
  revert cur. induction rest as [|sp rest IH]; intros cur Hs Hv; simpl.
  - inversion Hv; subst. repeat split; auto.
  - inversion Hs as [|? ? Hs' Hle]; subst. inversion Hle as [|? ? Hcs Hle']; subst.
    inversion Hs' as [|? ? Hs'' Hle'']; subst.
    inversion Hv as [|? ? Hc Hv']; subst. inversion Hv' as [|? ? Hsp Hv'']; subst.
    unfold starts_le, Py.key_le in *.
    destruct (fst sp <=? snd cur) eqn:E.
    + apply (IH (fst cur, Nat.max (snd cur) (snd sp))).
      * constructor; auto.
      * constructor; auto. simpl. lia.
    + apply Nat.leb_gt in E. simpl. repeat split; auto.
      apply chain_weaken with (lo := fst sp); [lia|].
      apply IH; auto.
Qed.

Lemma merge_from_covered (rest : list interval) (cur : interval) (i : nat) :
  StronglySorted starts_le (cur :: rest) ->
  Forall (fun sp => fst sp < snd sp) (cur :: rest) ->
  covered (merge_from cur rest) i = covered (cur :: rest) i.
Proof.
  revert cur. induction rest as [|sp rest IH]; intros cur Hs Hv; simpl.
  - reflexivity.
  - inversion Hs as [|? ? Hs' Hle]; subst. inversion Hle as [|? ? Hcs Hle']; subst.
    inversion Hs' as [|? ? Hs'' Hle'']; subst.
    inversion Hv as [|? ? Hc Hv']; subst. inversion Hv' as [|? ? Hsp Hv'']; subst.
    unfold starts_le, Py.key_le in *.
    destruct (fst sp <=? snd cur) eqn:E.
    + rewrite IH.
      * apply Nat.leb_le in E. simpl. rewrite orb_assoc. f_equal.
        apply eq_true_iff_eq. rewrite orb_true_iff, !inside_spec. simpl. lia.
      * constructor; auto.
      * constructor; auto. simpl. lia.
    + simpl. f_equal. now apply IH.
Qed.

Lemma merge_from_bound (n : nat) (rest : list interval) (cur : interval) :
  Forall (fun sp => snd sp <= n) (cur :: rest) ->
  Forall (fun sp => snd sp <= n) (merge_from cur rest).
Proof.
  revert cur. induction rest as [|sp rest IH]; intros cur Hv; simpl; [exact Hv|].
  inversion Hv as [|? ? Hc Hv']; subst. inversion Hv' as [|? ? Hsp Hv'']; subst.
  destruct (fst sp <=? snd cur).
  - apply IH. constructor; auto. simpl. lia.
  - constructor; auto.
Qed.

End MergeFacts.

(** ** The rebuilding loop *)
Section RebuildFacts.
Import Mask.

Variable text : str.

Lemma fold_build_rebuild (m : list interval) (masked_text : str) (last_idx : nat) :
  (let '(mt, li) := fold_left (build_step text) m (masked_text, last_idx) in
   mt ++ Py.slice_from text li) = masked_text ++ rebuild text last_idx m.
Proof.
  revert masked_text last_idx.
  induction m as [|[a b] m IH]; intros mt li; simpl; [reflexivity|].
  rewrite IH, <- !app_assoc. reflexivity.
Qed.

Lemma build_masked_rebuild (m : list interval) :
  build_masked text m = rebuild text 0 m.
Proof. unfold build_masked. apply (fold_build_rebuild m [] 0). Qed.

Lemma slice_split (i j : nat) :
  i <= j -> skipn i text = Py.slice text i j ++ skipn j text.
Proof.
  intros H. unfold Py.slice.
  replace j with ((j - i) + i) at 2 by lia.
  rewrite <- skipn_skipn. symmetry. apply firstn_skipn.
Qed.

Lemma slice_length (i j : nat) :
  i <= j -> j <= length text -> length (Py.slice text i j) = j - i.
Proof.
  intros H1 H2. unfold Py.slice.
  rewrite length_firstn, length_skipn. lia.
Qed.

Lemma mask_positions_ext (cov cov' : nat -> bool) (t : str) (i : nat) (o : bool) :
  (forall j, i <= j < i + length t -> cov j = cov' j) ->
  mask_positions cov i o t = mask_positions cov' i o t.
Proof.
  revert i o. induction t as [|c t IH]; intros i o H; simpl; [reflexivity|].
  rewrite <- (H i) by (simpl; lia).
  destruct (cov i); f_equal; apply IH; intros j Hj; apply H; simpl; lia.
Qed.

Lemma mask_positions_none (cov : nat -> bool) (t : str) (i : nat) (o : bool) :
  (forall j, i <= j < i + length t -> cov j = false) ->
  mask_positions cov i o t = t.
Proof.
  revert i o. induction t as [|c t IH]; intros i o H; simpl; [reflexivity|].
  rewrite (H i) by (simpl; lia). f_equal.
  apply IH. intros j Hj. apply H. simpl. lia.
Qed.

Lemma mask_positions_copy (cov : nat -> bool) (t t2 : str) (i : nat) :
  (forall j, i <= j < i + length t -> cov j = false) ->
  mask_positions cov i false (t ++ t2) =
  t ++ mask_positions cov (i + length t) false t2.
Proof.
  revert i. induction t as [|c t IH]; intros i H; simpl.
  - now rewrite Nat.add_0_r.
  - rewrite (H i) by (simpl; lia). f_equal.
    rewrite IH; [f_equal; f_equal; lia|].
    intros j Hj. apply H. simpl. lia.
Qed.

Lemma mask_positions_run_open (cov : nat -> bool) (t t2 : str) (i : nat) :
  (forall j, i <= j < i + length t -> cov j = true) ->
  mask_positions cov i true (t ++ t2) =
  mask_positions cov (i + length t) true t2.
Proof.
  revert i. induction t as [|c t IH]; intros i H; simpl.
  - now rewrite Nat.add_0_r.
  - rewrite (H i) by (simpl; lia). simpl.
    rewrite IH; [f_equal; lia|].
    intros j Hj. apply H. simpl. lia.
Qed.

Lemma mask_positions_run (cov : nat -> bool) (t t2 : str) (i : nat) :
  t <> [] ->
  (forall j, i <= j < i + length t -> cov j = true) ->
  mask_positions cov i false (t ++ t2) =
  MASK ++ mask_positions cov (i + length t) true t2.
Proof.
  destruct t as [|c t]; [congruence|]. intros _ H. simpl app at 1.
  cbn [mask_positions]. rewrite (H i) by (simpl; lia). f_equal.
  rewrite mask_positions_run_open; [f_equal; simpl; lia|].
  intros j Hj. apply H. simpl. lia.
Qed.

Lemma mask_positions_close (cov : nat -> bool) (t : str) (i : nat) :
  t = [] \/ cov i = false ->
  mask_positions cov i true t = mask_positions cov i false t.
Proof.
  destruct t as [|c t]; [reflexivity|]. intros [H|H]; [discriminate|].
  simpl. now rewrite H.
Qed.

Lemma rebuild_positions (m : list interval) (c : nat) :
  chain c m ->
  Forall (fun sp => snd sp <= length text) m ->
  rebuild text c m = mask_positions (covered m) c false (skipn c text).
Proof.
  revert c. induction m as [|[a b] m IH]; intros c Hc Hb.
  - simpl. symmetry. now apply mask_positions_none.
  - simpl in Hc. destruct Hc as (Hca & Hab & Hm). simpl in Hca, Hab.
    inversion Hb as [|? ? Hbl Hb']; subst. simpl in Hbl.
    pose proof (chain_after _ _ Hm) as Hafter.
    cbn [rebuild fst snd].
    rewrite (slice_split c a) by lia. rewrite (slice_split a b) by lia.
    rewrite mask_positions_copy.
    2:{ intros j Hj. rewrite slice_length in Hj by lia.
        apply covered_false. intros sp [<-|Hin]; simpl; [lia|].
        rewrite Forall_forall in Hafter. specialize (Hafter _ Hin). lia. }
    f_equal. rewrite slice_length by lia.
    replace (c + (a - c)) with a by lia.
    rewrite mask_positions_run.
    2:{ intros E. apply (f_equal (@length _)) in E.
        rewrite slice_length in E by lia. simpl in E. lia. }
    2:{ intros j Hj. rewrite slice_length in Hj by lia.
        apply covered_spec. exists (a, b). simpl. split; [auto|lia]. }
    f_equal. rewrite slice_length by lia.
    replace (a + (b - a)) with b by lia.
    rewrite mask_positions_close.
    2:{ right. apply covered_false. intros sp [<-|Hin]; simpl; [lia|].
        rewrite Forall_forall in Hafter. specialize (Hafter _ Hin). lia. }
    rewrite (IH b); [|apply chain_weaken with (lo := S b); [lia|exact Hm]|exact Hb'].
    apply mask_positions_ext. intros j Hj.
    simpl. replace (inside (a, b) j) with false; [reflexivity|].
    symmetry. apply not_true_iff_false. rewrite inside_spec. simpl. lia.
Qed.

End RebuildFacts.

Section MaskText.
Import Mask.

Lemma mask_text_chain (text : str) (spans : list interval) :
  Forall (valid_span text) spans ->
  exists m,
    merge_spans (Py.sorted fst spans) = m /\
    chain 0 m /\
    Forall (fun sp => snd sp <= length text) m /\
    (forall i, covered m i = covered spans i).
Proof.
  intros Hv. eexists. split; [reflexivity|].
  pose proof (sorted_perm _ (@fst nat nat) spans) as P.
  pose proof (sorted_sorted _ (@fst nat nat) spans) as S.
  assert (Hv' : Forall (valid_span text) (Py.sorted fst spans)).
  { eapply Permutation_Forall; [symmetry; exact P|exact Hv]. }
  destruct (Py.sorted fst spans) as [|sp l] eqn:E.
  - apply Permutation_nil in P. subst. simpl. repeat split; auto.
  - rewrite merge_spans_cons.
    assert (V1 : Forall (fun sp => fst sp < snd sp) (sp :: l)).
    { eapply Forall_impl; [|exact Hv']. unfold valid_span. tauto. }
    assert (V2 : Forall (fun sp => snd sp <= length text) (sp :: l)).
    { eapply Forall_impl; [|exact Hv']. unfold valid_span. tauto. }
    repeat split.
    + apply chain_weaken with (lo := fst sp); [lia|].
      now apply merge_from_chain.
    + now apply merge_from_bound.
    + intros i. rewrite merge_from_covered by assumption.
      now apply covered_perm.
Qed.

Lemma mask_text_positions (text : str) (spans : list interval) :
  Forall (valid_span text) spans ->
  mask_text text spans = mask_positions (covered spans) 0 false text.
Proof.
  intros Hv. destruct (mask_text_chain _ _ Hv) as (m & Em & Hc & Hb & Hcov).
  unfold mask_text. rewrite Em, build_masked_rebuild.
  rewrite rebuild_positions by assumption. simpl.
  apply mask_positions_ext. intros; apply Hcov.
Qed.

End MaskText.

(** ** The collecting loops *)
Section CollectFacts.
Import SpaCy Anonimizador.

Variable doc : Doc.
Variable txt0 : str.

Lemma ent_loop (l : list Span) (st : Lists) :
  let st' := fold_left (ent_step txt0) l st in
  let r := filter (fun ent => str_in (label_ ent) linguistic_labels) l in
  spans st' = spans st ++ map interval_of r /\
  entities_found st' = entities_found st ++ map (entity_of txt0) r /\
  new_ents st' = new_ents st.
Proof.
  revert st. induction l as [|ent l IH]; intros st; cbn [fold_left filter].
  - simpl. now rewrite !app_nil_r.
  - destruct (IH (ent_step txt0 st ent)) as (H1 & H2 & H3).
    cbv zeta. rewrite H1, H2, H3. unfold ent_step.
    destruct (str_in (label_ ent) linguistic_labels);
      cbn [spans entities_found new_ents map];
      rewrite <- ?app_assoc; auto.
Qed.

Lemma match_loop (item : Rule) (ms : list (nat * nat)) (st : Lists) :
  let st' := fold_left (match_step doc txt0 item) ms st in
  let r := flat_map (contribution doc item) ms in
  spans st' = spans st ++ map interval_of r /\
  entities_found st' = entities_found st ++ map (entity_of txt0) r /\
  new_ents st' = new_ents st ++ r.
Proof.
  revert st. induction ms as [|m ms IH]; intros st; cbn [fold_left flat_map].
  - simpl. now rewrite !app_nil_r.
  - destruct (IH (match_step doc txt0 item st m)) as (H1 & H2 & H3).
    cbv zeta. rewrite H1, H2, H3. unfold match_step, contribution.
    destruct (char_span doc (fst m) (snd m) (rule_label item));
      cbn [spans entities_found new_ents map app];
      rewrite <- ?app_assoc; auto.
Qed.

Lemma rule_loop (rules : list Rule) (st : Lists) :
  let st' := fold_left (rule_step doc txt0) rules st in
  let r := flat_map (kept doc txt0) rules in
  spans st' = spans st ++ map interval_of r /\
  entities_found st' = entities_found st ++ map (entity_of txt0) r /\
  new_ents st' = new_ents st ++ r.
Proof.
  revert st. induction rules as [|item rules IH]; intros st; cbn [fold_left flat_map].
  - simpl. now rewrite !app_nil_r.
  - destruct (IH (rule_step doc txt0 st item)) as (H1 & H2 & H3).
    cbv zeta. rewrite H1, H2, H3. unfold rule_step.
    destruct (match_loop item (Re.finditer (pattern item) txt0 Re.IGNORECASE) st)
      as (G1 & G2 & G3).
    rewrite G1, G2, G3. fold (kept doc txt0 item).
    rewrite !map_app, <- !app_assoc. auto.
Qed.

Lemma collect_spec :
  spans (collect doc txt0) = map interval_of (raw doc txt0) /\
  entities_found (collect doc txt0) = map (entity_of txt0) (raw doc txt0) /\
  new_ents (collect doc txt0) = candidates doc txt0.
Proof.
  unfold collect, raw, candidates.
  destruct (ent_loop (ents doc) (mkLists [] [] [])) as (E1 & E2 & _).
  match goal with |- context [fold_left (rule_step doc txt0) patterns ?st] =>
    destruct (rule_loop patterns st) as (H1 & H2 & H3) end.
  cbv zeta in *. rewrite H1, H2, H3.
  cbn [spans entities_found new_ents] in *. rewrite E1, E2.
  cbn [spans entities_found new_ents app]. unfold reported.
  rewrite !map_app. auto.
Qed.

End CollectFacts.

Section ResultFacts.
Import SpaCy Anonimizador.

Variable nlp : str -> Doc.
Variable txt0 : str.

Lemma masked_spec :
  masked_of (mask_entities_and_contacts nlp txt0) =
  Mask.mask_text txt0 (map interval_of (raw (nlp txt0) txt0)).
Proof.
  unfold mask_entities_and_contacts, masked_of. simpl.
  now destruct (collect_spec (nlp txt0) txt0) as (-> & _).
Qed.

Lemma report_spec :
  report_of (mask_entities_and_contacts nlp txt0) =
  map (entity_of txt0) (raw (nlp txt0) txt0).
Proof.
  unfold mask_entities_and_contacts, report_of. simpl.
  now destruct (collect_spec (nlp txt0) txt0) as (_ & -> & _).
Qed.

Lemma doc_spec :
  doc_of (mask_entities_and_contacts nlp txt0) =
  set_ents (nlp txt0)
           (filter_spans (tokens (nlp txt0)) (candidates (nlp txt0) txt0)).
Proof.
  unfold mask_entities_and_contacts, doc_of. simpl.
  now destruct (collect_spec (nlp txt0) txt0) as (_ & _ & ->).
Qed.

End ResultFacts.

(** ** The descending stable sort *)
Section SortedReverseFacts.
Variable A : Type.
Variable key : A -> nat.

Lemma insert_desc_perm (x : A) (l : list A) :
  Permutation (Py.insert_desc key x l) (x :: l).
Proof.
  induction l as [|y l IH]; simpl; [reflexivity|].
  destruct (key y <=? key x); [reflexivity|].
  rewrite IH. apply perm_swap.
Qed.

Lemma sorted_reverse_perm (l : list A) : Permutation (Py.sorted_reverse key l) l.
Proof.
  induction l as [|x l IH]; simpl; [constructor|].
  rewrite insert_desc_perm. now constructor.
Qed.

Lemma insert_desc_sorted (x : A) (l : list A) :
  StronglySorted (Py.key_ge key) l -> StronglySorted (Py.key_ge key) (Py.insert_desc key x l).
Proof.
  induction 1 as [|y l Hl IH Hy]; simpl.
  - repeat constructor.
  - destruct (key y <=? key x) eqn:E.
    + apply Nat.leb_le in E. constructor; [now constructor|].
      constructor; [exact E|].
      eapply Forall_impl; [|exact Hy]. unfold Py.key_ge. intros; lia.
    + apply Nat.leb_gt in E. constructor; [exact IH|].
      eapply Permutation_Forall; [symmetry; apply insert_desc_perm|].
      constructor; [unfold Py.key_ge; lia | exact Hy].
Qed.

Lemma sorted_reverse_sorted (l : list A) :
  StronglySorted (Py.key_ge key) (Py.sorted_reverse key l).
Proof.
  induction l; simpl; [constructor | now apply insert_desc_sorted].
Qed.

(** Stability: elements with the same key keep their original order. *)
Lemma insert_desc_stable (n : nat) (x : A) (l : list A) :
  filter (fun y => key y =? n) (Py.insert_desc key x l) =
  filter (fun y => key y =? n) (x :: l).
Proof.
  induction l as [|y l IH]; [reflexivity|].
  cbn [Py.insert_desc]. destruct (key y <=? key x) eqn:E; [reflexivity|].
  apply Nat.leb_gt in E. cbn [filter] in *. rewrite IH.
  destruct (key x =? n) eqn:Ex; [|reflexivity].
  apply Nat.eqb_eq in Ex.
  replace (key y =? n) with false; [reflexivity|].
  symmetry. apply Nat.eqb_neq. lia.
Qed.

Lemma sorted_reverse_stable (n : nat) (l : list A) :
  filter (fun y => key y =? n) (Py.sorted_reverse key l) =
  filter (fun y => key y =? n) l.
Proof.
  induction l as [|x l IH]; [reflexivity|].
  cbn [Py.sorted_reverse fold_right]. rewrite insert_desc_stable.
  cbn [filter]. fold (Py.sorted_reverse key l). now rewrite IH.
Qed.

End SortedReverseFacts.

(** ** The descending stable sort on keys of any type *)
Section SortedReverseByFacts.
Variables A K : Type.
Variable key : A -> K.
Variable le : K -> K -> bool.
Hypothesis le_total : forall a b, le a b = false -> le b a = true.
Hypothesis le_trans :
  forall a b c, le a b = true -> le b c = true -> le a c = true.

Lemma insert_desc_by_perm (x : A) (l : list A) :
  Permutation (Py.insert_desc_by key le x l) (x :: l).
Proof.
  induction l as [|y l IH]; simpl; [reflexivity|].
  destruct (le (key y) (key x)); [reflexivity|].
  rewrite IH. apply perm_swap.
Qed.

Lemma sorted_reverse_by_perm (l : list A) :
  Permutation (Py.sorted_reverse_by key le l) l.
Proof.
  induction l as [|x l IH]; simpl; [constructor|].
  rewrite insert_desc_by_perm. now constructor.
Qed.

Lemma insert_desc_by_sorted (x : A) (l : list A) :
  StronglySorted (fun a b => le (key b) (key a) = true) l ->
  StronglySorted (fun a b => le (key b) (key a) = true)
                 (Py.insert_desc_by key le x l).
Proof.
  induction 1 as [|y l Hl IH Hy]; simpl.
  - repeat constructor.
  - destruct (le (key y) (key x)) eqn:E.
    + constructor; [now constructor|].
      constructor; [exact E|].
      eapply Forall_impl; [|exact Hy]. cbv beta. intros z Hz.
      now apply (le_trans _ (key y)).
    + constructor; [exact IH|].
      eapply Permutation_Forall; [symmetry; apply insert_desc_by_perm|].
      constructor; [now apply le_total | exact Hy].
Qed.

Lemma sorted_reverse_by_sorted (l : list A) :
  StronglySorted (fun a b => le (key b) (key a) = true)
                 (Py.sorted_reverse_by key le l).
Proof.
  induction l; simpl; [constructor | now apply insert_desc_by_sorted].
Qed.

(** Stability: the elements of a class whose keys are below each other
    keep their original order. *)
Section Stable.
Variable p : A -> bool.
Hypothesis p_le :
  forall x y, p x = true -> p y = true -> le (key y) (key x) = true.

Lemma insert_desc_by_stable (x : A) (l : list A) :
  filter p (Py.insert_desc_by key le x l) = filter p (x :: l).
Proof.
  induction l as [|y l IH]; [reflexivity|].
  cbn [Py.insert_desc_by]. destruct (le (key y) (key x)) eqn:E; [reflexivity|].
  cbn [filter] in *. rewrite IH.
  destruct (p x) eqn:Ex; [|reflexivity].
  destruct (p y) eqn:Ey; [|reflexivity].
  rewrite (p_le x y Ex Ey) in E. discriminate.
Qed.

Lemma sorted_reverse_by_stable (l : list A) :
  filter p (Py.sorted_reverse_by key le l) = filter p l.
Proof.
  induction l as [|x l IH]; [reflexivity|].
  cbn [Py.sorted_reverse_by fold_right]. rewrite insert_desc_by_stable.
  cbn [filter]. fold (Py.sorted_reverse_by key le l). now rewrite IH.
Qed.

End Stable.

End SortedReverseByFacts.

(** ** Weaker relations *)
Section Weaken.
Variable A : Type.
Variables R R' : A -> A -> Prop.
Hypothesis R_R' : forall a b, R a b -> R' a b.

Lemma StronglySorted_weaken (l : list A) :
  StronglySorted R l -> StronglySorted R' l.
Proof.
  induction 1 as [|x l Hl IH Hx]; constructor; [exact IH|].
  eapply Forall_impl; [|exact Hx]. apply R_R'.
Qed.

Lemma ForallOrdPairs_weaken (l : list A) :
  ForallOrdPairs R l -> ForallOrdPairs R' l.
Proof.
  induction 1 as [|x l Hx Hl IH]; constructor; [|exact IH].
  eapply Forall_impl; [|exact Hx]. apply R_R'.
Qed.

End Weaken.

(** ** The order on tuples *)
Section TupleFacts.
Open Scope Z_scope.

Lemma tuple_leb_spec (k1 k2 : Z * Z) :
  Py.tuple_leb k1 k2 = true <->
  fst k1 < fst k2 \/ (fst k1 = fst k2 /\ snd k1 <= snd k2).
Proof.
  unfold Py.tuple_leb.
  rewrite orb_true_iff, andb_true_iff, Z.ltb_lt, Z.eqb_eq, Z.leb_le.
  reflexivity.
Qed.

Lemma tuple_leb_total (k1 k2 : Z * Z) :
  Py.tuple_leb k1 k2 = false -> Py.tuple_leb k2 k1 = true.
Proof.
  intros H. apply tuple_leb_spec.
  destruct (Py.tuple_leb k1 k2) eqn:E; [discriminate|].
  assert (N : ~ (fst k1 < fst k2 \/ (fst k1 = fst k2 /\ snd k1 <= snd k2))).
  { intros C. apply tuple_leb_spec in C. congruence. }
  lia.
Qed.

Lemma tuple_leb_trans (k1 k2 k3 : Z * Z) :
  Py.tuple_leb k1 k2 = true -> Py.tuple_leb k2 k3 = true ->
  Py.tuple_leb k1 k3 = true.
Proof. rewrite !tuple_leb_spec. lia. Qed.

End TupleFacts.

(** ** The greedy pass of [filter_spans] *)
Section FilterSpansFacts.
Import SpaCy.

Lemma overlaps_sym (a b : Span) : overlaps a b = overlaps b a.
Proof. unfold overlaps. apply andb_comm. Qed.

Lemma accept_snoc (pre : list Span) (c : Span) (acc : list Span) :
  fold_left accept (pre ++ [c]) acc =
  let accepted := fold_left accept pre acc in
  if existsb (overlaps c) accepted then accepted else accepted ++ [c].
Proof. rewrite fold_left_app. reflexivity. Qed.

Lemma accept_grows (l acc : list Span) :
  exists more, fold_left accept l acc = acc ++ more /\ incl more l.
Proof.
  revert acc. induction l as [|c l IH]; intros acc; simpl.
  - exists []. split; [now rewrite app_nil_r | easy].
  - destruct (IH (accept acc c)) as (more & E & Hi). rewrite E.
    unfold accept. destruct (existsb (overlaps c) acc).
    + exists more. split; [reflexivity | now apply incl_tl].
    + exists (c :: more). rewrite <- app_assoc. split; [reflexivity|].
      intros x [<-|Hx]; [now left | right; now apply Hi].
Qed.

Lemma overlaps_spec (a b : Span) :
  overlaps a b = true <-> share_char a b.
Proof.
  unfold overlaps, share_char.
  now rewrite andb_true_iff, !Nat.ltb_lt.
Qed.

Lemma disjoint_spec (a b : Span) :
  disjoint a b <->
  end_char a <= start_char b \/ end_char b <= start_char a.
Proof.
  unfold disjoint, overlaps.
  rewrite andb_false_iff, !Nat.ltb_ge. tauto.
Qed.

Lemma goes_first_spec (tks : list (nat * nat)) (a b : Span) :
  Py.tuple_leb (get_sort_key tks b) (get_sort_key tks a) = true <->
  goes_first tks a b.
Proof.
  rewrite tuple_leb_spec. unfold goes_first, get_sort_key. cbn [fst snd].
  lia.
Qed.

Lemma sort_order_perm (tks : list (nat * nat)) (l : list Span) :
  Permutation (Py.sorted_reverse_by (get_sort_key tks) Py.tuple_leb l) l.
Proof. apply sorted_reverse_by_perm. Qed.

Lemma sort_order_sorted (tks : list (nat * nat)) (l : list Span) :
  StronglySorted (goes_first tks)
    (Py.sorted_reverse_by (get_sort_key tks) Py.tuple_leb l).
Proof.
  eapply StronglySorted_weaken;
    [|apply sorted_reverse_by_sorted;
      [apply tuple_leb_total | apply tuple_leb_trans]].
  intros a b H. now apply goes_first_spec.
Qed.

Lemma sort_order_stable (tks : list (nat * nat)) (k : Z * Z) (l : list Span) :
  filter (has_key tks k)
         (Py.sorted_reverse_by (get_sort_key tks) Py.tuple_leb l)
  = filter (has_key tks k) l.
Proof.
  apply sorted_reverse_by_stable. intros x y Hx Hy.
  unfold has_key in Hx, Hy.
  apply andb_true_iff in Hx, Hy. destruct Hx as (X1 & X2), Hy as (Y1 & Y2).
  apply Z.eqb_eq in X1, X2, Y1, Y2.
  apply tuple_leb_spec. lia.
Qed.

Lemma filter_spans_perm (tks : list (nat * nat)) (l : list Span) :
  Permutation
    (filter_spans tks l)
    (fold_left accept
       (Py.sorted_reverse_by (get_sort_key tks) Py.tuple_leb l) []).
Proof. unfold filter_spans. apply sorted_perm. Qed.

Lemma filter_spans_incl (tks : list (nat * nat)) (l : list Span) :
  incl (filter_spans tks l) l.
Proof.
  intros x Hx.
  apply (Permutation_in _ (filter_spans_perm tks l)) in Hx.
  destruct (accept_grows
              (Py.sorted_reverse_by (get_sort_key tks) Py.tuple_leb l) [])
    as (more & E & Hi).
  rewrite E in Hx. simpl in Hx. apply Hi in Hx.
  now apply (Permutation_in _ (sort_order_perm tks l)).
Qed.

Lemma filter_spans_sorted (tks : list (nat * nat)) (l : list Span) :
  StronglySorted (fun a b => token_start tks a <= token_start tks b)
                 (filter_spans tks l).
Proof. unfold filter_spans. apply sorted_sorted. Qed.

Lemma ForallOrdPairs_snoc (A : Type) (R : A -> A -> Prop) (l : list A) (x : A) :
  ForallOrdPairs R l -> Forall (fun a => R a x) l -> ForallOrdPairs R (l ++ [x]).
Proof.
  induction 1 as [|a l Ha Hl IH]; intros Hx; simpl.
  - repeat constructor.
  - inversion Hx; subst. constructor; [|now apply IH].
    apply Forall_app. split; [exact Ha | now constructor].
Qed.

Lemma accept_disjoint (l acc : list Span) :
  ForallOrdPairs disjoint acc -> ForallOrdPairs disjoint (fold_left accept l acc).
Proof.
  revert acc. induction l as [|c l IH]; intros acc H; simpl; [exact H|].
  apply IH. unfold accept. destruct (existsb (overlaps c) acc) eqn:E; [exact H|].
  apply ForallOrdPairs_snoc; [exact H|].
  apply Forall_forall. intros a Ha. unfold disjoint. rewrite overlaps_sym.
  destruct (overlaps c a) eqn:O; [|reflexivity].
  assert (existsb (overlaps c) acc = true) by (apply existsb_exists; eauto).
  congruence.
Qed.

Lemma ForallOrdPairs_perm (A : Type) (R : A -> A -> Prop) (l l' : list A) :
  (forall a b, R a b -> R b a) ->
  Permutation l l' -> ForallOrdPairs R l -> ForallOrdPairs R l'.
Proof.
  intros Sym P. induction P as [|x l l' P IH|x y l|l l' l'' P1 IH1 P2 IH2];
    intros H.
  - exact H.
  - inversion H as [|? ? F H']; subst. constructor; [|now apply IH].
    now apply (Permutation_Forall P).
  - inversion H as [|? ? Fy Hx]; subst.
    inversion Hx as [|? ? Fx Hl]; subst.
    inversion Fy as [|? ? Ryx Fy']; subst.
    constructor; [constructor; [now apply Sym | exact Fx]|].
    now constructor.
  - auto.
Qed.

Lemma disjoint_sym (a b : Span) : disjoint a b -> disjoint b a.
Proof. unfold disjoint. now rewrite overlaps_sym. Qed.

Lemma filter_spans_disjoint (tks : list (nat * nat)) (l : list Span) :
  ForallOrdPairs disjoint (filter_spans tks l).
Proof.
  apply (ForallOrdPairs_perm _ _ _ _ disjoint_sym
           (Permutation_sym (filter_spans_perm tks l))).
  apply accept_disjoint. constructor.
Qed.

(** A candidate is accepted, or it overlaps a candidate processed and
    accepted before it. *)
Lemma accept_or_blocked (pre post : list Span) (c : Span) :
  let result := fold_left accept (pre ++ c :: post) [] in
  In c result \/
  exists a, In a pre /\ In a result /\ overlaps c a = true.
Proof.
  cbv zeta. rewrite fold_left_app. cbn [fold_left].
  destruct (accept_grows pre []) as (m1 & E1 & I1). simpl in E1. rewrite E1.
  destruct (accept_grows post (accept m1 c)) as (m2 & E2 & I2). rewrite E2.
  unfold accept. destruct (existsb (overlaps c) m1) eqn:E.
  - right. apply existsb_exists in E. destruct E as (a & Ha & Hov).
    exists a. repeat split; auto. apply in_or_app. now left.
  - left. apply in_or_app. left. apply in_or_app. right. now left.
Qed.

(** A candidate is kept, or it shares a character with a kept span
    that was taken before it. *)
Lemma filter_spans_first_wins (tks : list (nat * nat)) (l : list Span)
    (c : Span) :
  In c l ->
  In c (filter_spans tks l) \/
  exists a, In a (filter_spans tks l) /\ overlaps c a = true /\
            goes_first tks a c.
Proof.
  intros Hc.
  pose proof (sort_order_perm tks l) as P.
  pose proof (sort_order_sorted tks l) as S.
  pose proof (filter_spans_perm tks l) as R.
  apply (Permutation_in _ (Permutation_sym P)) in Hc.
  apply in_split in Hc. destruct Hc as (pre & post & E).
  rewrite E in *.
  destruct (accept_or_blocked pre post c) as [H|(a & Ha & Hr & Hov)].
  - left. now apply (Permutation_in _ (Permutation_sym R)).
  - right. exists a. split; [now apply (Permutation_in _ (Permutation_sym R))|].
    split; [exact Hov|].
    clear - S Ha. induction pre as [|x pre IH]; [easy|].
    simpl in S. inversion S as [|? ? S' F]; subst.
    destruct Ha as [->|Ha]; [|now apply IH].
    rewrite Forall_forall in F. apply F. apply in_or_app. right. now left.
Qed.

(** The reading of section 4.3: the candidates in descending order of
    their length in characters. *)
Lemma reconcile_as_stated_order (l : list Span) :
  Permutation (Py.sorted_reverse span_len l) l /\
  StronglySorted (fun a b => span_len b <= span_len a)
                 (Py.sorted_reverse span_len l) /\
  forall n, filter (fun c => span_len c =? n) (Py.sorted_reverse span_len l)
            = filter (fun c => span_len c =? n) l.
Proof.
  split; [apply sorted_reverse_perm|].
  split; [apply sorted_reverse_sorted|].
  intros n. apply sorted_reverse_stable.
Qed.

End FilterSpansFacts.

(** ** The matcher and the meaning of a pattern *)
Section MatcherFacts.
Import Re.

Variable fl : flag.
Variable t : str.

Lemma countdown_In (hi lo k : nat) : In k (countdown hi lo) <-> lo <= k <= hi.
Proof.
  unfold countdown. rewrite <- in_rev, in_seq. lia.
Qed.

Lemma run_spec (cs : list item) (i k : nat) :
  k <= run fl cs (skipn i t) <-> (forall m, i <= m < i + k -> in_set fl cs t m).
Proof.
  unfold in_set. revert i. induction k as [|k IH]; intros i.
  - split; [intros _ m Hm; lia | lia].
  - destruct (skipn i t) as [|x l] eqn:E.
    + simpl. split; [lia|]. intros H. exfalso.
      destruct (H i) as (x & Hx & _); [lia|].
      assert (nth_error t i = nth_error (skipn i t) 0)
        by (rewrite nth_error_skipn; f_equal; lia).
      rewrite E in *. simpl in *. congruence.
    + assert (Hx : nth_error t i = Some x).
      { replace i with (i + 0) by lia. rewrite <- nth_error_skipn, E. reflexivity. }
      assert (El : skipn (S i) t = l).
      { replace (S i) with (1 + i) by lia. rewrite <- skipn_skipn, E. reflexivity. }
      simpl. destruct (mem fl cs x) eqn:M.
      * rewrite <- Nat.succ_le_mono, <- El, IH. split.
        -- intros H m Hm. destruct (Nat.eq_dec m i) as [->|].
           ++ eauto.
           ++ apply H. lia.
        -- intros H m Hm. apply H. lia.
      * split; [lia|]. intros H.
        destruct (H i) as (y & Hy & My); [lia|]. congruence.
Qed.

Lemma ends_spec (r : regex) (i j : nat) :
  In j (ends fl r t i) <-> matches fl t r i j.
Proof.
  revert i j. induction r as [|c|cs| |r1 IH1 r2 IH2|r IH|cs lo hi]; intros i j; simpl.
  - intuition.
  - destruct (nth_error t i) as [x|]; [destruct (lit_eq fl c x) eqn:E|]; simpl.
    + split; [intros [<-|[]]; eauto | intros (y & _ & _ & ->); now left].
    + split; [tauto | intros (y & Hy & My & _); congruence].
    + split; [tauto | intros (y & Hy & _); discriminate].
  - unfold in_set.
    destruct (nth_error t i) as [x|]; [destruct (mem fl cs x) eqn:E|]; simpl.
    + split; [intros [<-|[]]; eauto | intros (_ & ->); now left].
    + split; [tauto | intros ((y & Hy & My) & _); congruence].
    + split; [tauto | intros ((y & Hy & _) & _); discriminate].
  - destruct (at_boundary t i); simpl; intuition congruence.
  - rewrite in_flat_map. split.
    + intros (k & H1 & H2). exists k. split; [now apply IH1 | now apply IH2].
    + intros (k & H1 & H2). exists k. split; [now apply IH1 | now apply IH2].
  - rewrite in_app_iff, IH. simpl. intuition.
  - rewrite in_map_iff. split.
    + intros (k & <- & Hk). apply countdown_In in Hk. destruct Hk as [Hlo Hhi].
      assert (Hrun : k <= run fl cs (skipn i t)) by (destruct hi; lia).
      repeat split; try lia.
      * destruct hi; [lia | exact I].
      * apply run_spec. exact Hrun.
    + intros (Hij & Hlo & Hhi & Hall). exists (j - i). split; [lia|].
      apply countdown_In. split; [exact Hlo|].
      assert (Hrun : j - i <= run fl cs (skipn i t)).
      { apply run_spec. intros m Hm. apply Hall. lia. }
      destruct hi; lia.
Qed.

Lemma match_at_Some (r : regex) (pos e : nat) :
  match_at fl r t pos = Some e -> matches fl t r pos e.
Proof.
  unfold match_at. intros H. apply ends_spec.
  destruct (ends fl r t pos); [discriminate|]. injection H as ->. now left.
Qed.

Lemma match_at_None (r : regex) (pos : nat) :
  match_at fl r t pos = None -> forall j, ~ matches fl t r pos j.
Proof.
  unfold match_at. intros H j Hj. apply ends_spec in Hj.
  destruct (ends fl r t pos); [easy | discriminate].
Qed.

(** A match moves forward and, when it is not empty, stays in the text. *)
Lemma matches_range (r : regex) (i j : nat) :
  matches fl t r i j -> i <= j /\ (i < j -> j <= length t).
Proof.
  revert i j. induction r as [|c|cs| |r1 IH1 r2 IH2|r IH|cs lo hi]; intros i j; simpl.
  - lia.
  - intros (x & Hx & _ & ->). split; [lia|]. intros _.
    apply Nat.le_succ_l. apply nth_error_Some. congruence.
  - intros ((x & Hx & _) & ->). split; [lia|]. intros _.
    apply Nat.le_succ_l. apply nth_error_Some. congruence.
  - lia.
  - intros (k & H1 & H2). apply IH1 in H1. apply IH2 in H2. lia.
  - intros [H| ->]; [now apply IH | lia].
  - intros (Hij & _ & _ & Hall). split; [exact Hij|]. intros Hlt.
    destruct (Hall (j - 1)) as (x & Hx & _); [lia|].
    assert (j - 1 < length t) by (apply nth_error_Some; congruence). lia.
Qed.

Lemma matches_min_len (r : regex) (i j : nat) :
  matches fl t r i j -> i + min_len r <= j.
Proof.
  revert i j. induction r as [|c|cs| |r1 IH1 r2 IH2|r IH|cs lo hi]; intros i j; simpl.
  - lia.
  - intros (x & _ & _ & ->). lia.
  - intros (_ & ->). lia.
  - lia.
  - intros (k & H1 & H2). apply IH1 in H1. apply IH2 in H2. lia.
  - intros [H| ->]; [|lia]. apply matches_range in H. lia.
  - lia.
Qed.

End MatcherFacts.

(** ** Properties read off a pattern *)
Section StaticFacts.
Import Re.

Variable fl : flag.
Variable t : str.

Lemma fixed_len_spec (r : regex) (n i j : nat) :
  fixed_len r = Some n -> matches fl t r i j -> j = i + n.
Proof.
  revert n i j. induction r as [|c|cs| |r1 IH1 r2 IH2|r IH|cs lo hi];
    intros n i j; simpl.
  - intros [= <-] ->. lia.
  - intros [= <-] (x & _ & _ & ->). lia.
  - intros [= <-] (_ & ->). lia.
  - intros [= <-] (_ & ->). lia.
  - destruct (fixed_len r1) as [n1|]; [|discriminate].
    destruct (fixed_len r2) as [n2|]; [|discriminate].
    intros [= <-] (k & H1 & H2).
    apply (IH1 _ _ _ eq_refl) in H1. apply (IH2 _ _ _ eq_refl) in H2. lia.
  - discriminate.
  - destruct hi as [h|]; [|discriminate].
    destruct (lo =? h) eqn:E; [|discriminate]. apply Nat.eqb_eq in E.
    intros [= <-] (? & ? & ? & _). lia.
Qed.

Lemma no_char_spec (c : ascii) (r : regex) (i j : nat) :
  no_char fl c r = true -> matches fl t r i j ->
  forall m, i <= m < j -> nth_error t m <> Some c.
Proof.
  revert i j. induction r as [|x|cs| |r1 IH1 r2 IH2|r IH|cs lo hi];
    intros i j; simpl.
  - intros _ ->. lia.
  - intros N (y & Hy & My & ->) m Hm E. assert (m = i) by lia. subst.
    rewrite Hy in E. injection E as ->. rewrite My in N. discriminate.
  - intros N ((y & Hy & My) & ->) m Hm E. assert (m = i) by lia. subst.
    rewrite Hy in E. injection E as ->. rewrite My in N. discriminate.
  - intros _ (_ & ->). lia.
  - intros N (k & H1 & H2) m Hm. apply andb_true_iff in N. destruct N as [N1 N2].
    destruct (Nat.lt_ge_cases m k).
    + apply (IH1 _ _ N1 H1 m). lia.
    + apply (IH2 _ _ N2 H2 m). lia.
  - intros N [H| ->]; [now apply IH | lia].
  - intros N (_ & _ & _ & Hall) m Hm E.
    destruct (Hall m Hm) as (y & Hy & My). rewrite Hy in E. injection E as ->.
    rewrite My in N. discriminate.
Qed.

Lemma all_ascii_In (y : ascii) : In y all_ascii.
Proof.
  unfold all_ascii. apply in_map_iff. exists (nat_of_ascii y).
  split; [apply ascii_nat_embedding|]. apply in_seq.
  pose proof (nat_ascii_bounded y). lia.
Qed.

Lemma uncased_spec (c y : ascii) :
  uncased fl c = true -> lit_eq fl c y = true -> y = c.
Proof.
  unfold uncased. rewrite forallb_forall. intros H L.
  specialize (H y (all_ascii_In y)). rewrite L in H. simpl in H.
  now apply Ascii.eqb_eq.
Qed.

Lemma first_at_unique (c : ascii) (i m m' : nat) :
  first_at t c i m -> first_at t c i m' -> m = m'.
Proof.
  intros (H1 & H2 & H3) (G1 & G2 & G3).
  destruct (Nat.lt_trichotomy m m') as [L|[E|L]]; [|exact E|].
  - exfalso. apply (G3 m); [lia | exact H2].
  - exfalso. apply (H3 m'); [lia | exact G2].
Qed.

Lemma anchor_spec (c : ascii) (r : regex) (n i j : nat) :
  anchor fl c r = Some n -> matches fl t r i j ->
  exists m, first_at t c i m /\ j = m + 1 + n.
Proof.
  revert n i j. induction r as [|x|cs| |r1 IH1 r2 IH2|r IH|cs lo hi];
    intros n i j; simpl; try discriminate.
  - destruct (Ascii.eqb x c && uncased fl c) eqn:E; [|discriminate].
    apply andb_true_iff in E. destruct E as [E U]. apply Ascii.eqb_eq in E. subst x.
    intros [= <-] (y & Hy & My & ->).
    apply (uncased_spec _ _ U) in My. subst y.
    exists i. split; [|lia]. repeat split; auto. intros; lia.
  - destruct (no_char fl c r1) eqn:N.
    + intros A (k & H1 & H2).
      destruct (IH2 _ _ _ A H2) as (m & (F1 & F2 & F3) & ->).
      pose proof (matches_range _ _ _ _ _ H1) as [Hik _].
      exists m. split; [|reflexivity]. repeat split; auto; [lia|].
      intros m' Hm'. destruct (Nat.lt_ge_cases m' k).
      * apply (no_char_spec _ _ _ _ N H1). lia.
      * apply F3. lia.
    + destruct (anchor fl c r1) as [n1|]; [|discriminate].
      destruct (fixed_len r2) as [k2|] eqn:F; [|discriminate].
      intros [= <-] (k & H1 & H2).
      destruct (IH1 _ _ _ eq_refl H1) as (m & Hm & ->).
      apply (fixed_len_spec _ _ _ _ F) in H2. exists m. split; [exact Hm | lia].
Qed.

Lemma anchor_unique (c : ascii) (r : regex) (n i j j' : nat) :
  anchor fl c r = Some n ->
  matches fl t r i j -> matches fl t r i j' -> j = j'.
Proof.
  intros A H H'.
  destruct (anchor_spec _ _ _ _ _ A H) as (m & Fm & ->).
  destruct (anchor_spec _ _ _ _ _ A H') as (m' & Fm' & ->).
  now rewrite (first_at_unique _ _ _ _ Fm Fm').
Qed.

(** When all matches from an offset end at the same place, the first one
    tried is the longest. *)
Lemma unique_first_is_max (r : regex) (i : nat) :
  (forall j j', matches fl t r i j -> matches fl t r i j' -> j = j') ->
  first_is_max (ends fl r t i).
Proof.
  intros U. unfold first_is_max.
  destruct (ends fl r t i) as [|e rest] eqn:E; [exact I|].
  apply Forall_forall. intros j Hj.
  assert (j = e); [|lia].
  apply U; apply ends_spec; rewrite E; [now right | now left].
Qed.

End StaticFacts.

(** ** The scan of [finditer] *)
Section ScanFacts.
Import Re.

Variable fl : flag.
Variable r : regex.
Variable t : str.

Hypothesis nonempty : 0 < min_len r.
Hypothesis longest : forall i, first_is_max (ends fl r t i).

Lemma no_match_outside (i j : nat) : length t < i -> ~ matches fl t r i j.
Proof.
  intros Hi H. pose proof (matches_min_len _ _ _ _ _ H).
  pose proof (matches_range _ _ _ _ _ H) as [_ Hr]. lia.
Qed.

Lemma leftmost_longest_skip (pos : nat) (ms : list (nat * nat)) :
  (forall j, ~ matches fl t r pos j) ->
  leftmost_longest fl r t (S pos) ms -> leftmost_longest fl r t pos ms.
Proof.
  intros Hn. destruct ms as [|[a b] ms]; simpl.
  - intros H i j Hi. destruct (Nat.eq_dec i pos) as [->|]; [apply Hn|].
    apply H. lia.
  - intros (H1 & H2 & H3 & H4 & H5 & H6). repeat split; auto; [lia|].
    intros i j Hi. destruct (Nat.eq_dec i pos) as [->|]; [apply Hn|].
    apply H4. lia.
Qed.

Lemma scan_leftmost_longest (fuel pos : nat) :
  length t + 1 <= pos + fuel ->
  leftmost_longest fl r t pos (scan fl r t fuel pos).
Proof.
  revert pos. induction fuel as [|fuel IH]; intros pos Hf; simpl.
  - intros i j Hi. apply no_match_outside. lia.
  - destruct (length t <? pos) eqn:E.
    + apply Nat.ltb_lt in E. simpl. intros i j Hi. apply no_match_outside. lia.
    + apply Nat.ltb_ge in E.
      destruct (match_at fl r t pos) as [e|] eqn:M.
      * pose proof (match_at_Some _ _ _ _ _ M) as Hm.
        pose proof (matches_min_len _ _ _ _ _ Hm).
        replace (Nat.max e (S pos)) with e by lia.
        simpl. repeat split; auto; try lia.
        -- intros j Hj. apply ends_spec in Hj.
           specialize (longest pos). unfold match_at in M.
           destruct (ends fl r t pos) as [|e' rest]; [discriminate|].
           injection M as ->. destruct Hj as [->|Hj]; [lia|].
           simpl in longest. rewrite Forall_forall in longest. now apply longest.
        -- apply IH. lia.
      * apply leftmost_longest_skip; [now apply match_at_None|].
        apply IH. lia.
Qed.

Lemma finditer_leftmost_longest :
  leftmost_longest fl r t 0 (finditer r t fl).
Proof. unfold finditer. apply scan_leftmost_longest. lia. Qed.

End ScanFacts.

(** A leftmost-longest scan has one result. *)
Section ScanUnique.
Import Re.

Variable fl : flag.
Variable r : regex.
Variable t : str.

Lemma leftmost_longest_unique (ms ms' : list (nat * nat)) (pos : nat) :
  leftmost_longest fl r t pos ms -> leftmost_longest fl r t pos ms' -> ms = ms'.
Proof.
  revert ms' pos. induction ms as [|[a b] ms IH]; intros [|[a' b'] ms'] pos; simpl.
  - reflexivity.
  - intros H (H1 & _ & H3 & _). destruct (H a' b' H1 H3).
  - intros (H1 & _ & H3 & _) H. destruct (H a b H1 H3).
  - intros (H1 & H2 & H3 & H4 & H5 & H6) (G1 & G2 & G3 & G4 & G5 & G6).
    assert (a = a').
    { destruct (Nat.lt_trichotomy a a') as [L|[E|L]]; [|exact E|].
      - destruct (G4 a b); [lia | exact H3].
      - destruct (H4 a' b'); [lia | exact G3]. }
    subst a'.
    assert (b = b') by (apply Nat.le_antisymm; [now apply G5 | now apply H5]).
    subst b'. f_equal. now apply (IH ms' b).
Qed.

End ScanUnique.

(** Matches come out from left to right and do not overlap, whatever
    the pattern. *)
Section ScanOrder.
Import Re.

Variable fl : flag.
Variable r : regex.
Variable t : str.

Lemma scan_from (fuel pos : nat) :
  Forall (fun m => pos <= fst m) (scan fl r t fuel pos).
Proof.
  revert pos. induction fuel as [|fuel IH]; intros pos; simpl; [constructor|].
  destruct (length t <? pos); [constructor|].
  destruct (match_at fl r t pos) as [e|].
  - constructor; [simpl; lia|].
    eapply Forall_impl; [|apply IH]. simpl. intros; lia.
  - eapply Forall_impl; [|apply IH]. simpl. intros; lia.
Qed.

Lemma scan_ascending (fuel pos : nat) :
  StronglySorted (fun m m' => fst m < fst m') (scan fl r t fuel pos).
Proof.
  revert pos. induction fuel as [|fuel IH]; intros pos; simpl; [constructor|].
  destruct (length t <? pos); [constructor|].
  destruct (match_at fl r t pos) as [e|]; [|apply IH].
  constructor; [apply IH|].
  eapply Forall_impl; [|apply scan_from]. simpl. intros; lia.
Qed.

Lemma finditer_ascending :
  StronglySorted (fun m m' => fst m < fst m') (finditer r t fl).
Proof. apply scan_ascending. Qed.

End ScanOrder.

(** ** The first three rules: one end per start *)
Section DashRules.
Import Re Anonimizador.

Variable t : str.

Lemma anchored_longest (r : regex) (c : ascii) (n : nat) :
  anchor IGNORECASE c r = Some n ->
  forall i, first_is_max (ends IGNORECASE r t i).
Proof.
  intros A i. apply unique_first_is_max.
  intros j j'. now apply anchor_unique with (c := c) (n := n).
Qed.

Lemma CPF_longest i : first_is_max (ends IGNORECASE CPF_pattern t i).
Proof. apply anchored_longest with (c := "-"%char) (n := 2). reflexivity. Qed.

Lemma CNPJ_longest i : first_is_max (ends IGNORECASE CNPJ_pattern t i).
Proof. apply anchored_longest with (c := "-"%char) (n := 2). reflexivity. Qed.

Lemma TELEFONE_longest i : first_is_max (ends IGNORECASE TELEFONE_pattern t i).
Proof. apply anchored_longest with (c := "-"%char) (n := 4). reflexivity. Qed.

End DashRules.

(** ** The fourth rule: the first end tried is the largest *)
Section FirstIsMax.
Import Re.

Variable fl : flag.
Variable t : str.

Lemma flat_map_flat_map (A B C : Type) (f : A -> list B) (g : B -> list C)
    (l : list A) :
  flat_map g (flat_map f l) = flat_map (fun x => flat_map g (f x)) l.
Proof.
  induction l as [|x l IH]; simpl; [reflexivity|].
  now rewrite flat_map_app, IH.
Qed.

Lemma ends_seq (a b : regex) (i : nat) :
  ends fl (Seq a b) t i = flat_map (ends fl b t) (ends fl a t i).
Proof. reflexivity. Qed.

Lemma ends_seq_assoc (a b c : regex) (i : nat) :
  ends fl (Seq (Seq a b) c) t i = ends fl (Seq a (Seq b c)) t i.
Proof. simpl. apply flat_map_flat_map. Qed.

Lemma ends_seq_ext (a b b' : regex) (i : nat) :
  (forall k, ends fl b t k = ends fl b' t k) ->
  ends fl (Seq a b) t i = ends fl (Seq a b') t i.
Proof. intros H. simpl. apply flat_map_ext. exact H. Qed.

Lemma no_elements (A : Type) (l : list A) : (forall x, ~ In x l) -> l = [].
Proof. destruct l as [|x l]; [reflexivity|]. intros H. destruct (H x). now left. Qed.

(** A first part with one possible end hands the choice to the rest. *)
Lemma seq_unique_first_is_max (r1 r2 : regex) (i : nat) :
  (forall j j', matches fl t r1 i j -> matches fl t r1 i j' -> j = j') ->
  (forall k, first_is_max (ends fl r2 t k)) ->
  first_is_max (ends fl (Seq r1 r2) t i).
Proof.
  intros U H2. simpl.
  destruct (ends fl r1 t i) as [|k l] eqn:E; [exact I|].
  assert (Hall : forall x, In x l -> x = k).
  { intros x Hx. apply U; apply ends_spec; rewrite E; [now right | now left]. }
  assert (Hin : forall e, In e (flat_map (ends fl r2 t) l) -> In e (ends fl r2 t k)).
  { intros e He. apply in_flat_map in He. destruct He as (x & Hx & He).
    now rewrite <- (Hall x Hx). }
  simpl. specialize (H2 k).
  destruct (ends fl r2 t k) as [|e rest] eqn:E2; simpl.
  - rewrite (no_elements _ (flat_map (ends fl r2 t) l)); [exact I|].
    intros x Hx. apply (Hin x Hx).
  - simpl in H2. apply Forall_app. split; [exact H2|].
    apply Forall_forall. intros x Hx. apply Hin in Hx.
    destruct Hx as [->|Hx]; [lia|].
    rewrite Forall_forall in H2. now apply H2.
Qed.

(** Starts tried from the largest down, each with its largest end first,
    and a larger start never ending before a smaller one. *)
Lemma flat_map_first_is_max (f : nat -> list nat) (l : list nat) :
  StronglySorted gt l ->
  (forall p, In p l -> first_is_max (f p)) ->
  (forall p p' e e', In p l -> In p' l -> p' < p ->
                     In e (f p) -> In e' (f p') -> e' <= e) ->
  first_is_max (flat_map f l).
Proof.
  induction 1 as [|p l Hs IH Hp]; intros Hf Hx; simpl; [exact I|].
  destruct (f p) as [|e rest] eqn:E; simpl.
  - apply IH.
    + intros q Hq. apply Hf. now right.
    + intros q q' e e' Hq Hq'. apply Hx; now right.
  - pose proof (Hf p (or_introl eq_refl)) as Hfp. rewrite E in Hfp. simpl in Hfp.
    apply Forall_app. split; [exact Hfp|].
    apply Forall_forall. intros e' He'.
    apply in_flat_map in He'. destruct He' as (p' & Hp' & He').
    apply (Hx p p' e e'); auto.
    + now left.
    + now right.
    + rewrite Forall_forall in Hp. apply (Hp p' Hp').
    + rewrite E. now left.
Qed.

Lemma countdown_descending (hi lo : nat) : StronglySorted gt (countdown hi lo).
Proof.
  unfold countdown. generalize (S hi - lo) as n.
  induction n as [|n IH]; [constructor|].
  rewrite seq_S, rev_app_distr. simpl. constructor; [exact IH|].
  apply Forall_forall. intros x Hx. apply in_rev, in_seq in Hx. lia.
Qed.

Lemma repeat_ends_descending (cs : list item) (lo : nat) (hi : option nat)
    (i : nat) :
  StronglySorted gt (ends fl (Repeat cs lo hi) t i).
Proof.
  simpl.
  match goal with |- context [countdown ?a ?b] =>
    generalize (countdown_descending a b); generalize (countdown a b) end.
  induction 1 as [|k l Hs IH Hk]; simpl; constructor; [exact IH|].
  apply Forall_forall. intros x Hx. apply in_map_iff in Hx.
  destruct Hx as (y & <- & Hy). rewrite Forall_forall in Hk.
  specialize (Hk y Hy). lia.
Qed.

End FirstIsMax.

Section EmailRule.
Import Re Anonimizador.

Variable t : str.

Lemma EMAIL_split (i : nat) :
  ends IGNORECASE EMAIL_pattern t i =
  ends IGNORECASE (Seq EMAIL_local EMAIL_domain) t i.
Proof.
  unfold EMAIL_local. rewrite ends_seq_assoc.
  apply ends_seq_ext. intros k. rewrite ends_seq_assoc. reflexivity.
Qed.

Lemma after_boundary_first_is_max (k : nat) :
  first_is_max (ends IGNORECASE (Seq Boundary Eps) t k).
Proof.
  apply unique_first_is_max. intros j j' H H'.
  apply (fixed_len_spec _ _ (Seq Boundary Eps) 0 _ _ eq_refl) in H.
  apply (fixed_len_spec _ _ (Seq Boundary Eps) 0 _ _ eq_refl) in H'. lia.
Qed.

Lemma EMAIL_tld_first_is_max (k : nat) :
  first_is_max (ends IGNORECASE EMAIL_tld t k).
Proof.
  unfold EMAIL_tld, seq_of. cbn [fold_right].
  apply seq_unique_first_is_max.
  - intros j j' H H'.
    apply (fixed_len_spec _ _ (Lit ".") 1 _ _ eq_refl) in H.
    apply (fixed_len_spec _ _ (Lit ".") 1 _ _ eq_refl) in H'. lia.
  - intros q. rewrite ends_seq. apply flat_map_first_is_max.
    + apply repeat_ends_descending.
    + intros p _. apply after_boundary_first_is_max.
    + intros p p' e e' _ _ Hlt He He'.
      apply ends_spec in He, He'.
      apply (fixed_len_spec _ _ (Seq Boundary Eps) 0 _ _ eq_refl) in He.
      apply (fixed_len_spec _ _ (Seq Boundary Eps) 0 _ _ eq_refl) in He'. lia.
Qed.

(** A match of the top-level domain: a dot at its start, word characters
    up to its end, at least two of them. *)
Lemma EMAIL_tld_shape (p e : nat) :
  matches IGNORECASE t EMAIL_tld p e ->
  nth_error t p = Some "."%char /\ p + 3 <= e /\
  forall m, p < m < e -> word_at t m = true.
Proof.
  intros H. pose proof (matches_min_len _ _ _ _ _ H) as Hmin.
  change (min_len EMAIL_tld) with 3 in Hmin.
  simpl in H. destruct H as (k & (x & Hx & Lx & ->) & k2 & (_ & _ & _ & Hall) & k3 & (_ & ->) & ->).
  repeat split; auto.
  - rewrite Hx. f_equal. apply (uncased_spec IGNORECASE "."%char x); [reflexivity | exact Lx].
  - intros m Hm. destruct (Hall m) as (y & Hy & My); [lia|].
    unfold word_at. rewrite Hy. unfold mem in My. simpl in My.
    now rewrite orb_false_r in My.
Qed.

Lemma EMAIL_domain_first_is_max (k : nat) :
  first_is_max (ends IGNORECASE EMAIL_domain t k).
Proof.
  unfold EMAIL_domain. rewrite ends_seq. apply flat_map_first_is_max.
  - apply repeat_ends_descending.
  - intros p _. apply EMAIL_tld_first_is_max.
  - intros p p' e e' _ _ Hlt He He'.
    apply ends_spec, EMAIL_tld_shape in He, He'.
    destruct He as (Hdot & Hpe & _). destruct He' as (_ & _ & Hw).
    destruct (Nat.le_gt_cases e' p) as [Hle|Hgt]; [lia|].
    specialize (Hw p (conj Hlt Hgt)). unfold word_at in Hw.
    rewrite Hdot in Hw. discriminate.
Qed.

Lemma EMAIL_longest i : first_is_max (ends IGNORECASE EMAIL_pattern t i).
Proof.
  rewrite EMAIL_split. apply seq_unique_first_is_max.
  - intros j j'. apply anchor_unique with (c := "@"%char) (n := 0). reflexivity.
  - apply EMAIL_domain_first_is_max.
Qed.

End EmailRule.

(** ** Matching with IGNORECASE does not see the case of the text *)
Section IgnoreCase.
Import Re.

Lemma category_lower (k : category) (c : ascii) :
  in_category k (lower c) = in_category k c.
Proof.
  destruct k; destruct c as [[] [] [] [] [] [] [] []]; vm_compute; reflexivity.
Qed.

Lemma category_same_case (k : category) (x x' : ascii) :
  lower x = lower x' -> in_category k x = in_category k x'.
Proof.
  intros E. now rewrite <- (category_lower k x), E, category_lower.
Qed.

Lemma lit_same_case (c x x' : ascii) :
  lower x = lower x' -> lit_eq IGNORECASE c x = lit_eq IGNORECASE c x'.
Proof. intros E. simpl. now rewrite E. Qed.

Lemma mem_same_case (cs : list item) (x x' : ascii) :
  lower x = lower x' -> mem IGNORECASE cs x = mem IGNORECASE cs x'.
Proof.
  intros E. unfold mem. induction cs as [|[k|c] cs IH]; simpl; [reflexivity| |].
  - now rewrite IH, (category_same_case k x x' E).
  - now rewrite IH, E.
Qed.

Lemma run_same_case (cs : list item) (l l' : str) :
  map lower l = map lower l' -> run IGNORECASE cs l = run IGNORECASE cs l'.
Proof.
  revert l'. induction l as [|x l IH]; intros [|x' l']; simpl; try discriminate.
  - reflexivity.
  - intros [= E El]. rewrite (mem_same_case cs x x' E).
    destruct (mem IGNORECASE cs x'); [f_equal; now apply IH | reflexivity].
Qed.

Variables t t' : str.
Hypothesis same : map lower t = map lower t'.

Lemma same_length : length t = length t'.
Proof. now rewrite <- (length_map lower t), same, length_map. Qed.

Lemma same_nth (i : nat) :
  match nth_error t i, nth_error t' i with
  | Some x, Some x' => lower x = lower x'
  | None, None => True
  | _, _ => False
  end.
Proof.
  pose proof (nth_error_map lower i t) as H.
  pose proof (nth_error_map lower i t') as H'.
  rewrite same in H. rewrite H' in H.
  destruct (nth_error t i), (nth_error t' i); simpl in H; try exact I; congruence.
Qed.

Lemma word_at_same (i : nat) : word_at t i = word_at t' i.
Proof.
  unfold word_at. pose proof (same_nth i) as H.
  destruct (nth_error t i), (nth_error t' i); try easy.
  now apply (category_same_case Word).
Qed.

Lemma at_boundary_same (i : nat) : at_boundary t i = at_boundary t' i.
Proof.
  unfold at_boundary. rewrite word_at_same.
  destruct i; [reflexivity | now rewrite word_at_same].
Qed.

Lemma ends_same (r : regex) (i : nat) :
  ends IGNORECASE r t i = ends IGNORECASE r t' i.
Proof.
  revert i. induction r as [|c|cs| |r1 IH1 r2 IH2|r IH|cs lo hi]; intros i;
    cbn [ends].
  - reflexivity.
  - pose proof (same_nth i) as H.
    destruct (nth_error t i), (nth_error t' i); try easy.
    now rewrite (lit_same_case c _ _ H).
  - pose proof (same_nth i) as H.
    destruct (nth_error t i), (nth_error t' i); try easy.
    now rewrite (mem_same_case cs _ _ H).
  - now rewrite at_boundary_same.
  - rewrite IH1. apply flat_map_ext. exact IH2.
  - now rewrite IH.
  - rewrite (run_same_case cs (skipn i t) (skipn i t')); [reflexivity|].
    now rewrite <- !skipn_map, same.
Qed.

Lemma scan_same (r : regex) (fuel pos : nat) :
  scan IGNORECASE r t fuel pos = scan IGNORECASE r t' fuel pos.
Proof.
  revert pos. induction fuel as [|fuel IH]; intros pos; simpl; [reflexivity|].
  rewrite same_length. unfold match_at. rewrite ends_same.
  destruct (length t' <? pos); [reflexivity|].
  destruct (hd_error (ends IGNORECASE r t' pos)); now rewrite IH.
Qed.

Lemma finditer_same (r : regex) :
  finditer r t IGNORECASE = finditer r t' IGNORECASE.
Proof. unfold finditer. rewrite same_length. apply scan_same. Qed.

End IgnoreCase.

(** ** The spans kept for a rule *)
Section KeptFacts.
Import SpaCy Anonimizador.

Variable doc : Doc.
Variable txt0 : str.

Lemma char_span_Some (a b : nat) (l : string) (sp : Span) :
  char_span doc a b l = Some sp -> sp = mkSpan a b l /\ a < b.
Proof.
  unfold char_span.
  destruct (a <? b) eqn:E; simpl; [|discriminate].
  apply Nat.ltb_lt in E.
  destruct (_ && _); [|discriminate]. intros [= <-]. now split.
Qed.

Lemma contribution_cases (item : Rule) (m : nat * nat) :
  (char_span doc (fst m) (snd m) (rule_label item) = None /\
   contribution doc item m = []) \/
  (char_span doc (fst m) (snd m) (rule_label item)
     = Some (mkSpan (fst m) (snd m) (rule_label item)) /\
   contribution doc item m = [mkSpan (fst m) (snd m) (rule_label item)]).
Proof.
  unfold contribution.
  destruct (char_span doc (fst m) (snd m) (rule_label item)) as [sp|] eqn:E.
  - right. apply char_span_Some in E. destruct E as [-> _]. now split.
  - left. now split.
Qed.

Lemma kept_In (item : Rule) (sp : Span) :
  In sp (kept doc txt0 item) ->
  label_ sp = rule_label item /\
  In (interval_of sp) (Re.finditer (pattern item) txt0 Re.IGNORECASE).
Proof.
  unfold kept. rewrite in_flat_map. intros ([a b] & Hm & Hsp).
  destruct (contribution_cases item (a, b)) as [(_ & E)|(_ & E)];
    rewrite E in Hsp; simpl in Hsp; [easy|].
  destruct Hsp as [<-|[]]. split; [reflexivity | exact Hm].
Qed.

Lemma contributions_ascending (item : Rule) (ms : list (nat * nat)) :
  StronglySorted (fun m m' => fst m < fst m') ms ->
  StronglySorted starts_before (flat_map (contribution doc item) ms) /\
  forall n, Forall (fun m => n < fst m) ms ->
            Forall (fun sp => n < start_char sp) (flat_map (contribution doc item) ms).
Proof.
  induction 1 as [|m ms Hs IH Hm]; simpl.
  - split; [constructor | intros; constructor].
  - destruct IH as [IH1 IH2].
    destruct (contribution_cases item m) as [(_ & ->)|(_ & ->)]; simpl.
    + split; [exact IH1|]. intros n Hn. inversion Hn; subst. now apply IH2.
    + split.
      * constructor; [exact IH1|]. apply (IH2 (fst m)). exact Hm.
      * intros n Hn. inversion Hn; subst. constructor; [assumption|now apply IH2].
Qed.

Lemma kept_ascending (item : Rule) :
  StronglySorted starts_before (kept doc txt0 item).
Proof. apply contributions_ascending. apply finditer_ascending. Qed.

Lemma str_in_In (x : string) (l : list string) : str_in x l = true <-> In x l.
Proof.
  unfold str_in. rewrite existsb_exists. split.
  - intros (y & Hy & E). apply String.eqb_eq in E. now subst.
  - intros H. exists x. split; [exact H | apply String.eqb_refl].
Qed.

Lemma reported_In (sp : Span) :
  In sp (reported doc) <-> In sp (ents doc) /\ In (label_ sp) linguistic_labels.
Proof. unfold reported. now rewrite filter_In, str_in_In. Qed.

Lemma rule_label_In (item : Rule) :
  In item patterns -> In (rule_label item) pattern_labels.
Proof.
  intros H. apply (in_map rule_label) in H. exact H.
Qed.

Lemma raw_labels : Forall (fun sp => In (label_ sp) all_labels) (raw doc txt0).
Proof.
  apply Forall_forall. intros sp Hsp. unfold raw in Hsp. unfold all_labels.
  apply in_app_iff in Hsp. apply in_or_app. destruct Hsp as [H|H].
  - left. now apply reported_In in H.
  - right. apply in_flat_map in H. destruct H as (item & Hi & Hk).
    apply kept_In in Hk. destruct Hk as [-> _]. now apply rule_label_In.
Qed.

Lemma candidates_labels :
  Forall (fun sp => In (label_ sp) linguistic_labels) (ents doc) ->
  Forall (fun sp => In (label_ sp) all_labels) (candidates doc txt0).
Proof.
  intros H. unfold candidates. apply Forall_app. split.
  - eapply Forall_impl; [|exact H]. intros sp Hl. unfold all_labels.
    apply in_or_app. now left.
  - apply Forall_forall. intros sp Hsp.
    apply in_flat_map in Hsp. destruct Hsp as (item & Hi & Hk).
    apply kept_In in Hk. destruct Hk as [-> _]. unfold all_labels.
    apply in_or_app. right. now apply rule_label_In.
Qed.

End KeptFacts.

Section RulesFacts.
Import SpaCy Anonimizador.

Lemma rules_nonempty (item : Rule) :
  In item patterns -> 0 < Re.min_len (pattern item).
Proof.
  intros H. simpl in H.
  destruct H as [<-|[<-|[<-|[<-|[]]]]]; vm_compute; lia.
Qed.

Lemma rules_longest (item : Rule) (t : str) (i : nat) :
  In item patterns ->
  Re.first_is_max (Re.ends Re.IGNORECASE (pattern item) t i).
Proof.
  intros H. simpl in H. destruct H as [<-|[<-|[<-|[<-|[]]]]]; cbn [pattern].
  - apply CPF_longest.
  - apply CNPJ_longest.
  - apply TELEFONE_longest.
  - apply EMAIL_longest.
Qed.

Lemma rules_empty_text (item : Rule) :
  In item patterns -> Re.finditer (pattern item) [] Re.IGNORECASE = [].
Proof.
  intros H. simpl in H.
  destruct H as [<-|[<-|[<-|[<-|[]]]]]; vm_compute; reflexivity.
Qed.

Lemma kept_set_ents (doc : Doc) (l : list Span) (t : str) (item : Rule) :
  kept (set_ents doc l) t item = kept doc t item.
Proof. reflexivity. Qed.

End RulesFacts.
(** ** The loop of [filter_spans] on token indices *)
Section TokenFacts.
Import SpaCy.

Variable tks : list (nat * nat).

Lemma count_mono (x y : nat) :
  x <= y ->
  length (filter (fun tk => fst tk <? x) tks)
  <= length (filter (fun tk => fst tk <? y) tks).
Proof.
  intros H. induction tks as [|tk l IH]; [reflexivity|].
  cbn [filter]. destruct (fst tk <? x) eqn:Ex, (fst tk <? y) eqn:Ey;
    cbn [length]; try lia.
  apply Nat.ltb_lt in Ex. apply Nat.ltb_ge in Ey. lia.
Qed.

Lemma count_strict (x y : nat) :
  x < y -> In x (map fst tks) ->
  length (filter (fun tk => fst tk <? x) tks)
  < length (filter (fun tk => fst tk <? y) tks).
Proof.
  intros H. induction tks as [|tk l IH]; [easy|].
  intros [E|I]; cbn [filter].
  - assert (Ex : (fst tk <? x) = false) by (apply Nat.ltb_ge; lia).
    assert (Ey : (fst tk <? y) = true) by (apply Nat.ltb_lt; lia).
    rewrite Ex, Ey. cbn [length].
    clear IH. pose proof (Nat.lt_le_incl _ _ H) as Hle.
    assert (M : length (filter (fun tk => fst tk <? x) l)
                <= length (filter (fun tk => fst tk <? y) l)).
    { clear - Hle. induction l as [|t l IH]; [reflexivity|].
      cbn [filter]. destruct (fst t <? x) eqn:Ex, (fst t <? y) eqn:Ey;
        cbn [length]; try lia.
      apply Nat.ltb_lt in Ex. apply Nat.ltb_ge in Ey. lia. }
    lia.
  - specialize (IH I).
    destruct (fst tk <? x) eqn:Ex, (fst tk <? y) eqn:Ey;
      cbn [length]; try lia.
    apply Nat.ltb_lt in Ex. apply Nat.ltb_ge in Ey. lia.
Qed.

Lemma count_all (x : nat) (l : list (nat * nat)) :
  Forall (fun t => fst t < x) l ->
  length (filter (fun tk => fst tk <? x) l) = length l.
Proof.
  induction 1 as [|t l Ht Hl IH]; [reflexivity|].
  cbn [filter]. apply Nat.ltb_lt in Ht. rewrite Ht. cbn [length].
  now rewrite IH.
Qed.

Lemma count_none (x : nat) (l : list (nat * nat)) :
  Forall (fun t => x <= fst t) l ->
  length (filter (fun tk => fst tk <? x) l) = 0.
Proof.
  induction 1 as [|t l Ht Hl IH]; [reflexivity|].
  cbn [filter]. apply Nat.ltb_ge in Ht. now rewrite Ht.
Qed.

Lemma in_text_order_split (pre post : list (nat * nat)) (s e : nat) :
  in_text_order (pre ++ (s, e) :: post) ->
  s < e /\ Forall (fun t => fst t < s) pre /\ Forall (fun t => e <= fst t) post.
Proof.
  intros (S & F). apply Forall_app in F. destruct F as (Fpre & F).
  inversion F as [|? ? Hse _]; subst. cbn [fst snd] in Hse.
  split; [exact Hse|]. clear F. induction pre as [|t pre IH].
  - split; [constructor|]. simpl in S. now inversion S.
  - simpl in S. inversion S as [|? ? S' Ft]; subst.
    inversion Fpre as [|? ? Ht Fpre']; subst.
    destruct (IH S' Fpre') as (I1 & I2). split; [|exact I2].
    constructor; [|exact I1].
    rewrite Forall_forall in Ft.
    assert (I : In (s, e) (pre ++ (s, e) :: post))
      by (apply in_or_app; right; now left).
    specialize (Ft (s, e) I). cbn [fst] in Ft. lia.
Qed.

(** [span.start] and [span.end] are indices of tokens: a span that starts
    with the token of index [i] has [span.start = i], one that ends with
    it has [span.end = i + 1]. *)
Lemma token_index (i s e : nat) (sp : Span) :
  in_text_order tks -> nth_error tks i = Some (s, e) ->
  (start_char sp = s -> token_start tks sp = i) /\
  (end_char sp = e -> token_end tks sp = S i).
Proof.
  intros O N. apply nth_error_split in N.
  destruct N as (pre & post & E & L). rewrite E in O.
  destruct (in_text_order_split pre post s e O) as (Hse & Fpre & Fpost).
  unfold token_start, token_end. rewrite E, !filter_app, !length_app.
  cbn [filter fst]. split; intros ->.
  - rewrite (count_all s pre Fpre), Nat.ltb_irrefl.
    rewrite (count_none s post); [lia|].
    eapply Forall_impl; [|exact Fpost]. cbv beta. intros; lia.
  - rewrite (count_all e pre).
    2:{ eapply Forall_impl; [|exact Fpre]. cbv beta. intros; lia. }
    apply Nat.ltb_lt in Hse. rewrite Hse. cbn [length].
    rewrite (count_none e post Fpost). lia.
Qed.

(** A span that begins with a token starts before an offset exactly when
    its first token comes before the tokens from that offset on. *)
Lemma starts_before_tokens (c a : Span) :
  In (start_char c) (map fst tks) ->
  start_char c < end_char a <-> token_start tks c < token_end tks a.
Proof.
  intros I. unfold token_start, token_end. split.
  - intros H. now apply count_strict.
  - intros H. destruct (Nat.lt_ge_cases (start_char c) (end_char a)) as [L|G];
      [exact L|].
    pose proof (count_mono _ _ G). lia.
Qed.

Lemma token_len_pos (c : Span) :
  on_tokens tks c -> token_start tks c < token_end tks c.
Proof. intros (L & I). now apply (starts_before_tokens c c). Qed.

(** Sharing a character is sharing a token. *)
Lemma share_token (c a : Span) :
  on_tokens tks c -> on_tokens tks a ->
  overlaps c a = true <->
  token_start tks c < token_end tks a /\ token_start tks a < token_end tks c.
Proof.
  intros (_ & Ic) (_ & Ia). unfold overlaps.
  rewrite andb_true_iff, !Nat.ltb_lt.
  now rewrite (starts_before_tokens c a Ic), (starts_before_tokens a c Ia).
Qed.

Lemma in_seen_spec (seen_tokens : list nat) (i : nat) :
  in_seen seen_tokens i = true <-> In i seen_tokens.
Proof.
  unfold in_seen. rewrite existsb_exists. split.
  - intros (j & Hj & E). apply Nat.eqb_eq in E. now subst.
  - intros H. exists i. split; [exact H | apply Nat.eqb_refl].
Qed.

(** The test of the loop on the first and the last token of a span is
    the test of [accept], for a span that comes after those kept. *)
Lemma keep_test (acc : list Span) (seen_tokens : list nat) (c : Span) :
  Forall (on_tokens tks) acc -> on_tokens tks c ->
  Forall (fun a => goes_first tks a c) acc ->
  covers tks acc seen_tokens ->
  keep tks (acc, seen_tokens) c =
  if existsb (overlaps c) acc then (acc, seen_tokens)
  else (acc ++ [c],
        seen_tokens ++ seq (token_start tks c)
                           (token_end tks c - token_start tks c)).
Proof.
  intros Fa Hc Fg Cov. pose proof (token_len_pos c Hc) as Pos.
  unfold keep.
  destruct (token_end tks c) as [|last] eqn:Ee; [lia|].
  destruct (existsb (overlaps c) acc) eqn:D.
  - apply existsb_exists in D. destruct D as (a & Ha & Hov).
    rewrite Forall_forall in Fa, Fg.
    apply (share_token c a Hc (Fa a Ha)) in Hov.
    pose proof (Fg a Ha) as G. unfold goes_first, token_len in G.
    rewrite Ee in *.
    assert (S : token_start tks a <= token_start tks c < token_end tks a \/
                token_start tks a <= last < token_end tks a) by lia.
    destruct S as [S|S].
    + assert (I : in_seen seen_tokens (token_start tks c) = true).
      { apply in_seen_spec, Cov. eauto. }
      now rewrite I.
    + assert (I : in_seen seen_tokens last = true).
      { apply in_seen_spec, Cov. eauto. }
      rewrite I. now rewrite andb_false_r.
  - assert (N : forall i, token_start tks c <= i <= last ->
                          in_seen seen_tokens i = false).
    { intros i Hi. destruct (in_seen seen_tokens i) eqn:I; [|reflexivity].
      apply in_seen_spec, Cov in I. destruct I as (a & Ha & Hr).
      rewrite Forall_forall in Fa.
      assert (Hov : overlaps c a = true).
      { apply (share_token c a Hc (Fa a Ha)). rewrite Ee. lia. }
      assert (existsb (overlaps c) acc = true)
        by (apply existsb_exists; eauto).
      congruence. }
    rewrite (N (token_start tks c)), (N last) by lia. reflexivity.
Qed.

Lemma covers_snoc (acc : list Span) (seen_tokens : list nat) (c : Span) :
  covers tks acc seen_tokens ->
  covers tks (acc ++ [c])
         (seen_tokens ++ seq (token_start tks c)
                             (token_end tks c - token_start tks c)).
Proof.
  intros Cov i. rewrite in_app_iff, in_seq, (Cov i). split.
  - intros [(a & Ha & Hr)|Hr].
    + exists a. split; [apply in_or_app; now left | exact Hr].
    + exists c. split; [apply in_or_app; right; now left | lia].
  - intros (a & Ha & Hr). apply in_app_or in Ha.
    destruct Ha as [Ha|[<-|[]]]; [left; eauto | right; lia].
Qed.

Lemma keep_accept (l : list Span) :
  forall (acc : list Span) (seen_tokens : list nat),
  Forall (on_tokens tks) l -> Forall (on_tokens tks) acc ->
  StronglySorted (goes_first tks) l ->
  Forall (fun a => Forall (goes_first tks a) l) acc ->
  covers tks acc seen_tokens ->
  fst (fold_left (keep tks) l (acc, seen_tokens)) = fold_left accept l acc.
Proof.
  induction l as [|c l IH]; intros acc seen_tokens Fl Fa S Fg Cov;
    [reflexivity|].
  cbn [fold_left].
  inversion Fl as [|? ? Hc Fl']; subst.
  inversion S as [|? ? S' Gc]; subst.
  rewrite (keep_test acc seen_tokens c Fa Hc); [| |exact Cov].
  2:{ eapply Forall_impl; [|exact Fg]. cbv beta. intros a Ha.
      now inversion Ha. }
  assert (Fg' : Forall (fun a => Forall (goes_first tks a) l) acc).
  { eapply Forall_impl; [|exact Fg]. cbv beta. intros a Ha.
    now inversion Ha. }
  unfold accept at 2. destruct (existsb (overlaps c) acc).
  - now apply IH.
  - apply IH; auto.
    + apply Forall_app. split; [exact Fa | now constructor].
    + apply Forall_app. split; [exact Fg' | now constructor].
    + now apply covers_snoc.
Qed.

(** On spans that begin with a token the loop on token indices keeps the
    spans [filter_spans] keeps. *)
Lemma filter_spans_loop_spec (l : list Span) :
  Forall (on_tokens tks) l ->
  filter_spans_loop tks l = filter_spans tks l.
Proof.
  intros F. unfold filter_spans_loop, filter_spans. cbv zeta.
  rewrite keep_accept; auto.
  - eapply Permutation_Forall; [symmetry; apply sort_order_perm | exact F].
  - apply sort_order_sorted.
  - intros i. split; [intros [] | intros (a & [] & _)].
Qed.

End TokenFacts.

(** The candidates of the program begin with a token when the entities
    of the extractor do, and its call of [filter_spans] gives what the
    loop on token indices gives. *)
Section CandidateFacts.
Import SpaCy Anonimizador.

Lemma char_span_on_tokens (doc : Doc) (a b : nat) (l : string) (sp : Span) :
  char_span doc a b l = Some sp -> on_tokens (tokens doc) sp.
Proof.
  unfold char_span.
  destruct (a <? b) eqn:E; cbn [andb]; [|discriminate].
  destruct (existsb (fun tk => fst tk =? a) (tokens doc)) eqn:Ea;
    cbn [andb]; [|discriminate].
  destruct (existsb (fun tk => snd tk =? b) (tokens doc)); [|discriminate].
  intros [= <-]. apply Nat.ltb_lt in E. split; [exact E|].
  cbn [start_char]. apply existsb_exists in Ea.
  destruct Ea as (tk & Htk & Eq). apply Nat.eqb_eq in Eq. subst a.
  now apply in_map.
Qed.

Lemma candidates_on_tokens (doc : Doc) (txt0 : str) :
  Forall (on_tokens (tokens doc)) (ents doc) ->
  Forall (on_tokens (tokens doc)) (candidates doc txt0).
Proof.
  intros H. unfold candidates. apply Forall_app. split; [exact H|].
  apply Forall_forall. intros sp Hsp.
  apply in_flat_map in Hsp. destruct Hsp as (item & _ & Hsp).
  unfold kept in Hsp. apply in_flat_map in Hsp.
  destruct Hsp as (m & _ & Hsp). unfold contribution in Hsp.
  destruct (char_span doc (fst m) (snd m) (rule_label item)) as [s|] eqn:E;
    [|easy].
  destruct Hsp as [<-|[]]. now apply (char_span_on_tokens _ _ _ _ _ E).
Qed.

Lemma doc_ents_loop (nlp : str -> Doc) (txt0 : str) :
  Forall (on_tokens (tokens (nlp txt0))) (ents (nlp txt0)) ->
  ents (doc_of (mask_entities_and_contacts nlp txt0))
  = filter_spans_loop (tokens (nlp txt0)) (candidates (nlp txt0) txt0).
Proof.
  intros H. rewrite doc_spec. cbn [set_ents ents].
  symmetry. apply filter_spans_loop_spec. now apply candidates_on_tokens.
Qed.

End CandidateFacts.

(** * Properties of the specification *)
Section SpecProperties.
Import SpaCy Anonimizador.

(** C1, as the code has it: the entity report holds exactly one
    text/label pair for every collected raw span (each extractor entity
    labelled PER, ORG, LOC or GPE and each kept pattern match, before
    reconciliation), in the order of collection; it is the reconciled
    entity set attached to the returned document in which no two
    entities have overlapping character spans. *)
Theorem C1_report_lists_raw_spans (nlp : str -> Doc) (txt0 : str) :
  let r := mask_entities_and_contacts nlp txt0 in
  report_of r = map (entity_of txt0) (raw (nlp txt0) txt0) /\
  length (report_of r) = length (raw (nlp txt0) txt0) /\
  ForallOrdPairs disjoint (ents (doc_of r)).
Proof.
  cbv zeta. rewrite report_spec, doc_spec. repeat split.
  - apply length_map.
  - apply filter_spans_disjoint.
Qed.

(** C1 as stated fails: on "CPF 123.456.789-00", with the acronym
    tagged ORG by the extractor, the report has two entries, for the
    overlapping spans (0,3) and (0,18), while the reconciled set has the
    single entity (0,18). *)
Lemma C1_report_not_reconciled :
  ~ one_pair_per_accepted Sample.cpf_nlp Sample.cpf_text /\
  ~ reported_spans_disjoint Sample.cpf_nlp Sample.cpf_text.
Proof.
  split.
  - unfold one_pair_per_accepted. intros P.
    apply Permutation_length in P. vm_compute in P. discriminate.
  - unfold reported_spans_disjoint.
    assert (E : raw (Sample.cpf_nlp Sample.cpf_text) Sample.cpf_text
                = [mkSpan 0 3 "ORG"; mkSpan 0 18 "CPF"]) by (vm_compute; reflexivity).
    rewrite E. intros H. inversion H as [|? ? F _]; subst.
    inversion F as [|? ? D _]; subst. vm_compute in D. discriminate.
Qed.

(** C2: when every collected raw span satisfies
    [0 <= start < end <= len(text)], the masked text is the text with
    every position inside some raw span masked (each maximal run of such
    positions replaced by one mask token) and every other position
    copied unchanged and in order; the reconciled report plays no part. *)
Theorem C2_coverage (nlp : str -> Doc) (txt0 : str) :
  Forall (Mask.valid_span txt0) (map interval_of (raw (nlp txt0) txt0)) ->
  masked_of (mask_entities_and_contacts nlp txt0) =
  Mask.mask_positions
    (Mask.covered (map interval_of (raw (nlp txt0) txt0))) 0 false txt0.
Proof.
  intros H. rewrite masked_spec. now apply mask_text_positions.
Qed.

Lemma C2_coverage_witness :
  Forall (Mask.valid_span Sample.cpf_text)
         (map interval_of (raw (Sample.cpf_nlp Sample.cpf_text) Sample.cpf_text)) /\
  masked_of (mask_entities_and_contacts Sample.cpf_nlp Sample.cpf_text) =
  Mask.mask_positions
    (Mask.covered
       (map interval_of (raw (Sample.cpf_nlp Sample.cpf_text) Sample.cpf_text)))
    0 false Sample.cpf_text.
Proof.
  assert (H : Forall (Mask.valid_span Sample.cpf_text)
                (map interval_of
                   (raw (Sample.cpf_nlp Sample.cpf_text) Sample.cpf_text))).
  { vm_compute. repeat constructor. }
  split; [exact H | exact (C2_coverage Sample.cpf_nlp Sample.cpf_text H)].
Defined.

(** C3: the spans are sorted ascending by start, keeping all of them;
    the merge pass coalesces the next interval into the open one
    when its start is [<=] the open end, with the larger of the two ends,
    and opens a new interval otherwise; the output has exactly one token
    of eight asterisks per merged interval; on valid spans the merged
    intervals are strictly apart, so that some untouched character lies
    between two tokens, and cover what the raw spans cover; two adjacent
    raw spans give a single token. *)
Theorem C3_merge_pass (txt0 : str) (sps : list Mask.interval) :
  Forall (Mask.valid_span txt0) sps ->
  let merged := Mask.merge_spans (Py.sorted fst sps) in
  StronglySorted Mask.starts_le (Py.sorted fst sps) /\
  Permutation (Py.sorted fst sps) sps /\
  (forall acc cur next,
      Mask.merge_step (acc ++ [cur]) next =
      if fst next <=? snd cur
      then acc ++ [(fst cur, Nat.max (snd cur) (snd next))]
      else acc ++ [cur; next]) /\
  Mask.mask_text txt0 sps = Mask.rebuild txt0 0 merged /\
  Mask.MASK = txt "********" /\ length Mask.MASK = 8 /\
  Mask.chain 0 merged /\
  (forall pre a b post, merged = pre ++ a :: b :: post ->
     Py.slice txt0 (snd a) (fst b) <> []) /\
  (forall i, Mask.covered merged i = Mask.covered sps i) /\
  (forall a b c, a < b -> b < c ->
     Mask.merge_spans (Py.sorted fst [(a, b); (b, c)]) = [(a, c)] /\
     Mask.mask_text txt0 [(a, b); (b, c)] =
     Py.slice txt0 0 a ++ Mask.MASK ++ Py.slice_from txt0 c).
Proof.
  intros Hv. cbv zeta.
  destruct (mask_text_chain _ _ Hv) as (m & <- & Hc & Hb & Hcov).
  split; [apply sorted_sorted|]. split; [apply sorted_perm|].
  split; [apply merge_step_snoc|].
  split; [apply build_masked_rebuild|].
  split; [reflexivity|]. split; [reflexivity|].
  split; [exact Hc|].
  split.
  { intros pre a b post E. rewrite E in Hc, Hb.
    pose proof (chain_gap _ _ _ _ _ Hc) as Hgap.
    assert (Hlen : fst b <= length txt0).
    { rewrite Forall_forall in Hb.
      assert (Hin : In b (pre ++ a :: b :: post))
        by (apply in_or_app; right; right; now left).
      pose proof (Hb b Hin).
      pose proof (chain_after _ _ Hc) as Ha. rewrite Forall_forall in Ha.
      specialize (Ha b Hin). lia. }
    intros Hnil. apply (f_equal (@length ascii)) in Hnil.
    rewrite slice_length in Hnil by lia. simpl in Hnil. lia. }
  split; [exact Hcov|].
  intros a b c Hab Hbc.
  assert (E : Mask.merge_spans (Py.sorted fst [(a, b); (b, c)]) = [(a, c)]).
  { unfold Py.sorted. cbn [fold_right Py.insert_asc fst].
    replace (a <=? b) with true by (symmetry; apply Nat.leb_le; lia).
    rewrite merge_spans_cons. cbn [Mask.merge_from fst snd].
    rewrite Nat.leb_refl. f_equal. f_equal. lia. }
  split; [exact E|].
  unfold Mask.mask_text. rewrite E, build_masked_rebuild. reflexivity.
Qed.

Lemma C3_merge_pass_witness :
  Forall (Mask.valid_span Sample.cpf_text) [(0, 3); (3, 18)] /\
  Mask.merge_spans (Py.sorted fst [(0, 3); (3, 18)]) = [(0, 18)] /\
  Mask.mask_text Sample.cpf_text [(0, 3); (3, 18)] = Mask.MASK.
Proof.
  assert (H : Forall (Mask.valid_span Sample.cpf_text) [(0, 3); (3, 18)]).
  { vm_compute. repeat constructor. }
  split; [exact H|].
  destruct (C3_merge_pass Sample.cpf_text [(0, 3); (3, 18)] H)
    as (_ & _ & _ & _ & _ & _ & _ & _ & _ & Adj).
  destruct (Adj 0 3 18) as (E1 & E2); [lia | lia |].
  split; [exact E1|]. rewrite E2. reflexivity.
Defined.

(** C4: when no extractor entity is reported and no pattern match is
    kept, the masked text is the input and the report is empty; on the
    empty text, with an extractor that keeps its spans inside the text,
    the masked text and the report are both empty.  The function is
    total: no error arises. *)
Theorem C4_nothing_found (nlp : str -> Doc) (txt0 : str) :
  (reported (nlp txt0) = [] ->
   (forall item, In item patterns -> kept (nlp txt0) txt0 item = []) ->
   masked_of (mask_entities_and_contacts nlp txt0) = txt0 /\
   report_of (mask_entities_and_contacts nlp txt0) = []) /\
  (Forall (within []) (ents (nlp [])) ->
   masked_of (mask_entities_and_contacts nlp []) = [] /\
   report_of (mask_entities_and_contacts nlp []) = []).
Proof.
  assert (G : forall t, raw (nlp t) t = [] ->
                masked_of (mask_entities_and_contacts nlp t) = t /\
                report_of (mask_entities_and_contacts nlp t) = []).
  { intros t E. rewrite masked_spec, report_spec, E. split; reflexivity. }
  split.
  - intros Hr Hk. apply G. unfold raw. rewrite Hr. cbn [app].
    apply no_elements. intros sp Hsp. apply in_flat_map in Hsp.
    destruct Hsp as (item & Hi & Hsp). now rewrite (Hk item Hi) in Hsp.
  - intros Hw. apply G. unfold raw.
    assert (E : ents (nlp []) = []).
    { destruct (ents (nlp [])) as [|sp l]; [reflexivity|].
      inversion Hw as [|? ? [H1 H2] _]; subst. simpl in H2. lia. }
    unfold reported. rewrite E. cbn [filter app].
    apply no_elements. intros sp Hsp. apply in_flat_map in Hsp.
    destruct Hsp as (item & Hi & Hsp). unfold kept in Hsp.
    now rewrite (rules_empty_text item Hi) in Hsp.
Qed.

Lemma C4_nothing_found_witness :
  (masked_of (mask_entities_and_contacts Sample.plain_nlp Sample.plain_text)
     = Sample.plain_text /\
   report_of (mask_entities_and_contacts Sample.plain_nlp Sample.plain_text) = []) /\
  (masked_of (mask_entities_and_contacts Sample.plain_nlp []) = [] /\
   report_of (mask_entities_and_contacts Sample.plain_nlp []) = []).
Proof.
  split.
  - apply (proj1 (C4_nothing_found Sample.plain_nlp Sample.plain_text)).
    + reflexivity.
    + intros item Hi. simpl in Hi.
      destruct Hi as [<-|[<-|[<-|[<-|[]]]]]; vm_compute; reflexivity.
  - apply (proj2 (C4_nothing_found Sample.plain_nlp Sample.plain_text)).
    constructor.
Defined.

(** C5: a regex match for which the span conversion gives no span adds
    nothing, and a match for which it gives a span adds exactly that
    span; the report and the masked spans are both built from these
    contributions, and the function returns for every input. *)
Theorem C5_unmappable_match_dropped (nlp : str -> Doc) (txt0 : str) :
  let doc := nlp txt0 in
  let contributions :=
    flat_map (fun item =>
                flat_map (contribution doc item)
                         (Re.finditer (pattern item) txt0 Re.IGNORECASE))
             patterns in
  (forall item m,
      char_span doc (fst m) (snd m) (rule_label item) = None ->
      contribution doc item m = []) /\
  (forall item m span,
      char_span doc (fst m) (snd m) (rule_label item) = Some span ->
      contribution doc item m = [span]) /\
  report_of (mask_entities_and_contacts nlp txt0) =
    map (entity_of txt0) (reported doc ++ contributions) /\
  masked_of (mask_entities_and_contacts nlp txt0) =
    Mask.mask_text txt0 (map interval_of (reported doc ++ contributions)).
Proof.
  cbv zeta. repeat split.
  - intros item m E. unfold contribution. now rewrite E.
  - intros item m span E. unfold contribution. now rewrite E.
  - apply report_spec.
  - apply masked_spec.
Qed.

Lemma C5_unmappable_match_dropped_witness :
  Re.finditer EMAIL_pattern Sample.glued_text Re.IGNORECASE = [(8, 24)] /\
  char_span Sample.glued_doc 8 24 "EMAIL" = None /\
  contribution Sample.glued_doc (mkRule "EMAIL" EMAIL_pattern) (8, 24) = [] /\
  report_of (mask_entities_and_contacts Sample.glued_nlp Sample.glued_text) = [] /\
  masked_of (mask_entities_and_contacts Sample.glued_nlp Sample.glued_text)
    = Sample.glued_text.
Proof.
  assert (N : char_span Sample.glued_doc 8 24 "EMAIL" = None) by reflexivity.
  destruct (C5_unmappable_match_dropped Sample.glued_nlp Sample.glued_text)
    as (Hdrop & _ & Hrep & Hmask).
  split; [vm_compute; reflexivity|]. split; [exact N|].
  split; [exact (Hdrop (mkRule "EMAIL" EMAIL_pattern) (8, 24) N)|].
  split; [rewrite Hrep | rewrite Hmask]; vm_compute; reflexivity.
Defined.

(** C6, as the code has it: the document's entities are reconciled
    from the candidates (all extractor entities, then the kept pattern
    matches) by processing them sorted by span length in tokens
    descending, candidates of as many tokens by earlier start, and
    candidates with the same number of tokens and the same start in
    their insertion order; a candidate is accepted exactly when it
    shares no character with a candidate accepted before it, and
    discarded otherwise.  The accepted candidates, sorted by start, are
    the entities of the document: no two of them share a character, and
    a discarded candidate shares a character with an accepted one that
    has more tokens, or as many and starts no later.  The length in
    tokens is counted between token indices: a span from the token of
    index [i] to the token of index [j] has [j + 1 - i] tokens. *)
Theorem C6_most_tokens_first (nlp : str -> Doc) (txt0 : str) :
  let doc := nlp txt0 in
  let tks := tokens doc in
  let cands := candidates doc txt0 in
  let order := Py.sorted_reverse_by (get_sort_key tks) Py.tuple_leb cands in
  let accepted := fold_left accept order [] in
  let result := ents (doc_of (mask_entities_and_contacts nlp txt0)) in
  Permutation order cands /\
  StronglySorted (goes_first tks) order /\
  (forall k, filter (has_key tks k) order = filter (has_key tks k) cands) /\
  (forall pre c,
      let before := fold_left accept pre [] in
      ((forall a, In a before -> ~ share_char c a) ->
       fold_left accept (pre ++ [c]) [] = before ++ [c]) /\
      ((exists a, In a before /\ share_char c a) ->
       fold_left accept (pre ++ [c]) [] = before)) /\
  Permutation result accepted /\
  StronglySorted (fun a b => token_start tks a <= token_start tks b) result /\
  ForallOrdPairs
    (fun a b => end_char a <= start_char b \/ end_char b <= start_char a)
    result /\
  (forall c, In c cands ->
      In c result \/
      exists a, In a result /\ share_char c a /\ goes_first tks a c) /\
  (forall i j s e s' e' sp,
      in_text_order tks ->
      nth_error tks i = Some (s, e) -> nth_error tks j = Some (s', e') ->
      start_char sp = s -> end_char sp = e' ->
      token_start tks sp = i /\ token_end tks sp = S j /\
      token_len tks sp = (Z.of_nat j + 1 - Z.of_nat i)%Z).
Proof.
  cbv zeta. rewrite doc_spec. cbn [set_ents ents].
  split; [apply sort_order_perm|].
  split; [apply sort_order_sorted|].
  split; [intros k; apply sort_order_stable|].
  split; [|split; [apply filter_spans_perm|]].
  - intros pre c. rewrite accept_snoc. cbv zeta.
    destruct (existsb (overlaps c) (fold_left accept pre [])) eqn:E; split.
    + intros H. apply existsb_exists in E. destruct E as (a & Ha & Hov).
      apply overlaps_spec in Hov. now destruct (H a Ha).
    + reflexivity.
    + reflexivity.
    + intros (a & Ha & Hs). apply overlaps_spec in Hs.
      assert (existsb (overlaps c) (fold_left accept pre []) = true)
        by (apply existsb_exists; eauto).
      congruence.
  - split; [apply filter_spans_sorted|]. split; [|split].
    + eapply ForallOrdPairs_weaken; [|apply filter_spans_disjoint].
      intros a b H. now apply disjoint_spec.
    + intros c Hc.
      destruct (filter_spans_first_wins (tokens (nlp txt0)) _ c Hc)
        as [H|(a & Ha & Hov & Hg)]; [now left|].
      right. exists a. split; [exact Ha|]. split; [|exact Hg].
      now apply overlaps_spec.
    + intros i j s e s' e' sp O Ni Nj Hs He.
      destruct (token_index (tokens (nlp txt0)) i s e sp O Ni) as (Ts & _).
      destruct (token_index (tokens (nlp txt0)) j s' e' sp O Nj) as (_ & Te).
      specialize (Ts Hs). specialize (Te He).
      split; [exact Ts|]. split; [exact Te|].
      unfold token_len. rewrite Ts, Te. lia.
Qed.

Lemma C6_most_tokens_first_witness :
  In (mkSpan 9 27 "TELEFONE") (candidates Sample.ana_doc Sample.ana_text) /\
  (exists a, In a (fold_left accept [mkSpan 0 17 "PER"] []) /\
             share_char (mkSpan 9 27 "TELEFONE") a) /\
  fold_left accept ([mkSpan 0 17 "PER"] ++ [mkSpan 9 27 "TELEFONE"]) []
    = [mkSpan 0 17 "PER"] /\
  fold_left accept ([] ++ [mkSpan 0 17 "PER"]) [] = [mkSpan 0 17 "PER"] /\
  ents (doc_of (mask_entities_and_contacts Sample.ana_nlp Sample.ana_text))
    = [mkSpan 0 17 "PER"] /\
  (exists a,
    In a (ents (doc_of (mask_entities_and_contacts
                          Sample.ana_nlp Sample.ana_text))) /\
    share_char (mkSpan 9 27 "TELEFONE") a /\
    goes_first (tokens Sample.ana_doc) a (mkSpan 9 27 "TELEFONE")) /\
  in_text_order (tokens Sample.ana_doc) /\
  token_len (tokens Sample.ana_doc) (mkSpan 0 17 "PER") = 4%Z /\
  token_len (tokens Sample.ana_doc) (mkSpan 9 27 "TELEFONE") = 2%Z.
Proof.
  assert (H : In (mkSpan 9 27 "TELEFONE")
                 (candidates (Sample.ana_nlp Sample.ana_text) Sample.ana_text)).
  { right. left. reflexivity. }
  assert (B : exists a, In a (fold_left accept [mkSpan 0 17 "PER"] []) /\
                        share_char (mkSpan 9 27 "TELEFONE") a).
  { exists (mkSpan 0 17 "PER"). split; [now left|]. unfold share_char. simpl. lia. }
  assert (N : forall a, In a (fold_left accept [] []) ->
                        ~ share_char (mkSpan 0 17 "PER") a).
  { intros a []. }
  assert (O : in_text_order (tokens (Sample.ana_nlp Sample.ana_text))).
  { split; simpl; repeat constructor; simpl; lia. }
  destruct (C6_most_tokens_first Sample.ana_nlp Sample.ana_text)
    as (_ & _ & _ & A & P & _ & _ & W & T).
  split; [exact H|]. split; [exact B|].
  split; [exact (proj2 (A [mkSpan 0 17 "PER"] (mkSpan 9 27 "TELEFONE")) B)|].
  split; [exact (proj1 (A [] (mkSpan 0 17 "PER")) N)|].
  split; [vm_compute; reflexivity|].
  split.
  { destruct (W _ H) as [Hin|Hex]; [|exact Hex].
    vm_compute in Hin. destruct Hin as [Hin|[]]. discriminate Hin. }
  split; [exact O|].
  split.
  - exact (proj2 (proj2 (T 0 3 0 3 9 17 (mkSpan 0 17 "PER") O
                           eq_refl eq_refl eq_refl eq_refl))).
  - exact (proj2 (proj2 (T 3 4 9 17 18 27 (mkSpan 9 27 "TELEFONE") O
                           eq_refl eq_refl eq_refl eq_refl))).
Defined.

(** C6 as stated fails: in "Ana e Jo telefone 1234-5678", with
    "Ana e Jo telefone" tagged PER, the phone number (9,27) is longer in
    characters than the entity (0,17), yet the entity is accepted and
    the phone number is discarded: the entity has more tokens.  In
    "telefone 1234-5678 Bradesco", with "1234-5678 Bradesco" tagged ORG,
    the entity (9,27) and the phone number (0,18) are as long, the entity
    was inserted first, yet the phone number is accepted: it has as many
    tokens and starts earlier. *)
Lemma C6_not_longest_in_characters :
  (span_len (mkSpan 0 17 "PER") < span_len (mkSpan 9 27 "TELEFONE") /\
   candidates Sample.ana_doc Sample.ana_text
     = [mkSpan 0 17 "PER"; mkSpan 9 27 "TELEFONE"] /\
   ents (doc_of (mask_entities_and_contacts Sample.ana_nlp Sample.ana_text))
     = [mkSpan 0 17 "PER"] /\
   reconcile_as_stated (candidates Sample.ana_doc Sample.ana_text)
     = [mkSpan 9 27 "TELEFONE"] /\
   ~ reconciled_as_stated Sample.ana_nlp Sample.ana_text) /\
  (span_len (mkSpan 9 27 "ORG") = span_len (mkSpan 0 18 "TELEFONE") /\
   candidates Sample.banco_doc Sample.banco_text
     = [mkSpan 9 27 "ORG"; mkSpan 0 18 "TELEFONE"] /\
   ents (doc_of (mask_entities_and_contacts Sample.banco_nlp Sample.banco_text))
     = [mkSpan 0 18 "TELEFONE"] /\
   reconcile_as_stated (candidates Sample.banco_doc Sample.banco_text)
     = [mkSpan 9 27 "ORG"] /\
   ~ reconciled_as_stated Sample.banco_nlp Sample.banco_text).
Proof.
  split.
  - split; [unfold span_len; cbn [start_char end_char]; lia|].
    split; [vm_compute; reflexivity|].
    split; [vm_compute; reflexivity|].
    split; [vm_compute; reflexivity|].
    intros H. destruct (H (mkSpan 0 17 "PER")) as [H1 _].
    assert (I : In (mkSpan 0 17 "PER")
                   (ents (doc_of (mask_entities_and_contacts
                                    Sample.ana_nlp Sample.ana_text))))
      by (vm_compute; auto).
    apply H1 in I. vm_compute in I. destruct I as [I|[]]. discriminate I.
  - split; [reflexivity|]. split; [vm_compute; reflexivity|].
    split; [vm_compute; reflexivity|]. split; [vm_compute; reflexivity|].
    intros H. destruct (H (mkSpan 0 18 "TELEFONE")) as [H1 _].
    assert (I : In (mkSpan 0 18 "TELEFONE")
                   (ents (doc_of (mask_entities_and_contacts
                                    Sample.banco_nlp Sample.banco_text))))
      by (vm_compute; auto).
    apply H1 in I. vm_compute in I. destruct I as [I|[]]. discriminate I.
Qed.

(** C7: the report lists first the records of the reported extractor
    entities, in the order of [doc.ents] (ascending when [doc.ents] is in
    document order), then the records of the kept matches of the rules
    CPF, CNPJ, TELEFONE and EMAIL in this order, each rule's records
    carrying its label and going from left to right. *)
Theorem C7_report_order (nlp : str -> Doc) (txt0 : str) :
  let doc := nlp txt0 in
  let records := map (entity_of txt0) in
  report_of (mask_entities_and_contacts nlp txt0) =
    records (reported doc)
    ++ records (kept doc txt0 (mkRule "CPF" CPF_pattern))
    ++ records (kept doc txt0 (mkRule "CNPJ" CNPJ_pattern))
    ++ records (kept doc txt0 (mkRule "TELEFONE" TELEFONE_pattern))
    ++ records (kept doc txt0 (mkRule "EMAIL" EMAIL_pattern)) /\
  reported doc
    = filter (fun ent => str_in (label_ ent) linguistic_labels) (ents doc) /\
  (StronglySorted starts_before (ents doc) ->
   StronglySorted starts_before (reported doc)) /\
  (forall item,
      StronglySorted starts_before (kept doc txt0 item) /\
      Forall (fun sp => label_ sp = rule_label item) (kept doc txt0 item)).
Proof.
  cbv zeta. rewrite report_spec. unfold raw. repeat split.
  - cbn [patterns flat_map]. rewrite app_nil_r, !map_app. reflexivity.
  - unfold reported. generalize (ents (nlp txt0)).
    induction 1 as [|sp l Hs IH Hsp]; cbn [filter]; [constructor|].
    destruct (str_in (label_ sp) linguistic_labels); [|exact IH].
    constructor; [exact IH|]. apply Forall_forall. intros x Hx.
    apply filter_In in Hx. rewrite Forall_forall in Hsp. now apply Hsp.
  - apply kept_ascending.
  - apply Forall_forall. intros sp Hsp. now apply kept_In in Hsp.
Qed.

Lemma C7_report_order_witness :
  StronglySorted starts_before (ents (Sample.cpf_nlp Sample.cpf_text)) /\
  StronglySorted starts_before (reported (Sample.cpf_nlp Sample.cpf_text)) /\
  report_of (mask_entities_and_contacts Sample.cpf_nlp Sample.cpf_text) =
    [mkEntity (txt "CPF") "ORG"; mkEntity (txt "CPF 123.456.789-00") "CPF"].
Proof.
  assert (H : StronglySorted starts_before (ents (Sample.cpf_nlp Sample.cpf_text))).
  { repeat constructor. }
  destruct (C7_report_order Sample.cpf_nlp Sample.cpf_text) as (E & _ & S & _).
  split; [exact H|]. split; [exact (S H)|].
  rewrite E. vm_compute. reflexivity.
Defined.

(** C8: for every rule, the matches are those of the leftmost-longest
    scan of the whole original text for non-overlapping matches (the one
    list such a scan can give), the scan does not depend on the case of
    the text, the kept spans of the rule are the contributions of these
    matches, and a contribution is a span with the rule's label and the
    start and end of the match. *)
Theorem C8_rule_scan (nlp : str -> Doc) (txt0 : str) (item : Rule) :
  In item patterns ->
  let ms := Re.finditer (pattern item) txt0 Re.IGNORECASE in
  Re.leftmost_longest Re.IGNORECASE (pattern item) txt0 0 ms /\
  (forall ms', Re.leftmost_longest Re.IGNORECASE (pattern item) txt0 0 ms' ->
               ms' = ms) /\
  (forall txt1, map Re.lower txt1 = map Re.lower txt0 ->
                Re.finditer (pattern item) txt1 Re.IGNORECASE = ms) /\
  kept (nlp txt0) txt0 item = flat_map (contribution (nlp txt0) item) ms /\
  (forall m, contribution (nlp txt0) item m = [] \/
             contribution (nlp txt0) item m
               = [mkSpan (fst m) (snd m) (rule_label item)]) /\
  new_ents (collect (nlp txt0) txt0)
    = ents (nlp txt0) ++ flat_map (kept (nlp txt0) txt0) patterns /\
  Anonimizador.spans (collect (nlp txt0) txt0)
    = map interval_of (reported (nlp txt0)
                         ++ flat_map (kept (nlp txt0) txt0) patterns).
Proof.
  intros Hi. cbv zeta. repeat split.
  - apply finditer_leftmost_longest.
    + now apply rules_nonempty.
    + intros i. now apply rules_longest.
  - intros ms' H. apply (leftmost_longest_unique _ _ _ _ _ _ H).
    apply finditer_leftmost_longest.
    + now apply rules_nonempty.
    + intros i. now apply rules_longest.
  - intros txt1 E. now apply finditer_same.
  - intros m.
    destruct (contribution_cases (nlp txt0) item m) as [(_ & E)|(_ & E)]; auto.
  - now destruct (collect_spec (nlp txt0) txt0) as (_ & _ & ->).
  - now destruct (collect_spec (nlp txt0) txt0) as (-> & _).
Qed.

Lemma C8_rule_scan_witness :
  In (mkRule "CPF" CPF_pattern) patterns /\
  Re.leftmost_longest Re.IGNORECASE CPF_pattern Sample.cpf_text 0 [(0, 18)] /\
  Re.finditer CPF_pattern (txt "cpf 123.456.789-00") Re.IGNORECASE = [(0, 18)] /\
  kept Sample.cpf_doc Sample.cpf_text (mkRule "CPF" CPF_pattern)
    = [mkSpan 0 18 "CPF"].
Proof.
  assert (H : In (mkRule "CPF" CPF_pattern) patterns) by (left; reflexivity).
  destruct (C8_rule_scan Sample.cpf_nlp Sample.cpf_text (mkRule "CPF" CPF_pattern) H)
    as (LL & _ & Case & K & _).
  split; [exact H|].
  split; [exact LL|].
  split; [apply (Case (txt "cpf 123.456.789-00")); vm_compute; reflexivity|].
  vm_compute. reflexivity.
Defined.

(** C9: when the extractor gives only the four linguistic labels,
    every label in the report and every label in the reconciled entity
    set of the returned document is one of PER, ORG, LOC, GPE, CPF, CNPJ,
    TELEFONE, EMAIL. *)
Theorem C9_labels (nlp : str -> Doc) (txt0 : str) :
  Forall (fun sp => In (label_ sp) linguistic_labels) (ents (nlp txt0)) ->
  let r := mask_entities_and_contacts nlp txt0 in
  all_labels = ["PER"; "ORG"; "LOC"; "GPE"; "CPF"; "CNPJ"; "TELEFONE"; "EMAIL"]%string /\
  Forall (fun e => In (label e) all_labels) (report_of r) /\
  Forall (fun sp => In (label_ sp) all_labels) (ents (doc_of r)).
Proof.
  intros H. cbv zeta. rewrite report_spec, doc_spec.
  split; [reflexivity|]. split.
  - apply Forall_map. apply raw_labels.
  - apply Forall_forall. intros sp Hsp. cbn [set_ents ents] in Hsp.
    apply filter_spans_incl in Hsp.
    pose proof (candidates_labels (nlp txt0) txt0 H) as Hc.
    rewrite Forall_forall in Hc. now apply Hc.
Qed.

Lemma C9_labels_witness :
  Forall (fun sp => In (label_ sp) linguistic_labels)
         (ents (Sample.cpf_nlp Sample.cpf_text)) /\
  Forall (fun e => In (label e) all_labels)
         (report_of (mask_entities_and_contacts Sample.cpf_nlp Sample.cpf_text)) /\
  Forall (fun sp => In (label_ sp) all_labels)
         (ents (doc_of (mask_entities_and_contacts Sample.cpf_nlp Sample.cpf_text))).
Proof.
  assert (H : Forall (fun sp => In (label_ sp) linguistic_labels)
                     (ents (Sample.cpf_nlp Sample.cpf_text))).
  { constructor; [simpl; auto | constructor]. }
  split; [exact H|].
  exact (proj2 (C9_labels Sample.cpf_nlp Sample.cpf_text H)).
Defined.

(** C10: an extractor entity whose label is not PER, ORG, LOC or GPE
    leaves the collected spans, the masked text and the report as they
    are without it, yet it is among the candidates of the overlap
    filter, whose result becomes the entities of the returned document;
    such an entity can be among them while its text is unmasked and the
    report is empty. *)
Theorem C10_unlisted_label (nlp : str -> Doc) (txt0 : str)
    (before after : list Span) (ent : Span) :
  ents (nlp txt0) = before ++ ent :: after ->
  str_in (label_ ent) linguistic_labels = false ->
  let r := mask_entities_and_contacts nlp txt0 in
  let without := set_ents (nlp txt0) (before ++ after) in
  raw (nlp txt0) txt0 = raw without txt0 /\
  masked_of r = Mask.mask_text txt0 (map interval_of (raw without txt0)) /\
  report_of r = map (entity_of txt0) (raw without txt0) /\
  In ent (candidates (nlp txt0) txt0) /\
  ents (doc_of r)
  = filter_spans (tokens (nlp txt0)) (candidates (nlp txt0) txt0) /\
  (exists nlp' txt' ent',
      In ent' (ents (nlp' txt')) /\
      str_in (label_ ent') linguistic_labels = false /\
      In ent' (ents (doc_of (mask_entities_and_contacts nlp' txt'))) /\
      masked_of (mask_entities_and_contacts nlp' txt') = txt' /\
      report_of (mask_entities_and_contacts nlp' txt') = []).
Proof.
  intros E L. cbv zeta.
  assert (R : raw (nlp txt0) txt0
              = raw (set_ents (nlp txt0) (before ++ after)) txt0).
  { unfold raw, reported. cbn [set_ents ents]. rewrite E.
    rewrite !filter_app. cbn [filter]. rewrite L. reflexivity. }
  rewrite masked_spec, report_spec, doc_spec, <- R. repeat split.
  - unfold candidates. rewrite E. apply in_or_app. left.
    apply in_or_app. right. now left.
  - exists Sample.misc_nlp, Sample.misc_text, (mkSpan 0 13 "MISC").
    repeat split; vm_compute; auto.
Qed.

Lemma C10_unlisted_label_witness :
  ents (Sample.misc_nlp Sample.misc_text) = [] ++ mkSpan 0 13 "MISC" :: [] /\
  str_in "MISC" linguistic_labels = false /\
  raw (Sample.misc_nlp Sample.misc_text) Sample.misc_text = [] /\
  In (mkSpan 0 13 "MISC")
     (ents (doc_of (mask_entities_and_contacts Sample.misc_nlp Sample.misc_text))).
Proof.
  assert (E : ents (Sample.misc_nlp Sample.misc_text)
              = [] ++ mkSpan 0 13 "MISC" :: []) by reflexivity.
  assert (L : str_in (label_ (mkSpan 0 13 "MISC")) linguistic_labels = false)
    by reflexivity.
  destruct (C10_unlisted_label Sample.misc_nlp Sample.misc_text [] []
              (mkSpan 0 13 "MISC") E L) as (R & _ & _ & _ & D & _).
  split; [exact E|]. split; [exact L|].
  split; [rewrite R; vm_compute; reflexivity|].
  rewrite D. vm_compute. auto.
Defined.

End SpecProperties.

(** * Further properties of the masking half *)
Section MaskMore.
Import Mask Measure.

Variable text : str.

Lemma mask_positions_app_tail (cov : nat -> bool) (t1 t2 : str) (i : nat) (o : bool) :
  (forall j, i + length t1 <= j -> cov j = false) ->
  mask_positions cov i o (t1 ++ t2) = mask_positions cov i o t1 ++ t2.
Proof.
  revert i o. induction t1 as [|c t1 IH]; intros i o H.
  - simpl. apply mask_positions_none. intros j Hj. apply H. simpl. lia.
  - cbn [app mask_positions]. destruct (cov i).
    + rewrite IH; [now rewrite app_assoc|]. intros j Hj. apply H. simpl. lia.
    + rewrite IH; [reflexivity|]. intros j Hj. apply H. simpl. lia.
Qed.

Lemma merge_from_length (rest : list interval) (cur : interval) :
  1 <= length (merge_from cur rest) <= S (length rest).
Proof.
  revert cur. induction rest as [|sp rest IH]; intros cur; simpl; [lia|].
  destruct (fst sp <=? snd cur).
  - specialize (IH (fst cur, Nat.max (snd cur) (snd sp))). lia.
  - specialize (IH sp). simpl. lia.
Qed.

Lemma rebuild_length (m : list interval) (c : nat) :
  chain c m -> Forall (fun sp => snd sp <= length text) m -> c <= length text ->
  length (rebuild text c m) + list_sum (map width m)
  = (length text - c) + 8 * length m.
Proof.
  revert c. induction m as [|[a b] m IH]; intros c Hc Hb Hl.
  - simpl. unfold Py.slice_from. rewrite length_skipn. lia.
  - simpl in Hc. destruct Hc as (Hca & Hab & Hm). simpl in Hca, Hab.
    inversion Hb as [|? ? Hbl Hb']; subst. simpl in Hbl.
    cbn [rebuild fst snd map list_sum length]. rewrite !length_app.
    rewrite slice_length by lia.
    assert (IH' := IH b (chain_weaken _ _ _ (Nat.le_succ_diag_r b) Hm) Hb' Hbl).
    unfold width at 1. simpl fst. simpl snd.
    change (length MASK) with 8.
    change (list_sum (b - a :: map width m)) with (b - a + list_sum (map width m)).
    lia.
Qed.

Lemma filter_length_all (A : Type) (f : A -> bool) (l : list A) :
  (forall x, In x l -> f x = true) -> length (filter f l) = length l.
Proof.
  induction l as [|x l IH]; intros H; simpl; [reflexivity|].
  rewrite (H x (or_introl eq_refl)). simpl. f_equal. apply IH.
  intros y Hy. apply H. now right.
Qed.

Lemma filter_length_none (A : Type) (f : A -> bool) (l : list A) :
  (forall x, In x l -> f x = false) -> length (filter f l) = 0.
Proof.
  induction l as [|x l IH]; intros H; simpl; [reflexivity|].
  rewrite (H x (or_introl eq_refl)). apply IH.
  intros y Hy. apply H. now right.
Qed.

Lemma seq_split3 (c a b n : nat) :
  c <= a -> a <= b -> b <= n ->
  seq c (n - c) = seq c (a - c) ++ seq a (b - a) ++ seq b (n - b).
Proof.
  intros H1 H2 H3.
  replace (n - c) with ((a - c) + ((b - a) + (n - b))) by lia.
  rewrite seq_app. f_equal. replace (c + (a - c)) with a by lia.
  rewrite seq_app. f_equal. f_equal. lia.
Qed.

Lemma chain_covered_count (m : list interval) (c : nat) :
  chain c m -> Forall (fun sp => snd sp <= length text) m -> c <= length text ->
  length (filter (covered m) (seq c (length text - c))) = list_sum (map width m).
Proof.
  revert c. induction m as [|[a b] m IH]; intros c Hc Hb Hl.
  - simpl. apply filter_length_none. reflexivity.
  - simpl in Hc. destruct Hc as (Hca & Hab & Hm). simpl in Hca, Hab.
    inversion Hb as [|? ? Hbl Hb']; subst. simpl in Hbl.
    pose proof (chain_after _ _ Hm) as Hafter. rewrite Forall_forall in Hafter.
    rewrite (seq_split3 c a b (length text)) by lia.
    rewrite !filter_app, !length_app.
    rewrite filter_length_none.
    2:{ intros x Hx. apply in_seq in Hx. apply covered_false.
        intros sp [<-|Hin]; simpl; [lia|]. specialize (Hafter _ Hin). lia. }
    rewrite filter_length_all.
    2:{ intros x Hx. apply in_seq in Hx. apply covered_spec.
        exists (a, b). simpl. split; [auto | lia]. }
    rewrite length_seq.
    rewrite (filter_ext_in (covered ((a, b) :: m)) (covered m)).
    2:{ intros x Hx. apply in_seq in Hx. simpl.
        replace (inside (a, b) x) with false; [reflexivity|].
        symmetry. apply not_true_iff_false. rewrite inside_spec. simpl. lia. }
    rewrite (IH b (chain_weaken _ _ _ (Nat.le_succ_diag_r b) Hm) Hb' Hbl).
    cbn [map]. change (list_sum (width (a, b) :: map width m))
      with (width (a, b) + list_sum (map width m)).
    reflexivity.
Qed.

Lemma sorted_of_sorted (A : Type) (key : A -> nat) (l : list A) :
  StronglySorted (Py.key_le key) l -> Py.sorted key l = l.
Proof.
  induction 1 as [|x l Hs IH Hx]; [reflexivity|].
  unfold Py.sorted in *. cbn [fold_right]. rewrite IH.
  destruct l as [|y l]; [reflexivity|]. cbn [Py.insert_asc].
  inversion Hx as [|? ? Hxy _]; subst. unfold Py.key_le in Hxy.
  now replace (key x <=? key y) with true by (symmetry; now apply Nat.leb_le).
Qed.

Lemma chain_sorted (lo : nat) (m : list interval) :
  chain lo m -> StronglySorted starts_le m.
Proof.
  revert lo. induction m as [|sp m IH]; intros lo; simpl; [constructor|].
  intros (H1 & H2 & H3). constructor; [now apply (IH _ H3)|].
  eapply Forall_impl; [|apply (chain_after _ _ H3)].
  unfold starts_le, Py.key_le. simpl. intros; lia.
Qed.

Lemma merge_from_chain_id (rest : list interval) (cur : interval) (lo : nat) :
  chain lo (cur :: rest) -> merge_from cur rest = cur :: rest.
Proof.
  revert cur lo. induction rest as [|sp rest IH]; intros cur lo; [reflexivity|].
  intros (H1 & H2 & H3). cbn [merge_from].
  pose proof H3 as (G1 & _).
  replace (fst sp <=? snd cur) with false by (symmetry; apply Nat.leb_gt; lia).
  f_equal. now apply (IH sp (S (snd cur))).
Qed.

Lemma merge_spans_chain_id (lo : nat) (m : list interval) :
  chain lo m -> merge_spans (Py.sorted fst m) = m.
Proof.
  intros H.
  assert (E : Py.sorted fst m = m)
    by (apply sorted_of_sorted; exact (chain_sorted _ _ H)).
  rewrite E.
  destruct m as [|sp m]; [reflexivity|].
  rewrite merge_spans_cons. now apply (merge_from_chain_id _ _ lo).
Qed.

End MaskMore.

Section MaskProperties.
Import Mask Measure.

(** X1: on valid spans the masked text depends only on which positions
    of the text the spans cover: two span lists covering the same
    positions give the same masked text; in particular the order of the
    spans and repeated spans do not matter. *)
Theorem X1_mask_by_coverage (text : str) (l l' : list interval) :
  Forall (valid_span text) l -> Forall (valid_span text) l' ->
  ((forall i, i < length text -> covered l i = covered l' i) ->
   mask_text text l = mask_text text l') /\
  (Permutation l l' -> mask_text text l = mask_text text l') /\
  mask_text text (l ++ l) = mask_text text l.
Proof.
  intros H H'.
  assert (G : forall k k', Forall (valid_span text) k -> Forall (valid_span text) k' ->
                (forall i, i < length text -> covered k i = covered k' i) ->
                mask_text text k = mask_text text k').
  { intros k k' Hk Hk' E. rewrite !mask_text_positions by assumption.
    apply mask_positions_ext. intros j Hj. apply E. simpl in Hj. lia. }
  split; [now apply G|]. split.
  - intros P. apply G; auto. intros i _. now apply covered_perm.
  - apply G; auto; [apply Forall_app; now split|].
    intros i _. unfold covered. rewrite existsb_app. apply orb_diag.
Qed.

Lemma X1_mask_by_coverage_witness :
  Forall (valid_span Sample.cpf_text) [(0, 3); (0, 18)] /\
  Forall (valid_span Sample.cpf_text) [(0, 18); (0, 3)] /\
  mask_text Sample.cpf_text [(0, 3); (0, 18)]
  = mask_text Sample.cpf_text [(0, 18); (0, 3)].
Proof.
  assert (H : Forall (valid_span Sample.cpf_text) [(0, 3); (0, 18)]).
  { vm_compute. repeat constructor. }
  assert (H' : Forall (valid_span Sample.cpf_text) [(0, 18); (0, 3)]).
  { vm_compute. repeat constructor. }
  split; [exact H|]. split; [exact H'|].
  apply (proj1 (proj2 (X1_mask_by_coverage Sample.cpf_text _ _ H H'))).
  apply perm_swap.
Defined.

(** X2: the merge pass never yields more intervals than there are
    spans, so the masked text has at most one token per span, and it
    yields none exactly when there is no span. *)
Theorem X2_token_count (spans : list interval) :
  length (merged_of spans) <= length spans /\
  (merged_of spans = [] <-> spans = []).
Proof.
  unfold merged_of.
  pose proof (sorted_perm _ (@fst nat nat) spans) as P.
  pose proof (Permutation_length P) as L.
  destruct (Py.sorted fst spans) as [|sp l] eqn:E.
  - apply Permutation_nil in P. subst. simpl. split; [lia | tauto].
  - rewrite merge_spans_cons. pose proof (merge_from_length l sp) as Hm.
    simpl in L. unfold interval in *. split; [lia|]. split.
    + intros Em. rewrite Em in Hm. simpl in Hm. lia.
    + intros ->. simpl in L. discriminate.
Qed.

(** X3: on valid spans the length of the masked text is the length of
    the text, minus the number of covered positions, plus eight for each
    merged interval. *)
Theorem X3_masked_length (text : str) (spans : list interval) :
  Forall (valid_span text) spans ->
  length (mask_text text spans) + covered_count text spans
  = length text + 8 * length (merged_of spans).
Proof.
  intros Hv. destruct (mask_text_chain _ _ Hv) as (m & Em & Hc & Hb & Hcov).
  unfold merged_of, mask_text, covered_count. rewrite Em, build_masked_rebuild.
  pose proof (rebuild_length text m 0 Hc Hb (Nat.le_0_l _)) as R.
  pose proof (chain_covered_count text m 0 Hc Hb (Nat.le_0_l _)) as K.
  rewrite Nat.sub_0_r in R, K.
  rewrite (filter_ext (covered spans) (covered m)) by (intros; symmetry; apply Hcov).
  lia.
Qed.

Lemma X3_masked_length_witness :
  Forall (valid_span Sample.cpf_text) [(4, 18)] /\
  length (mask_text Sample.cpf_text [(4, 18)]) + 14 = 18 + 8 * 1.
Proof.
  assert (H : Forall (valid_span Sample.cpf_text) [(4, 18)]).
  { vm_compute. repeat constructor. }
  split; [exact H | exact (X3_masked_length Sample.cpf_text [(4, 18)] H)].
Defined.

(** X4: on valid spans that all lie between the offsets [a] and [b],
    the text before [a] and the text from [b] on come out unchanged,
    around the masking of the part between them. *)
Theorem X4_outside_untouched (text : str) (spans : list interval) (a b : nat) :
  Forall (valid_span text) spans ->
  Forall (fun sp => a <= fst sp /\ snd sp <= b) spans ->
  a <= b -> b <= length text ->
  mask_text text spans
  = firstn a text
    ++ mask_positions (covered spans) a false (Py.slice text a b)
    ++ skipn b text.
Proof.
  intros Hv Hr Hab Hb. rewrite mask_text_positions by assumption.
  rewrite Forall_forall in Hr.
  assert (E : text = firstn a text ++ Py.slice text a b ++ skipn b text).
  { rewrite <- (slice_split text a b Hab). symmetry. apply firstn_skipn. }
  assert (La : length (firstn a text) = a) by (rewrite length_firstn; lia).
  transitivity (mask_positions (covered spans) 0 false
                  (firstn a text ++ Py.slice text a b ++ skipn b text));
    [now rewrite <- E|].
  rewrite mask_positions_copy.
  2:{ intros j Hj. rewrite La in Hj. apply covered_false.
      intros sp Hin. specialize (Hr sp Hin). lia. }
  rewrite La. simpl. f_equal. apply mask_positions_app_tail.
  intros j Hj. rewrite slice_length in Hj by lia.
  apply covered_false. intros sp Hin. specialize (Hr sp Hin). lia.
Qed.

Lemma X4_outside_untouched_witness :
  Forall (valid_span Sample.cpf_text) [(4, 7); (8, 11)] /\
  Forall (fun sp => 4 <= fst sp /\ snd sp <= 11) [(4, 7); (8, 11)] /\
  mask_text Sample.cpf_text [(4, 7); (8, 11)]
  = txt "CPF " ++ (MASK ++ txt "." ++ MASK) ++ txt ".789-00".
Proof.
  assert (H : Forall (valid_span Sample.cpf_text) [(4, 7); (8, 11)]).
  { vm_compute. repeat constructor. }
  assert (R : Forall (fun sp => 4 <= fst sp /\ snd sp <= 11) [(4, 7); (8, 11)]).
  { repeat constructor; simpl; lia. }
  split; [exact H|]. split; [exact R|].
  rewrite (X4_outside_untouched Sample.cpf_text _ 4 11 H R);
    [reflexivity | lia | vm_compute; lia].
Defined.

(** X5: when valid spans cover every position of a non-empty text, the
    masked text is the mask token alone. *)
Theorem X5_all_covered (text : str) (spans : list interval) :
  Forall (valid_span text) spans ->
  text <> [] ->
  (forall i, i < length text -> covered spans i = true) ->
  mask_text text spans = MASK.
Proof.
  intros Hv Hn Hall. rewrite mask_text_positions by assumption.
  rewrite <- (app_nil_r text).
  rewrite mask_positions_run; [apply app_nil_r | exact Hn |].
  intros j Hj. apply Hall. simpl in Hj. lia.
Qed.

Lemma X5_all_covered_witness :
  Forall (valid_span Sample.cpf_text) [(0, 3); (2, 18)] /\
  mask_text Sample.cpf_text [(0, 3); (2, 18)] = MASK.
Proof.
  assert (H : Forall (valid_span Sample.cpf_text) [(0, 3); (2, 18)]).
  { vm_compute. repeat constructor. }
  split; [exact H|].
  apply (X5_all_covered Sample.cpf_text _ H); [discriminate|].
  intros i Hi. change (length Sample.cpf_text) with 18 in Hi.
  apply covered_spec.
  destruct (Nat.lt_ge_cases i 3).
  - exists (0, 3). simpl. split; [auto | lia].
  - exists (2, 18). simpl. split; [auto | lia].
Defined.

(** X6: on valid spans the merged intervals are valid spans themselves,
    merging them again gives them back, and masking the text with them
    gives the same masked text. *)
Theorem X6_merge_fixpoint (text : str) (spans : list interval) :
  Forall (valid_span text) spans ->
  Forall (valid_span text) (merged_of spans) /\
  merged_of (merged_of spans) = merged_of spans /\
  mask_text text (merged_of spans) = mask_text text spans.
Proof.
  intros Hv. destruct (mask_text_chain _ _ Hv) as (m & Em & Hc & Hb & Hcov).
  assert (Id : merged_of m = m) by (apply (merge_spans_chain_id 0); exact Hc).
  unfold merged_of in *. rewrite Em. repeat split.
  - pose proof (chain_after _ _ Hc) as Ha.
    rewrite Forall_forall in *. intros sp Hin. split.
    + now apply Ha.
    + now apply Hb.
  - exact Id.
  - unfold mask_text. now rewrite Id, Em.
Qed.

Lemma X6_merge_fixpoint_witness :
  Forall (valid_span Sample.cpf_text) [(4, 18); (0, 3); (2, 5)] /\
  merged_of [(4, 18); (0, 3); (2, 5)] = [(0, 18)] /\
  merged_of (merged_of [(4, 18); (0, 3); (2, 5)])
  = merged_of [(4, 18); (0, 3); (2, 5)].
Proof.
  assert (H : Forall (valid_span Sample.cpf_text) [(4, 18); (0, 3); (2, 5)]).
  { vm_compute. repeat constructor. }
  split; [exact H|]. split; [reflexivity|].
  exact (proj1 (proj2 (X6_merge_fixpoint Sample.cpf_text _ H))).
Defined.

End MaskProperties.

(** * Further properties of the rules *)
Section ScanMore.
Import Re.

Variable fl : flag.
Variable r : regex.
Variable t : str.

Lemma scan_matches (fuel pos : nat) :
  Forall (fun m => matches fl t r (fst m) (snd m)) (scan fl r t fuel pos).
Proof.
  revert pos. induction fuel as [|fuel IH]; intros pos; simpl; [constructor|].
  destruct (length t <? pos); [constructor|].
  destruct (match_at fl r t pos) as [e|] eqn:M; [|apply IH].
  constructor; [|apply IH]. simpl. now apply match_at_Some.
Qed.

Lemma finditer_matches (m : nat * nat) :
  In m (finditer r t fl) -> matches fl t r (fst m) (snd m).
Proof.
  intros H. pose proof (scan_matches (S (length t)) 0) as F.
  rewrite Forall_forall in F. now apply F.
Qed.

Lemma scan_apart (fuel pos : nat) :
  StronglySorted (fun m m' => snd m <= fst m') (scan fl r t fuel pos).
Proof.
  revert pos. induction fuel as [|fuel IH]; intros pos; simpl; [constructor|].
  destruct (length t <? pos); [constructor|].
  destruct (match_at fl r t pos) as [e|]; [|apply IH].
  constructor; [apply IH|].
  eapply Forall_impl; [|apply scan_from]. simpl. intros; lia.
Qed.

Lemma finditer_within (m : nat * nat) :
  0 < min_len r -> In m (finditer r t fl) -> fst m < snd m <= length t.
Proof.
  intros N H. apply finditer_matches in H.
  pose proof (matches_min_len _ _ _ _ _ H).
  pose proof (matches_range _ _ _ _ _ H) as [_ R]. lia.
Qed.

Lemma matches_seq_tail (r1 r2 : regex) (i j : nat) :
  matches fl t (Seq r1 r2) i j -> exists k, i <= k /\ matches fl t r2 k j.
Proof.
  intros (k & H1 & H2). exists k. split; [|exact H2].
  now apply matches_range in H1.
Qed.

End ScanMore.

Section ShapeFacts.
Import Re Shape.

Variable fl : flag.
Variable t : str.

Lemma slice_nil (i : nat) : Py.slice t i i = [].
Proof. unfold Py.slice. now rewrite Nat.sub_diag. Qed.

Lemma skipn_nth (i : nat) (x : ascii) :
  nth_error t i = Some x -> skipn i t = x :: skipn (S i) t.
Proof.
  revert i. induction t as [|y l IH]; intros [|i]; simpl; try discriminate.
  - now intros [= ->].
  - intros H. now apply IH.
Qed.

Lemma slice_cons (i j : nat) (x : ascii) :
  nth_error t i = Some x -> i < j -> Py.slice t i j = x :: Py.slice t (S i) j.
Proof.
  intros H L. unfold Py.slice. rewrite (skipn_nth i x H).
  replace (j - i) with (S (j - S i)) by lia. reflexivity.
Qed.

Lemma firstn_plus (A : Type) (a b : nat) (l : list A) :
  firstn (a + b) l = firstn a l ++ firstn b (skipn a l).
Proof.
  revert l. induction a as [|a IH]; intros l; [reflexivity|].
  destruct l as [|x l]; simpl; [now rewrite firstn_nil|].
  now rewrite IH.
Qed.

Lemma slice_app (i k j : nat) :
  i <= k -> k <= j -> Py.slice t i j = Py.slice t i k ++ Py.slice t k j.
Proof.
  intros H1 H2. unfold Py.slice.
  replace (j - i) with ((k - i) + (j - k)) by lia.
  rewrite firstn_plus, skipn_skipn. do 3 f_equal. lia.
Qed.

Lemma repeat_shape (p : ascii -> bool) (n i : nat) :
  (forall m, i <= m < i + n -> exists x, nth_error t m = Some x /\ p x = true) ->
  Forall2 (fun q c => q c = true) (repeat p n) (Py.slice t i (i + n)).
Proof.
  revert i. induction n as [|n IH]; intros i H.
  - rewrite Nat.add_0_r, slice_nil. constructor.
  - destruct (H i) as (x & Hx & Px); [lia|].
    rewrite (slice_cons i (i + S n) x Hx) by lia. simpl. constructor; [exact Px|].
    replace (i + S n) with (S i + n) by lia. apply IH.
    intros m Hm. apply H. lia.
Qed.

Lemma shape_spec (r : regex) (ps : list (ascii -> bool)) (i j : nat) :
  shape_of fl r = Some ps -> matches fl t r i j ->
  j = i + length ps /\ Forall2 (fun p c => p c = true) ps (Py.slice t i j).
Proof.
  revert ps i j. induction r as [|c|cs| |r1 IH1 r2 IH2|r IH|cs lo hi];
    intros ps i j; simpl.
  - intros [= <-] ->. rewrite slice_nil. split; [simpl; lia | constructor].
  - intros [= <-] (x & Hx & Lx & ->).
    rewrite (slice_cons i (S i) x Hx), slice_nil by lia.
    split; [simpl; lia | now repeat constructor].
  - intros [= <-] ((x & Hx & Mx) & ->).
    rewrite (slice_cons i (S i) x Hx), slice_nil by lia.
    split; [simpl; lia | now repeat constructor].
  - intros [= <-] (_ & ->). rewrite slice_nil. split; [simpl; lia | constructor].
  - destruct (shape_of fl r1) as [p1|]; [|discriminate].
    destruct (shape_of fl r2) as [p2|]; [|discriminate].
    intros [= <-] (k & H1 & H2).
    destruct (IH1 _ _ _ eq_refl H1) as (E1 & F1).
    destruct (IH2 _ _ _ eq_refl H2) as (E2 & F2).
    rewrite length_app. split; [lia|].
    rewrite (slice_app i k j) by lia. now apply Forall2_app.
  - discriminate.
  - destruct hi as [h|]; [|discriminate].
    destruct (lo =? h) eqn:E; [|discriminate]. apply Nat.eqb_eq in E. subst h.
    intros [= <-] (Hij & Hlo & Hhi & Hall). rewrite repeat_length.
    assert (j = i + lo) by lia. subst j. split; [reflexivity|].
    apply repeat_shape. exact Hall.
Qed.

Lemma fits_of (ps qs : list (ascii -> bool)) (l : str) :
  Forall2 (fun p c => p c = true) ps l ->
  Forall2 (fun (p q : ascii -> bool) => forall c, p c = true -> q c = true) ps qs ->
  fits qs l = true.
Proof.
  intros F. revert qs. induction F as [|p c ps l Hp F IH]; intros qs G.
  - inversion G; subst. reflexivity.
  - inversion G as [|? q ? qs' Hq G']; subst.
    specialize (IH _ G'). unfold fits in *. simpl.
    apply andb_true_iff in IH. destruct IH as [L A].
    apply andb_true_iff. split; [exact L|].
    now rewrite (Hq c Hp), A.
Qed.

End ShapeFacts.

Section ShapeChars.
Import Re Shape.

Lemma digit_of_mem (c : ascii) : mem IGNORECASE d c = true -> D c = true.
Proof. unfold mem, d. simpl. now rewrite orb_false_r. Qed.

Lemma word_of_mem (c : ascii) : mem IGNORECASE w c = true -> is_word c = true.
Proof. unfold mem, w. simpl. now rewrite orb_false_r. Qed.

Lemma char_of_lit (x : ascii) :
  uncased IGNORECASE x = true ->
  forall c, lit_eq IGNORECASE x c = true -> is_char x c = true.
Proof.
  intros U c L. apply (uncased_spec _ _ _ U) in L. subst. unfold is_char.
  apply Ascii.eqb_refl.
Qed.

Lemma name_of_mem (c : ascii) :
  mem IGNORECASE Anonimizador.EMAIL_name c = true -> name_char c = true.
Proof.
  unfold mem, Anonimizador.EMAIL_name, name_char. cbn [existsb item_mem in_category].
  rewrite orb_false_r. intros H.
  apply orb_true_iff in H. destruct H as [H|H]; [now rewrite H|].
  apply orb_true_iff in H. destruct H as [H|H].
  - rewrite (char_of_lit "." eq_refl c H). now rewrite orb_true_r.
  - rewrite (char_of_lit "-" eq_refl c H). now rewrite !orb_true_r.
Qed.

End ShapeChars.

Section RuleFacts.
Import SpaCy Anonimizador Re Shape.

Variable t : str.

Lemma kept_within (doc : Doc) (item : Rule) :
  In item patterns -> Forall (within t) (kept doc t item).
Proof.
  intros Hi. apply Forall_forall. intros sp Hsp.
  apply kept_In in Hsp. destruct Hsp as [_ Hm].
  apply finditer_within in Hm; [exact Hm | now apply rules_nonempty].
Qed.

Lemma contributions_apart (doc : Doc) (item : Rule) (ms : list (nat * nat)) :
  StronglySorted (fun m m' => snd m <= fst m') ms ->
  StronglySorted (fun a b => end_char a <= start_char b)
                 (flat_map (contribution doc item) ms).
Proof.
  induction 1 as [|m ms Hs IH Hm]; simpl; [constructor|].
  destruct (contribution_cases doc item m) as [(_ & ->)|(_ & ->)]; simpl;
    [exact IH|].
  constructor; [exact IH|]. apply Forall_forall. intros sp Hsp.
  apply in_flat_map in Hsp. destruct Hsp as (m' & Hm' & Hsp).
  rewrite Forall_forall in Hm. specialize (Hm m' Hm').
  destruct (contribution_cases doc item m') as [(_ & E)|(_ & E)];
    rewrite E in Hsp; simpl in Hsp; [easy|].
  destruct Hsp as [<-|[]]. exact Hm.
Qed.

Lemma core_shape (core : regex) (ps qs : list (ascii -> bool)) (k b : nat) :
  shape_of IGNORECASE core = Some ps ->
  Forall2 (fun (p q : ascii -> bool) => forall c, p c = true -> q c = true) ps qs ->
  matches IGNORECASE t core k b ->
  b = k + length ps /\ fits qs (Py.slice t k b) = true.
Proof.
  intros E G H. destruct (shape_spec _ _ _ _ _ _ E H) as (L & F).
  split; [exact L|]. now apply (fits_of ps).
Qed.

Lemma CPF_shape (a b : nat) :
  matches IGNORECASE t CPF_pattern a b ->
  a + 14 <= b /\ fits cpf_number (Py.slice t (b - 14) b) = true.
Proof.
  intros H.
  change CPF_pattern with
    (Seq Boundary (Seq (Maybe (seq_of (lits "CPF" ++ [star sp]))) CPF_core)) in H.
  apply matches_seq_tail in H. destruct H as (k1 & L1 & H).
  apply matches_seq_tail in H. destruct H as (k & L2 & H).
  destruct (core_shape CPF_core _ cpf_number k b eq_refl) as (E & F);
    [| exact H |].
  - cbn [app repeat].
    repeat (apply Forall2_cons;
            [first [apply digit_of_mem | apply char_of_lit; reflexivity]|]).
    apply Forall2_nil.
  - simpl in E. subst b. replace (k + 14 - 14) with k by lia. split; [lia | exact F].
Qed.

Lemma CNPJ_shape (a b : nat) :
  matches IGNORECASE t CNPJ_pattern a b ->
  a + 18 <= b /\ fits cnpj_number (Py.slice t (b - 18) b) = true.
Proof.
  intros H.
  change CNPJ_pattern with
    (Seq Boundary (Seq (Maybe (seq_of (lits "CNPJ" ++ [star sp]))) CNPJ_core)) in H.
  apply matches_seq_tail in H. destruct H as (k1 & L1 & H).
  apply matches_seq_tail in H. destruct H as (k & L2 & H).
  destruct (core_shape CNPJ_core _ cnpj_number k b eq_refl) as (E & F);
    [| exact H |].
  - cbn [app repeat].
    repeat (apply Forall2_cons;
            [first [apply digit_of_mem | apply char_of_lit; reflexivity]|]).
    apply Forall2_nil.
  - simpl in E. subst b. replace (k + 18 - 18) with k by lia. split; [lia | exact F].
Qed.

Lemma TELEFONE_shape (a b : nat) :
  matches IGNORECASE t TELEFONE_pattern a b ->
  a + 9 <= b /\ fits phone_number (Py.slice t (b - 9) b) = true.
Proof.
  intros H.
  change TELEFONE_pattern with
    (Seq Boundary
       (Seq (Maybe (seq_of (lits "telefone" ++ [star sp])))
          (Seq (Maybe (seq_of [Maybe (Lit "("); times d 2; Maybe (Lit ")"); star sp]))
             (Seq (Maybe (Lit "9")) TELEFONE_core)))) in H.
  apply matches_seq_tail in H. destruct H as (k1 & L1 & H).
  apply matches_seq_tail in H. destruct H as (k2 & L2 & H).
  apply matches_seq_tail in H. destruct H as (k3 & L3 & H).
  apply matches_seq_tail in H. destruct H as (k & L4 & H).
  destruct (core_shape TELEFONE_core _ phone_number k b eq_refl) as (E & F);
    [| exact H |].
  - cbn [app repeat].
    repeat (apply Forall2_cons;
            [first [apply digit_of_mem | apply char_of_lit; reflexivity]|]).
    apply Forall2_nil.
  - simpl in E. subst b. replace (k + 9 - 9) with k by lia. split; [lia | exact F].
Qed.

Lemma in_set_char_at (cs : list item) (p : ascii -> bool) (m : nat) :
  (forall c, mem IGNORECASE cs c = true -> p c = true) ->
  in_set IGNORECASE cs t m -> char_at t p m.
Proof. intros Hp (x & Hx & Mx). exists x. split; [exact Hx | now apply Hp]. Qed.

Lemma EMAIL_shape (a b : nat) :
  matches IGNORECASE t EMAIL_pattern a b ->
  exists p q,
    a < p /\ p + 1 < q /\ q + 3 <= b /\ b <= q + 5 /\
    nth_error t p = Some "@"%char /\ nth_error t q = Some "."%char /\
    (forall i, a <= i < p -> char_at t name_char i) /\
    (forall i, p < i < q -> char_at t name_char i) /\
    (forall i, q < i < b -> char_at t is_word i).
Proof.
  intros H. unfold EMAIL_pattern, seq_of, plus, from_to in H.
  cbn [fold_right matches] in H.
  destruct H as (k1 & (_ & ->) & p & (Hap & Hp1 & _ & Hname1)
                 & k3 & (x & Hx & Lx & ->)
                 & q & (Hpq & Hq1 & _ & Hname2)
                 & k5 & (y & Hy & Ly & ->)
                 & k6 & (Hq6 & Hlo & Hhi & Hword)
                 & k7 & (_ & ->) & ->).
  apply (uncased_spec IGNORECASE "@"%char x eq_refl) in Lx. subst x.
  apply (uncased_spec IGNORECASE "."%char y eq_refl) in Ly. subst y.
  exists p, q. repeat split; auto; try lia.
  - intros i Hi. apply (in_set_char_at _ _ _ name_of_mem). apply Hname1. lia.
  - intros i Hi. apply (in_set_char_at _ _ _ name_of_mem). apply Hname2. lia.
  - intros i Hi. apply (in_set_char_at _ _ _ word_of_mem). apply Hword. lia.
Qed.

Lemma dash_needed (r : regex) (n a b : nat) :
  anchor IGNORECASE "-" r = Some n ->
  matches IGNORECASE t r a b -> In "-"%char t.
Proof.
  intros A H. destruct (anchor_spec _ _ _ _ _ _ _ A H) as (m & (_ & Hm & _) & _).
  now apply nth_error_In in Hm.
Qed.

Lemma no_dash_no_match (r : regex) (n : nat) :
  anchor IGNORECASE "-" r = Some n ->
  ~ In "-"%char t -> finditer r t IGNORECASE = [].
Proof.
  intros A N. apply no_elements. intros [a b] Hm.
  apply finditer_matches in Hm. apply N. now apply (dash_needed r n a b).
Qed.

Lemma no_at_no_match :
  ~ In "@"%char t -> finditer EMAIL_pattern t IGNORECASE = [].
Proof.
  intros N. apply no_elements. intros [a b] Hm.
  apply finditer_matches, EMAIL_shape in Hm.
  destruct Hm as (p & q & _ & _ & _ & _ & Hp & _).
  apply N. now apply nth_error_In in Hp.
Qed.

End RuleFacts.

Section RuleProperties.
Import SpaCy Anonimizador Re Shape.

Lemma raw_within (doc : Doc) (txt0 : str) :
  Forall (within txt0) (ents doc) -> Forall (within txt0) (raw doc txt0).
Proof.
  intros H. unfold raw. apply Forall_app. split.
  - apply Forall_forall. intros sp Hsp. apply reported_In in Hsp.
    rewrite Forall_forall in H. now apply H.
  - apply Forall_forall. intros sp Hsp. apply in_flat_map in Hsp.
    destruct Hsp as (item & Hi & Hk).
    pose proof (kept_within txt0 doc item Hi) as K.
    rewrite Forall_forall in K. now apply K.
Qed.

Lemma raw_valid (doc : Doc) (txt0 : str) :
  Forall (within txt0) (ents doc) ->
  Forall (Mask.valid_span txt0) (map interval_of (raw doc txt0)).
Proof.
  intros H. apply Forall_map. eapply Forall_impl; [|apply (raw_within _ _ H)].
  intros sp W. exact W.
Qed.

Lemma sorted_pairs (A : Type) (R Q : A -> A -> Prop) (l : list A) :
  (forall a b, R a b -> Q a b) -> StronglySorted R l -> ForallOrdPairs Q l.
Proof.
  intros I. induction 1 as [|x l Hs IH Hx]; constructor; [|exact IH].
  eapply Forall_impl; [|exact Hx]. intros b. apply I.
Qed.

(** X7: every span kept for a rule is non-empty and lies inside the
    text; so when the extractor keeps its entities inside the text, all
    collected spans are valid and the masked text is the text with the
    covered positions masked, run by run. *)
Theorem X7_pattern_spans_valid (nlp : str -> Doc) (txt0 : str) :
  Forall (within txt0) (ents (nlp txt0)) ->
  (forall item, In item patterns ->
                Forall (within txt0) (kept (nlp txt0) txt0 item)) /\
  Forall (Mask.valid_span txt0) (map interval_of (raw (nlp txt0) txt0)) /\
  masked_of (mask_entities_and_contacts nlp txt0) =
  Mask.mask_positions
    (Mask.covered (map interval_of (raw (nlp txt0) txt0))) 0 false txt0.
Proof.
  intros H. split; [intros item Hi; now apply kept_within|].
  pose proof (raw_valid _ _ H) as V. split; [exact V|].
  rewrite masked_spec. now apply mask_text_positions.
Qed.

Lemma X7_pattern_spans_valid_witness :
  Forall (within Sample.cpf_text) (ents (Sample.cpf_nlp Sample.cpf_text)) /\
  Forall (Mask.valid_span Sample.cpf_text)
         (map interval_of (raw (Sample.cpf_nlp Sample.cpf_text) Sample.cpf_text)).
Proof.
  assert (H : Forall (within Sample.cpf_text)
                     (ents (Sample.cpf_nlp Sample.cpf_text))).
  { constructor; [vm_compute; lia | constructor]. }
  split; [exact H|].
  exact (proj1 (proj2 (X7_pattern_spans_valid Sample.cpf_nlp Sample.cpf_text H))).
Defined.

(** X8: the spans kept for one rule come one after the other: each ends
    at or before the start of the next, so no two of them overlap. *)
Theorem X8_rule_matches_apart (doc : Doc) (txt0 : str) (item : Rule) :
  StronglySorted (fun a b => end_char a <= start_char b) (kept doc txt0 item) /\
  ForallOrdPairs disjoint (kept doc txt0 item).
Proof.
  assert (S : StronglySorted (fun a b => end_char a <= start_char b)
                             (kept doc txt0 item)).
  { apply contributions_apart. apply scan_apart. }
  split; [exact S|].
  refine (sorted_pairs _ _ _ _ _ S). intros a b H.
  unfold disjoint, overlaps. apply andb_false_iff. right.
  apply Nat.ltb_ge. exact H.
Qed.

(** X9: a match of the CPF rule is at least 14 characters long and its
    last 14 characters have the form DDD.DDD.DDD-DD; a match of the CNPJ
    rule ends with the 18 characters DD.DDD.DDD/DDDD-DD; a match of the
    TELEFONE rule ends with the 9 characters DDDD-DDDD. *)
Theorem X9_number_shapes (txt0 : str) (a b : nat) :
  (In (a, b) (finditer CPF_pattern txt0 IGNORECASE) ->
   a + 14 <= b /\ fits cpf_number (Py.slice txt0 (b - 14) b) = true) /\
  (In (a, b) (finditer CNPJ_pattern txt0 IGNORECASE) ->
   a + 18 <= b /\ fits cnpj_number (Py.slice txt0 (b - 18) b) = true) /\
  (In (a, b) (finditer TELEFONE_pattern txt0 IGNORECASE) ->
   a + 9 <= b /\ fits phone_number (Py.slice txt0 (b - 9) b) = true).
Proof.
  split; [|split]; intros H; apply finditer_matches in H; cbn [fst snd] in H.
  - now apply CPF_shape.
  - now apply CNPJ_shape.
  - now apply TELEFONE_shape.
Qed.

Lemma X9_number_shapes_witness :
  In (0, 18) (finditer CPF_pattern Sample.cpf_text IGNORECASE) /\
  fits cpf_number (Py.slice Sample.cpf_text 4 18) = true.
Proof.
  assert (H : In (0, 18) (finditer CPF_pattern Sample.cpf_text IGNORECASE)).
  { vm_compute. left. reflexivity. }
  split; [exact H|].
  exact (proj2 (proj1 (X9_number_shapes Sample.cpf_text 0 18) H)).
Defined.

(** X10: a match of the EMAIL rule has an at sign after at least one
    name character, then name characters up to a dot, and after that dot
    two to four word characters and nothing else; name characters are
    word characters, dots and hyphens. *)
Theorem X10_email_shape (txt0 : str) (a b : nat) :
  In (a, b) (finditer EMAIL_pattern txt0 IGNORECASE) ->
  exists p q,
    a < p /\ p + 1 < q /\ q + 3 <= b /\ b <= q + 5 /\
    nth_error txt0 p = Some "@"%char /\ nth_error txt0 q = Some "."%char /\
    (forall i, a <= i < p -> char_at txt0 name_char i) /\
    (forall i, p < i < q -> char_at txt0 name_char i) /\
    (forall i, q < i < b -> char_at txt0 is_word i).
Proof.
  intros H. apply finditer_matches in H. now apply EMAIL_shape.
Qed.

Lemma X10_email_shape_witness :
  In (8, 24) (finditer EMAIL_pattern Sample.glued_text IGNORECASE) /\
  exists p q,
    8 < p /\ p + 1 < q /\ q + 3 <= 24 /\ 24 <= q + 5 /\
    nth_error Sample.glued_text p = Some "@"%char /\
    nth_error Sample.glued_text q = Some "."%char.
Proof.
  assert (H : In (8, 24) (finditer EMAIL_pattern Sample.glued_text IGNORECASE)).
  { vm_compute. left. reflexivity. }
  split; [exact H|].
  destruct (X10_email_shape Sample.glued_text 8 24 H)
    as (p & q & H1 & H2 & H3 & H4 & H5 & H6 & _).
  exists p, q. repeat split; assumption.
Defined.

(** X11: a text without a hyphen has no match of the CPF, CNPJ and
    TELEFONE rules, and a text without an at sign has no match of the
    EMAIL rule; on a text with neither, only the reported extractor
    entities are collected, reported and masked. *)
Theorem X11_needed_characters (nlp : str -> Doc) (txt0 : str) :
  (~ In "-"%char txt0 ->
   finditer CPF_pattern txt0 IGNORECASE = [] /\
   finditer CNPJ_pattern txt0 IGNORECASE = [] /\
   finditer TELEFONE_pattern txt0 IGNORECASE = []) /\
  (~ In "@"%char txt0 -> finditer EMAIL_pattern txt0 IGNORECASE = []) /\
  (~ In "-"%char txt0 -> ~ In "@"%char txt0 ->
   raw (nlp txt0) txt0 = reported (nlp txt0) /\
   report_of (mask_entities_and_contacts nlp txt0)
     = map (entity_of txt0) (reported (nlp txt0)) /\
   masked_of (mask_entities_and_contacts nlp txt0)
     = Mask.mask_text txt0 (map interval_of (reported (nlp txt0)))).
Proof.
  assert (Dash : ~ In "-"%char txt0 ->
                 finditer CPF_pattern txt0 IGNORECASE = [] /\
                 finditer CNPJ_pattern txt0 IGNORECASE = [] /\
                 finditer TELEFONE_pattern txt0 IGNORECASE = []).
  { intros N. repeat split.
    - now apply (no_dash_no_match txt0 _ 2).
    - now apply (no_dash_no_match txt0 _ 2).
    - now apply (no_dash_no_match txt0 _ 4). }
  split; [exact Dash|]. split; [apply no_at_no_match|].
  intros N1 N2. destruct (Dash N1) as (E1 & E2 & E3).
  pose proof (no_at_no_match txt0 N2) as E4.
  assert (R : raw (nlp txt0) txt0 = reported (nlp txt0)).
  { unfold raw. cbn [patterns flat_map]. unfold kept. cbn [pattern].
    rewrite E1, E2, E3, E4. simpl. now rewrite app_nil_r. }
  rewrite report_spec, masked_spec, R. repeat split.
Qed.

Lemma X11_needed_characters_witness :
  ~ In "-"%char Sample.plain_text /\ ~ In "@"%char Sample.plain_text /\
  raw (Sample.plain_nlp Sample.plain_text) Sample.plain_text = [] /\
  masked_of (mask_entities_and_contacts Sample.plain_nlp Sample.plain_text)
    = Sample.plain_text.
Proof.
  assert (N1 : ~ In "-"%char Sample.plain_text).
  { intros H. vm_compute in H. intuition discriminate. }
  assert (N2 : ~ In "@"%char Sample.plain_text).
  { intros H. vm_compute in H. intuition discriminate. }
  destruct (X11_needed_characters Sample.plain_nlp Sample.plain_text)
    as (_ & _ & F).
  destruct (F N1 N2) as (R & _ & M).
  split; [exact N1|]. split; [exact N2|]. split; [rewrite R; reflexivity|].
  rewrite M. reflexivity.
Defined.

(** X12: the text of every entry of the report is a contiguous part of
    the input text, and it is not empty when the extractor keeps its
    entities inside the text. *)
Theorem X12_report_texts (nlp : str -> Doc) (txt0 : str) (e : Entity) :
  In e (report_of (mask_entities_and_contacts nlp txt0)) ->
  (exists pre post, txt0 = pre ++ text e ++ post) /\
  (Forall (within txt0) (ents (nlp txt0)) -> text e <> []).
Proof.
  rewrite report_spec, in_map_iff. intros (sp & <- & Hsp).
  cbn [entity_of text]. unfold span_text, Py.slice. split.
  - exists (firstn (start_char sp) txt0),
           (skipn (end_char sp - start_char sp) (skipn (start_char sp) txt0)).
    now rewrite firstn_skipn, firstn_skipn.
  - intros H. pose proof (raw_within _ _ H) as W.
    rewrite Forall_forall in W. destruct (W sp Hsp) as [W1 W2].
    intros E. apply (f_equal (@length ascii)) in E.
    rewrite length_firstn, length_skipn in E. simpl in E. lia.
Qed.

Lemma X12_report_texts_witness :
  In (mkEntity (txt "CPF") "ORG")
     (report_of (mask_entities_and_contacts Sample.cpf_nlp Sample.cpf_text)) /\
  exists pre post, Sample.cpf_text = pre ++ txt "CPF" ++ post.
Proof.
  assert (H : In (mkEntity (txt "CPF") "ORG")
                 (report_of (mask_entities_and_contacts
                               Sample.cpf_nlp Sample.cpf_text))).
  { vm_compute. left. reflexivity. }
  split; [exact H|].
  exact (proj1 (X12_report_texts Sample.cpf_nlp Sample.cpf_text _ H)).
Defined.

End RuleProperties.

(** * What the scan cannot miss *)
Section Covering.
Import Re.

Variable fl : flag.
Variable r : regex.
Variable t : str.

Lemma leftmost_longest_covers (ms : list (nat * nat)) (pos i j : nat) :
  leftmost_longest fl r t pos ms -> pos <= i -> matches fl t r i j ->
  exists s e, In (s, e) ms /\ s <= i < e.
Proof.
  revert pos. induction ms as [|[a b] ms IH]; intros pos; simpl.
  - intros H Hi Hm. destruct (H i j Hi Hm).
  - intros (H1 & H2 & H3 & H4 & H5 & H6) Hi Hm.
    destruct (Nat.lt_ge_cases i a) as [L|G].
    { destruct (H4 i j); [lia | exact Hm]. }
    destruct (Nat.lt_ge_cases i b) as [L|G'].
    + exists a, b. split; [now left | lia].
    + destruct (IH b H6 G' Hm) as (s & e & Hin & Hs).
      exists s, e. split; [now right | exact Hs].
Qed.

End Covering.

Section Completeness.
Import Re Shape.

Variable fl : flag.
Variable t : str.

Lemma shape_length (r : regex) (ps : list (ascii -> bool)) :
  shape_of fl r = Some ps -> length ps = min_len r.
Proof.
  revert ps. induction r as [|c|cs| |r1 IH1 r2 IH2|r IH|cs lo hi]; intros ps; simpl;
    try (intros [= <-]; reflexivity); try discriminate.
  - destruct (shape_of fl r1) as [p1|]; [|discriminate].
    destruct (shape_of fl r2) as [p2|]; [|discriminate].
    intros [= <-]. rewrite length_app, (IH1 _ eq_refl), (IH2 _ eq_refl). reflexivity.
  - destruct hi as [h|]; [|discriminate]. destruct (lo =? h); [|discriminate].
    intros [= <-]. apply repeat_length.
Qed.

Lemma skipn_head (i : nat) (x : ascii) (rest : str) :
  skipn i t = x :: rest -> nth_error t i = Some x.
Proof.
  intros E. replace i with (i + 0) by lia. now rewrite <- nth_error_skipn, E.
Qed.

Lemma skipn_more (i : nat) (l rest : str) :
  skipn i t = l ++ rest -> skipn (i + length l) t = rest.
Proof.
  intros E. rewrite Nat.add_comm, <- skipn_skipn, E.
  rewrite skipn_app, Nat.sub_diag, skipn_all. reflexivity.
Qed.

Lemma repeat_in_set (cs : list item) (n i : nat) (l rest : str) :
  skipn i t = l ++ rest ->
  Forall2 (fun p c => p c = true) (repeat (mem fl cs) n) l ->
  forall m, i <= m < i + n -> in_set fl cs t m.
Proof.
  revert i l. induction n as [|n IH]; intros i l E F m Hm; [lia|].
  simpl in F. inversion F as [|p x ps l' Hx F']; subst.
  destruct (Nat.eq_dec m i) as [->|Hne].
  - exists x. split; [|exact Hx]. now apply (skipn_head i x (l' ++ rest)).
  - apply (IH (S i) l'); [|exact F'|lia].
    replace (S i) with (i + length [x]) by (simpl; lia).
    now apply (skipn_more i [x] (l' ++ rest)).
Qed.

Lemma shape_complete (r : regex) (ps : list (ascii -> bool)) (i : nat)
    (l rest : str) :
  shape_of fl r = Some ps -> boundaries_hold t r i ->
  skipn i t = l ++ rest -> Forall2 (fun p c => p c = true) ps l ->
  matches fl t r i (i + length ps).
Proof.
  revert ps i l rest.
  induction r as [|c|cs| |r1 IH1 r2 IH2|r IH|cs lo hi]; intros ps i l rest; simpl.
  - intros [= <-] _ _ _. simpl. lia.
  - intros [= <-] _ E F. inversion F as [|p x ? l' Hx F']; subst.
    exists x. split; [now apply (skipn_head i x (l' ++ rest))|].
    split; [exact Hx | simpl; lia].
  - intros [= <-] _ E F. inversion F as [|p x ? l' Hx F']; subst.
    split; [|simpl; lia].
    exists x. split; [now apply (skipn_head i x (l' ++ rest)) | exact Hx].
  - intros [= <-] B _ _. split; [exact B | simpl; lia].
  - destruct (shape_of fl r1) as [p1|] eqn:E1; [|discriminate].
    destruct (shape_of fl r2) as [p2|] eqn:E2; [|discriminate].
    intros [= <-] (B1 & B2) E F.
    apply Forall2_app_inv_l in F. destruct F as (l1 & l2 & F1 & F2 & ->).
    pose proof (Forall2_length F1) as L1.
    rewrite <- (shape_length _ _ E1) in B2.
    exists (i + length p1). split.
    + apply (IH1 p1 i l1 (l2 ++ rest)); auto. now rewrite app_assoc.
    + rewrite length_app, Nat.add_assoc.
      apply (IH2 p2 (i + length p1) l2 rest); auto.
      rewrite L1. apply (skipn_more i l1 (l2 ++ rest)). now rewrite app_assoc.
  - discriminate.
  - destruct hi as [h|]; [|discriminate].
    destruct (lo =? h) eqn:Eq; [|discriminate]. apply Nat.eqb_eq in Eq. subst h.
    intros [= <-] _ E F. rewrite repeat_length.
    repeat split; try lia.
    intros m Hm. now apply (repeat_in_set cs lo i l rest).
Qed.

Lemma fits_Forall2 (qs : list (ascii -> bool)) (l : str) :
  fits qs l = true -> Forall2 (fun q c => q c = true) qs l.
Proof.
  unfold fits. revert l. induction qs as [|q qs IH]; intros [|c l]; simpl;
    try discriminate; [constructor|].
  intros H. apply andb_true_iff in H. destruct H as [L H].
  apply andb_true_iff in H. destruct H as [Hq H].
  constructor; [exact Hq|]. apply IH. now rewrite L, H.
Qed.

Lemma Forall2_weaken (ps qs : list (ascii -> bool)) (l : str) :
  Forall2 (fun q c => q c = true) qs l ->
  Forall2 (fun (q p : ascii -> bool) => forall c, q c = true -> p c = true) qs ps ->
  Forall2 (fun p c => p c = true) ps l.
Proof.
  intros F. revert ps. induction F as [|q c qs l Hq F IH]; intros ps G.
  - inversion G; subst. constructor.
  - inversion G as [|? p ? ps' Hp G']; subst. constructor; [now apply Hp | now apply IH].
Qed.

Lemma slice_nth (a b k : nat) :
  k < b - a -> nth_error (Py.slice t a b) k = nth_error t (a + k).
Proof.
  intros H. unfold Py.slice. rewrite nth_error_firstn.
  replace (k <? b - a) with true by (symmetry; now apply Nat.ltb_lt).
  apply nth_error_skipn.
Qed.

Lemma fits_nth (qs : list (ascii -> bool)) (l : str) (k : nat) (q : ascii -> bool) :
  fits qs l = true -> nth_error qs k = Some q ->
  exists c, nth_error l k = Some c /\ q c = true.
Proof.
  intros F. apply fits_Forall2 in F. revert k.
  induction F as [|q' c qs l Hq F IH]; intros [|k]; simpl; try discriminate.
  - intros [= <-]. eauto.
  - apply IH.
Qed.

End Completeness.

Section CpfCompleteness.
Import Re Shape Anonimizador.

Variable t : str.

Lemma mem_of_digit (c : ascii) : D c = true -> mem IGNORECASE d c = true.
Proof. unfold mem, d. simpl. now rewrite orb_false_r. Qed.

Lemma lit_of_char (x c : ascii) : is_char x c = true -> lit_eq IGNORECASE x c = true.
Proof.
  unfold is_char. intros E. apply Ascii.eqb_eq in E. subst. simpl.
  apply Ascii.eqb_refl.
Qed.

Lemma CPF_matches_number (a : nat) :
  fits cpf_number (Py.slice t a (a + 14)) = true ->
  at_boundary t a = true -> at_boundary t (a + 14) = true ->
  matches IGNORECASE t CPF_pattern a (a + 14).
Proof.
  intros F B1 B2.
  change CPF_pattern with
    (Seq Boundary (Seq (Maybe (seq_of (lits "CPF" ++ [star sp]))) CPF_core)).
  exists a. split; [now split|]. exists a. split; [now right|].
  change (a + 14) with (a + length cpf_number).
  match goal with |- matches _ _ _ _ (_ + length ?qs) =>
    assert (G : exists ps, shape_of IGNORECASE CPF_core = Some ps /\
                           length ps = length qs /\
                           Forall2 (fun (q p : ascii -> bool) =>
                                      forall c, q c = true -> p c = true) qs ps)
  end.
  { eexists. split; [reflexivity|]. split; [reflexivity|].
    cbn [app repeat]. unfold cpf_number.
    repeat (apply Forall2_cons; [first [apply mem_of_digit | apply lit_of_char]|]).
    apply Forall2_nil. }
  destruct G as (ps & E & L & G). rewrite <- L.
  apply (shape_complete IGNORECASE t CPF_core ps a
           (Py.slice t a (a + 14)) (skipn (a + 14) t) E).
  - cbn [boundaries_hold CPF_core seq_of fold_right times min_len].
    repeat split.
    replace (a + 3 + 1 + 3 + 1 + 3 + 1 + 2) with (a + 14) by lia. exact B2.
  - apply slice_split. lia.
  - apply (Forall2_weaken ps cpf_number); [now apply fits_Forall2 | exact G].
Qed.

Lemma CPF_end_boundary (s e : nat) :
  matches IGNORECASE t CPF_pattern s e -> at_boundary t e = true.
Proof.
  intros H. unfold CPF_pattern, seq_of in H. cbn [fold_right] in H.
  do 9 (apply matches_seq_tail in H; destruct H as (? & _ & H)).
  destruct H as (k & (B & ->) & ->). exact B.
Qed.

Lemma number_char (a k : nat) (q : ascii -> bool) :
  fits cpf_number (Py.slice t a (a + 14)) = true ->
  nth_error cpf_number k = Some q ->
  exists c, nth_error t (a + k) = Some c /\ q c = true.
Proof.
  intros F Q. destruct (fits_nth _ _ _ _ F Q) as (c & Hc & Hq).
  exists c. split; [|exact Hq]. rewrite <- Hc. symmetry. apply slice_nth.
  assert (k < length cpf_number) by (apply nth_error_Some; congruence).
  simpl in *. lia.
Qed.

Lemma number_no_dash (a k : nat) :
  fits cpf_number (Py.slice t a (a + 14)) = true ->
  k < 11 -> nth_error t (a + k) <> Some "-"%char.
Proof.
  intros F Hk E.
  do 11 (destruct k as [|k];
         [ match type of E with nth_error t (a + ?n) = _ =>
             destruct (number_char a n _ F eq_refl) as (c & Hc & Hq) end;
           rewrite E in Hc; injection Hc as <-; discriminate Hq |]).
  lia.
Qed.

Lemma number_word (a k : nat) :
  fits cpf_number (Py.slice t a (a + 14)) = true ->
  k < 3 -> word_at t (a + k) = true.
Proof.
  intros F Hk. unfold word_at.
  do 3 (destruct k as [|k];
        [ match goal with |- context [nth_error t (a + ?n)] =>
            destruct (number_char a n _ F eq_refl) as (c & -> & Hq) end;
          unfold D, is_digit, between in Hq; unfold is_word, is_alnum, between;
          now rewrite Hq |]).
  lia.
Qed.

End CpfCompleteness.

Section FoundProperties.
Import Re Shape Anonimizador.

(** X13: wherever a rule could match, the first character of that
    possible match lies inside a match that the scan yields. *)
Theorem X13_possible_match_covered (txt0 : str) (item : Rule) (i j : nat) :
  In item patterns ->
  matches IGNORECASE txt0 (pattern item) i j ->
  exists s e, In (s, e) (finditer (pattern item) txt0 IGNORECASE) /\ s <= i < e.
Proof.
  intros Hi Hm.
  apply (leftmost_longest_covers IGNORECASE (pattern item) txt0 _ 0 i j);
    [|lia|exact Hm].
  apply finditer_leftmost_longest.
  - now apply rules_nonempty.
  - intros k. now apply rules_longest.
Qed.

Lemma X13_possible_match_covered_witness :
  In (mkRule "CPF" CPF_pattern) patterns /\
  matches IGNORECASE Sample.cpf_text CPF_pattern 4 18 /\
  exists s e, In (s, e) (finditer CPF_pattern Sample.cpf_text IGNORECASE) /\
              s <= 4 < e.
Proof.
  assert (H : In (mkRule "CPF" CPF_pattern) patterns) by (left; reflexivity).
  assert (M : matches IGNORECASE Sample.cpf_text CPF_pattern 4 18).
  { apply ends_spec. vm_compute. left. reflexivity. }
  split; [exact H|]. split; [exact M|].
  exact (X13_possible_match_covered Sample.cpf_text (mkRule "CPF" CPF_pattern)
           4 18 H M).
Defined.

(** X14: a number of the form DDD.DDD.DDD-DD that stands between two
    word boundaries of the text is always found: the scan of the CPF rule
    yields a match that ends with it. *)
Theorem X14_cpf_number_found (txt0 : str) (a : nat) :
  fits cpf_number (Py.slice txt0 a (a + 14)) = true ->
  at_boundary txt0 a = true -> at_boundary txt0 (a + 14) = true ->
  exists s, s <= a /\ In (s, a + 14) (finditer CPF_pattern txt0 IGNORECASE).
Proof.
  intros F B1 B2.
  pose proof (CPF_matches_number txt0 a F B1 B2) as M.
  destruct (leftmost_longest_covers IGNORECASE CPF_pattern txt0 _ 0 a (a + 14)
              (finditer_leftmost_longest IGNORECASE CPF_pattern txt0
                 (rules_nonempty (mkRule "CPF" CPF_pattern) (or_introl eq_refl))
                 (CPF_longest txt0))
              (Nat.le_0_l a) M) as (s & e & Hin & Hs & He).
  exists s. split; [exact Hs|].
  pose proof (finditer_matches _ _ _ _ Hin) as Hm. cbn [fst snd] in Hm.
  pose proof (CPF_end_boundary txt0 s e Hm) as Be.
  destruct (anchor_spec IGNORECASE txt0 "-" CPF_pattern 2 s e eq_refl Hm)
    as (m & (Hsm & Hdash & Hfirst) & ->).
  destruct (number_char txt0 a 11 _ F eq_refl) as (c & Hc & Hq).
  apply Ascii.eqb_eq in Hq. subst c.
  assert (Hle : m <= a + 11).
  { destruct (Nat.le_gt_cases m (a + 11)) as [L|L]; [exact L|].
    destruct (Hfirst (a + 11)); [lia | exact Hc]. }
  destruct (Nat.eq_dec m (a + 11)) as [->|Hne].
  { replace (a + 11 + 1 + 2) with (a + 14) in Hin by lia. exact Hin. }
  exfalso.
  destruct (Nat.le_gt_cases a m) as [G|G].
  - apply (number_no_dash txt0 a (m - a) F); [lia|].
    now replace (a + (m - a)) with m by lia.
  - assert (Hcase : m + 1 + 2 = S (a + 0) \/ m + 1 + 2 = S (a + 1)) by lia.
    destruct Hcase as [E|E]; rewrite E in Be; unfold at_boundary in Be.
    + rewrite (number_word txt0 a 0 F), <- Nat.add_succ_r,
        (number_word txt0 a 1 F) in Be by lia. discriminate.
    + rewrite (number_word txt0 a 1 F), <- Nat.add_succ_r,
        (number_word txt0 a 2 F) in Be by lia. discriminate.
Qed.

Lemma X14_cpf_number_found_witness :
  fits cpf_number (Py.slice Sample.cpf_text 4 (4 + 14)) = true /\
  exists s, s <= 4 /\ In (s, 4 + 14) (finditer CPF_pattern Sample.cpf_text IGNORECASE).
Proof.
  assert (F : fits cpf_number (Py.slice Sample.cpf_text 4 (4 + 14)) = true)
    by reflexivity.
  split; [exact F|].
  apply (X14_cpf_number_found Sample.cpf_text 4 F); reflexivity.
Defined.

End FoundProperties.

(** * The page *)
Section PageProperties.
Import SpaCy Anonimizador App.








(** X16: what a run of [main] puts on the page.  Without a press of the
    button it is the heading alone, and with a press on an empty text
    the heading and a warning.  With a press on a text whose extractor
    entities lie inside it: the heading, the text with the covered
    positions masked, one line per collected raw span with its label and
    its part of the text (or the notice that nothing was found when no
    span was collected), and the rendered document. *)
Theorem X16_page (nlp : str -> Doc) (render : str -> Doc -> Options -> str)
    (txt0 : str) :
  main nlp render (mkPage txt0 false) = heading /\
  main nlp render (mkPage [] true)
    = heading ++ [warning (lit "Por favor, insira o texto para anonimização.")] /\
  (txt0 <> [] -> Forall (within txt0) (ents (nlp txt0)) ->
   main nlp render (mkPage txt0 true)
   = heading
     ++ [subheader (lit "Texto Anonimizado");
         write (Mask.mask_positions
                  (Mask.covered (map interval_of (raw (nlp txt0) txt0)))
                  0 false txt0)]
     ++ match raw (nlp txt0) txt0 with
        | [] => [write (lit "Nenhuma informação sensível identificada.")]
        | _ :: _ =>
            subheader (lit "Informações Sensíveis Identificadas")
              :: map (fun sp =>
                        write (txt "**" ++ list_ascii_of_string (label_ sp)
                                 ++ txt "**: "
                                 ++ Py.slice txt0 (start_char sp) (end_char sp)))
                     (raw (nlp txt0) txt0)
        end
     ++ [subheader (lit "Visualização das Entidades Identificadas");
         write_html
           (div (replace_newlines
                   (render txt0
                      (doc_of (mask_entities_and_contacts nlp txt0))
                      options)))]).
Proof.
  split; [unfold main; cbn [pressed]; apply app_nil_r|].
  split; [reflexivity|].
  intros Hn Hw. unfold main. cbn [pressed text_input].
  destruct txt0 as [|c l] eqn:Et; [congruence|]. rewrite <- Et in *.
  pose proof (masked_spec nlp txt0) as M.
  pose proof (report_spec nlp txt0) as R.
  rewrite (mask_text_positions _ _ (raw_valid _ _ Hw)) in M.
  destruct (mask_entities_and_contacts nlp txt0) as [[m es] doc].
  unfold masked_of, report_of, doc_of in *. cbn [fst snd] in *. subst m es.
  f_equal. f_equal. f_equal. f_equal.
  unfold entity_calls. destruct (raw (nlp txt0) txt0) as [|sp rest]; [reflexivity|].
  cbn [map]. f_equal. rewrite map_map. reflexivity.
Qed.

Lemma X16_page_witness :
  Sample.cpf_text <> [] /\
  Forall (within Sample.cpf_text) (ents (Sample.cpf_nlp Sample.cpf_text)) /\
  nth_error (main Sample.cpf_nlp (fun _ _ _ => []) (mkPage Sample.cpf_text true)) 5
  = Some (write Mask.MASK).
Proof.
  assert (N : Sample.cpf_text <> []) by discriminate.
  assert (W : Forall (within Sample.cpf_text) (ents (Sample.cpf_nlp Sample.cpf_text))).
  { constructor; [vm_compute; lia | constructor]. }
  split; [exact N|]. split; [exact W|].
  destruct (X16_page Sample.cpf_nlp (fun _ _ _ => []) Sample.cpf_text)
    as (_ & _ & E).
  rewrite (E N W). reflexivity.
Defined.

End PageProperties.

Section CaseProperties.
Import SpaCy Anonimizador.

(** X17: two texts that differ only in the case of their letters, for
    which the extractor gives the same document, have the same collected
    spans, the same labels in the report and the same returned
    document. *)
Theorem X17_case_blind (nlp : str -> Doc) (txt0 txt1 : str) :
  map Re.lower txt0 = map Re.lower txt1 ->
  nlp txt0 = nlp txt1 ->
  raw (nlp txt0) txt0 = raw (nlp txt1) txt1 /\
  map label (report_of (mask_entities_and_contacts nlp txt0))
  = map label (report_of (mask_entities_and_contacts nlp txt1)) /\
  doc_of (mask_entities_and_contacts nlp txt0)
  = doc_of (mask_entities_and_contacts nlp txt1).
Proof.
  intros Hc Hd.
  assert (K : forall item, kept (nlp txt0) txt0 item = kept (nlp txt1) txt1 item).
  { intros item. unfold kept. rewrite Hd.
    now rewrite (finditer_same txt0 txt1 Hc (pattern item)). }
  assert (F : flat_map (kept (nlp txt0) txt0) patterns
              = flat_map (kept (nlp txt1) txt1) patterns).
  { apply flat_map_ext. exact K. }
  assert (R : raw (nlp txt0) txt0 = raw (nlp txt1) txt1).
  { unfold raw. now rewrite F, Hd. }
  split; [exact R|]. split.
  - rewrite !report_spec, !map_map, R. reflexivity.
  - rewrite !doc_spec. unfold candidates. now rewrite F, Hd.
Qed.

Lemma X17_case_blind_witness :
  map Re.lower Sample.cpf_text = map Re.lower (txt "cpf 123.456.789-00") /\
  raw (Sample.cpf_nlp Sample.cpf_text) Sample.cpf_text
  = raw (Sample.cpf_nlp (txt "cpf 123.456.789-00")) (txt "cpf 123.456.789-00").
Proof.
  assert (H : map Re.lower Sample.cpf_text
              = map Re.lower (txt "cpf 123.456.789-00")) by reflexivity.
  split; [exact H|].
  exact (proj1 (X17_case_blind Sample.cpf_nlp Sample.cpf_text
                  (txt "cpf 123.456.789-00") H eq_refl)).
Defined.

End CaseProperties.
